(** * DocFlow: run-splitting text replacement, font normalisation, batch driver

    A shallow embedding of the document-processing core of DocFlow
    ([App/Word Document Processing.py], [App/Change_Font.py],
    [DocFlow.py.py]) together with the properties its specification
    states about it.

    Python strings are lists of characters and Python integers are [Z];
    [str.find], [in], slicing and [str.replace] are modelled with their
    Python behaviour, the [-1] of [find] included.

    The document library (python-docx over lxml) is outside the
    repository. Its objects are modelled as the specification describes
    them: a document has body paragraphs, tables of rows of cells holding
    paragraphs, and sections with footer paragraphs, none shared; a
    paragraph is the ordered list of its runs; a run has a text and the
    style attributes bold, italic, underline, font name, font size and
    named style. What the code relies on beyond that is modelled
    explicitly: a run is an element with an identity (the lxml element a
    [Run] proxy points to), [paragraph.runs] is a snapshot of proxies,
    [paragraph.add_run] appends a new element, and [parent.insert] moves
    an element that is already a child.

    The [while True] scan is run on fuel; [Diverge] is the outcome of a
    run that did not finish within its fuel. *)

From Stdlib Require Import Ascii String ZArith Lia Bool Arith List Permutation.
Import ListNotations.

Set Implicit Arguments.

(** ** Python strings *)

Definition str := list ascii.

(** A string literal. *)
Definition lit (x : string) : str := list_ascii_of_string x.

Module PyStr.

Definition len (s : str) : Z := Z.of_nat (length s).

(** [s.startswith(sub)] *)
Fixpoint startswith (s sub : str) : bool :=
  match sub, s with
  | [], _ => true
  | _ :: _, [] => false
  | a :: sub', b :: s' => Ascii.eqb a b && startswith s' sub'
  end.

(** The left-to-right search behind [str.find]: [s] is the text from
    position [pos] on; the result is the lowest position at which [sub]
    starts, or [-1]. *)
Fixpoint search (s sub : str) (pos : nat) : Z :=
  if startswith s sub then Z.of_nat pos
  else match s with
       | [] => (-1)%Z
       | _ :: s' => search s' sub (S pos)
       end.

(** A negative bound counts from the end of the string. *)
Definition adjust (n i : Z) : Z :=
  if (i <? 0)%Z then Z.max 0 (i + n) else i.

(** [s.find(sub, start)] *)
Definition find (s sub : str) (start : Z) : Z :=
  let st := adjust (len s) start in
  if (len s <? st)%Z then (-1)%Z
  else search (skipn (Z.to_nat st) s) sub (Z.to_nat st).

(** [sub in s] *)
Definition contains (s sub : str) : bool :=
  negb (find s sub 0 =? -1)%Z.

Definition clamp (n i : Z) : Z := Z.min (adjust n i) n.

(** [s[lo:hi]] *)
Definition slice (s : str) (lo hi : Z) : str :=
  let a := clamp (len s) lo in
  let b := clamp (len s) hi in
  firstn (Z.to_nat (b - a)) (skipn (Z.to_nat a) s).

(** [s[lo:]] *)
Definition slice_from (s : str) (lo : Z) : str :=
  skipn (Z.to_nat (clamp (len s) lo)) s.

(** The scan of [str.replace] for a non-empty [old]: read [s] from the
    left; where [old] starts, emit [new] and pass over the [length old]
    characters of the match ([skip] counts those still to pass);
    elsewhere copy the character. *)
Fixpoint replace_scan (s old new : str) (skip : nat) : str :=
  match s with
  | [] => []
  | c :: s' =>
      match skip with
      | S k => replace_scan s' old new k
      | O => if startswith s old
             then new ++ replace_scan s' old new (length old - 1)
             else c :: replace_scan s' old new 0
      end
  end.

(** [s.replace(old, new)]; an empty [old] matches before every
    character and at the end. *)
Definition replace (s old new : str) : str :=
  match old with
  | [] => new ++ flat_map (fun c => c :: new) s
  | _ :: _ => replace_scan s old new 0
  end.

End PyStr.

(** ** Outcomes of running Python code *)

Inductive exn : Type :=
| ValueError              (* list.index / lxml remove on an absent element *)
| IndexError              (* subscript out of range *)
| Exception (msg : str).  (* an error of the document library or the OS *)

(** A computation returns, raises, or has not finished within the fuel it
    was given. *)
Inductive result (A : Type) : Type :=
| Ret (a : A)
| Raise (e : exn)
| Diverge.

Arguments Ret {A} a.
Arguments Raise {A} e.
Arguments Diverge {A}.

Definition bind {A B} (m : result A) (k : A -> result B) : result B :=
  match m with
  | Ret a => k a
  | Raise e => Raise e
  | Diverge => Diverge
  end.

Notation "x <- m ;; k" := (bind m (fun x => k))
  (at level 61, m at next level, right associativity).

(** ** The occurrence scan of [deep_replace_text_in_paragraph] (lines 44-53) *)

Inductive loop_ctl : Type :=
| Break (parts : list str)
| Next (parts : list str) (start : Z).

(** One iteration of the [while True] loop. *)
Definition scan_step (text old_text new_text : str)
           (parts : list str) (start : Z) : loop_ctl :=
  let idx := PyStr.find text old_text start in
  if (idx =? -1)%Z
  then Break (parts ++ [PyStr.slice_from text start])
  else Next (parts ++ [PyStr.slice text start idx; new_text])
            (idx + PyStr.len old_text)%Z.

Fixpoint scan_loop (fuel : nat) (text old_text new_text : str)
         (parts : list str) (start : Z) : result (list str) :=
  match fuel with
  | O => Diverge
  | S fuel' =>
      match scan_step text old_text new_text parts start with
      | Break parts' => Ret parts'
      | Next parts' start' =>
          scan_loop fuel' text old_text new_text parts' start'
      end
  end.

(** [parts = []; start = 0; while True: ...] *)
Definition split_parts (fuel : nat) (text old_text new_text : str)
  : result (list str) :=
  scan_loop fuel text old_text new_text [] 0%Z.

(** ** Runs *)

(** [run.underline]: [True]/[False], or a member of [WD_UNDERLINE]. *)
Inductive underline_t : Type :=
| UL_bool (b : bool)
| UL_enum (code : Z).

(** A run: its text and the style attributes the replacer copies.
    [None] is Python's [None] (the attribute is inherited); [style] is the
    identifier of the run's character style, [None] for the default one;
    [font_size] is a length in EMU. *)
Record Run : Type := mkRun {
  text : str;
  bold : option bool;
  italic : option bool;
  underline : option underline_t;
  font_name : option str;
  font_size : option Z;
  style : option str
}.

Definition set_text (v : str) (r : Run) : Run :=
  mkRun v (bold r) (italic r) (underline r) (font_name r) (font_size r) (style r).
Definition set_bold (v : option bool) (r : Run) : Run :=
  mkRun (text r) v (italic r) (underline r) (font_name r) (font_size r) (style r).
Definition set_italic (v : option bool) (r : Run) : Run :=
  mkRun (text r) (bold r) v (underline r) (font_name r) (font_size r) (style r).
Definition set_underline (v : option underline_t) (r : Run) : Run :=
  mkRun (text r) (bold r) (italic r) v (font_name r) (font_size r) (style r).
Definition set_font_name (v : option str) (r : Run) : Run :=
  mkRun (text r) (bold r) (italic r) (underline r) v (font_size r) (style r).
Definition set_font_size (v : option Z) (r : Run) : Run :=
  mkRun (text r) (bold r) (italic r) (underline r) (font_name r) v (style r).
Definition set_style (v : option str) (r : Run) : Run :=
  mkRun (text r) (bold r) (italic r) (underline r) (font_name r) (font_size r) v.

(** The style record of a run: everything but its text. *)
Definition formatting (r : Run) :=
  (bold r, italic r, underline r, font_name r, font_size r, style r).

(** The run [paragraph.add_run(text)] creates: no run properties. *)
Definition fresh_run (t : str) : Run := mkRun t None None None None None None.

(** ** Paragraphs *)

(** A child element of a paragraph. [el_id] is the identity of the
    element: a [Run] proxy obtained from [paragraph.runs] is that identity,
    and stays valid while the paragraph is changed. *)
Record Element : Type := mkElement { el_id : nat; el_run : Run }.

Record Paragraph : Type := mkParagraph {
  children : list Element;
  next_id : nat               (* identity of the next element created *)
}.

(** [paragraph.runs]: a list of proxies, built when the property is read. *)
Definition runs (p : Paragraph) : list nat := map el_id (children p).

(** The runs of a paragraph, in document order. *)
Definition run_list (p : Paragraph) : list Run := map el_run (children p).

(** [paragraph.text] *)
Definition paragraph_text (p : Paragraph) : str :=
  concat (map text (run_list p)).

Definition is_elem (id : nat) (e : Element) : bool := el_id e =? id.

(** Reading through a proxy. In this model an element that was removed
    from the paragraph is gone, and reading it raises. *)
Definition read (p : Paragraph) (run : nat) : result Run :=
  match find (is_elem run) (children p) with
  | Some e => Ret (el_run e)
  | None => Raise ValueError
  end.

(** Assigning to an attribute through a proxy. *)
Definition modify (p : Paragraph) (run : nat) (f : Run -> Run) : Paragraph :=
  mkParagraph
    (map (fun e => if is_elem run e then mkElement (el_id e) (f (el_run e)) else e)
         (children p))
    (next_id p).

(** [paragraph.add_run(text)]: a new run at the end of the paragraph. *)
Definition add_run (p : Paragraph) (t : str) : Paragraph * nat :=
  (mkParagraph (children p ++ [mkElement (next_id p) (fresh_run t)])
               (S (next_id p)),
   next_id p).

(** [list(parent).index(element)] *)
Fixpoint index_of (id : nat) (cs : list Element) : option nat :=
  match cs with
  | [] => None
  | c :: cs' =>
      if is_elem id c then Some 0
      else match index_of id cs' with
           | Some i => Some (S i)
           | None => None
           end
  end.

Definition child_index (p : Paragraph) (run : nat) : result nat :=
  match index_of run (children p) with
  | Some i => Ret i
  | None => Raise ValueError
  end.

Definition detach (id : nat) (cs : list Element) : list Element :=
  filter (fun e => negb (is_elem id e)) cs.

Fixpoint insert_before (target : nat) (e : Element) (cs : list Element)
  : list Element :=
  match cs with
  | [] => [e]
  | c :: cs' =>
      if is_elem target c then e :: c :: cs'
      else c :: insert_before target e cs'
  end.

(** [parent.insert(index, element)] of lxml for [0 <= index]: the element
    is moved in front of the child now at [index]; past the last child it
    is moved to the end; in front of itself it stays. *)
Definition insert (p : Paragraph) (index : nat) (elem : nat)
  : result Paragraph :=
  match find (is_elem elem) (children p) with
  | None => Raise ValueError
  | Some e =>
      match nth_error (children p) index with
      | None => Ret (mkParagraph (detach elem (children p) ++ [e]) (next_id p))
      | Some c =>
          if is_elem elem c then Ret p
          else Ret (mkParagraph
                      (insert_before (el_id c) e (detach elem (children p)))
                      (next_id p))
      end
  end.

(** [p_element.remove(element)] *)
Definition remove (p : Paragraph) (elem : nat) : result Paragraph :=
  if existsb (is_elem elem) (children p)
  then Ret (mkParagraph (detach elem (children p)) (next_id p))
  else Raise ValueError.

(** A paragraph as loaded: its runs, in order, each a distinct element. *)
Definition paragraph_of_runs (rs : list Run) : Paragraph :=
  mkParagraph (map (fun ir => mkElement (fst ir) (snd ir))
                   (combine (seq 0 (length rs)) rs))
              (length rs).

(** ** The run-splitting replacer ([Word Document Processing.py]) *)

Inductive pyvalue : Type :=
| PyNone
| PyBool (b : bool).

(** [new_run.attr = run.attr] *)
Definition copy_attr {V : Type} (get : Run -> V) (set : V -> Run -> Run)
           (p : Paragraph) (run new_run : nat) : result Paragraph :=
  r <- read p run ;;
  Ret (modify p new_run (set (get r))).

(** Lines 60-69: [for seg in parts[1:]: ...] *)
Fixpoint insert_segments (p : Paragraph) (run : nat) (run_index : nat)
         (segs : list str) : result Paragraph :=
  match segs with
  | [] => Ret p
  | seg :: segs' =>
      let (p, new_run) := add_run p seg in
      p <- copy_attr bold set_bold p run new_run ;;
      p <- copy_attr italic set_italic p run new_run ;;
      p <- copy_attr underline set_underline p run new_run ;;
      p <- copy_attr font_name set_font_name p run new_run ;;
      p <- copy_attr font_size set_font_size p run new_run ;;
      p <- copy_attr style set_style p run new_run ;;
      let run_index := S run_index in
      p <- insert p run_index new_run ;;
      insert_segments p run run_index segs'
  end.

(** [parts[0]] *)
Definition first_part (parts : list str) : result str :=
  match parts with
  | [] => Raise IndexError
  | x :: _ => Ret x
  end.

(** Lines 43-70: the body of [for run in paragraph.runs]. The text of the
    run is not assigned during the scan, so it is read once. *)
Definition process_run (fuel : nat) (old_text new_text : str)
           (st : Paragraph * bool) (run : nat) : result (Paragraph * bool) :=
  let (p, replaced_in_run) := st in
  r <- read p run ;;
  if PyStr.contains (text r) old_text then
    parts <- split_parts fuel (text r) old_text new_text ;;
    first <- first_part parts ;;
    let p := modify p run (set_text first) in
    run_index <- child_index p run ;;
    p <- insert_segments p run run_index (tl parts) ;;
    Ret (p, true)
  else Ret (p, replaced_in_run).

Fixpoint for_each {S A : Type} (body : S -> A -> result S) (st : S)
         (xs : list A) : result S :=
  match xs with
  | [] => Ret st
  | x :: xs' => st' <- body st x ;; for_each body st' xs'
  end.

(** [deep_replace_text_in_paragraph(paragraph, old_text, new_text)]: the
    paragraph after the call and the value returned. The function has no
    [return] statement. *)
Definition deep_replace_text_in_paragraph (fuel : nat) (paragraph : Paragraph)
           (old_text new_text : str) : result (Paragraph * pyvalue) :=
  st <- for_each (process_run fuel old_text new_text)
                 (paragraph, false) (runs paragraph) ;;
  let (p, replaced_in_run) := st in
  if negb replaced_in_run && PyStr.contains (paragraph_text p) old_text then
    let full_text := paragraph_text p in
    let new_full_text := PyStr.replace full_text old_text new_text in
    p <- for_each remove p (runs p) ;;
    let (p, _) := add_run p new_full_text in
    Ret (p, PyNone)
  else Ret (p, PyNone).

(** Lines 96-98 of [process_word_file]: one rule on one paragraph. *)
Definition apply_rule (fuel : nat) (paragraph : Paragraph) (rule : str * str)
  : result Paragraph :=
  let (old_text, new_text) := rule in
  if PyStr.contains (paragraph_text paragraph) old_text then
    r <- deep_replace_text_in_paragraph fuel paragraph old_text new_text ;;
    Ret (fst r)
  else Ret paragraph.

(** Lines 100-102: [new_filename = file_path.name], then every rule. *)
Fixpoint rename (new_filename : str) (replacements : list (str * str)) : str :=
  match replacements with
  | [] => new_filename
  | (old_text, new_text) :: rest =>
      rename (PyStr.replace new_filename old_text new_text) rest
  end.

(** [process_file_name] of [DocFlow.py.py]. *)
Fixpoint process_file_name (file_name : str) (replacement_pairs : list (str * str))
  : str :=
  match replacement_pairs with
  | [] => file_name
  | (old_text, new_text) :: rest =>
      if PyStr.contains file_name old_text
      then process_file_name (PyStr.replace file_name old_text new_text) rest
      else process_file_name file_name rest
  end.

(** ** Documents *)

Record Cell : Type := mkCell { cell_paragraphs : list Paragraph }.
Record Row : Type := mkRow { cells : list Cell }.
Record Table : Type := mkTable { rows : list Row }.
Record Section_ : Type := mkSection { footer_paragraphs : list Paragraph }.

Record Document : Type := mkDocument {
  paragraphs : list Paragraph;      (* doc.paragraphs: the body *)
  tables : list Table;              (* doc.tables *)
  sections : list Section_          (* doc.sections, each with its footer *)
}.

(** ** The font normaliser ([Change_Font.py], lines 40-60) *)

(** [Pt(points)]: a length in EMU. *)
Definition Pt (points : Z) : Z := (points * 12700)%Z.

Definition Calibri : str := lit "Calibri".

(** [run.font.name = name; run.font.size = size] *)
Definition set_font (name : str) (size : Z) (p : Paragraph) (run : nat)
  : Paragraph :=
  let p := modify p run (set_font_name (Some name)) in
  modify p run (set_font_size (Some size)).

(** [for run in paragraph.runs: ...] *)
Definition font_paragraph (name : str) (size : Z) (p : Paragraph) : Paragraph :=
  fold_left (set_font name size) (runs p) p.

Definition font_cell (c : Cell) : Cell :=
  mkCell (map (font_paragraph Calibri (Pt 12)) (cell_paragraphs c)).
Definition font_row (r : Row) : Row := mkRow (map font_cell (cells r)).
Definition font_table (t : Table) : Table := mkTable (map font_row (rows t)).
Definition font_footer (s : Section_) : Section_ :=
  mkSection (map (font_paragraph Calibri (Pt 8)) (footer_paragraphs s)).

(** The three loops of [change_font_in_docx] on the loaded document: body
    paragraphs, paragraphs of table cells, footer paragraphs. *)
Definition change_font (doc : Document) : Document :=
  mkDocument (map (font_paragraph Calibri (Pt 12)) (paragraphs doc))
             (map font_table (tables doc))
             (map font_footer (sections doc)).

(** ** The batch driver ([Word Document Processing.py], lines 80-159) *)

Record Path : Type := mkPath { folder : str; name : str }.

Inductive log_record : Type :=
| InfoCreated (new_file_path : Path)                    (* line 105 *)
| ErrorProcessing (file_path : Path) (e : exn)          (* line 107 *)
| InfoNoFiles                                           (* line 139 *)
| InfoFound (total_files : nat)                         (* line 141 *)
| InfoProcessed (completed total_files : nat) (file_name : str)  (* line 156 *)
| ErrorFuture (file_name : str) (e : exn)               (* line 158 *)
| InfoComplete (files_processed total_files : nat).     (* line 159 *)

(** What the batch acts on: the files written and the log. *)
Record World : Type := mkWorld {
  saved : list (Path * Document);
  log : list log_record
}.

Definition logging (w : World) (r : log_record) : World :=
  mkWorld (saved w) (log w ++ [r]).

(** [for x in xs: ys.append(f(x))] for an [f] that may raise. *)
Fixpoint for_all {A B : Type} (f : A -> result B) (xs : list A)
  : result (list B) :=
  match xs with
  | [] => Ret []
  | x :: xs' => y <- f x ;; ys <- for_all f xs' ;; Ret (y :: ys)
  end.

(** A call into the document library or the operating system returns or
    raises. *)
Definition call {A : Type} (x : A + exn) : result A :=
  match x with
  | inl a => Ret a
  | inr e => Raise e
  end.

Definition check (x : option exn) : result unit :=
  match x with
  | None => Ret tt
  | Some e => Raise e
  end.

Section Batch.

(** The document library and the file system. *)
Variable load_document : Path -> Document + exn.   (* [Document(path)] *)
Variable save_error : Path -> option exn.          (* [doc.save(path)] *)
Variable mkdir_error : str -> option exn.          (* [folder.mkdir(...)] *)
(** The order in which the futures of the submitted files complete. *)
Variable as_completed : list Path -> list Path.

Definition save (w : World) (doc : Document) (new_file_path : Path)
  : result World :=
  _ <- check (save_error new_file_path) ;;
  Ret (mkWorld (saved w ++ [(new_file_path, doc)]) (log w)).

(** Lines 94-105: the body of the [try]. *)
Definition process_word_file_try (fuel : nat) (file_path : Path)
           (replacements : list (str * str)) (destination_folder : str)
           (w : World) : result World :=
  doc <- call (load_document file_path) ;;
  ps <- for_all (fun paragraph => for_each (apply_rule fuel) paragraph replacements)
                (paragraphs doc) ;;
  let doc := mkDocument ps (tables doc) (sections doc) in
  let new_filename := rename (name file_path) replacements in
  let new_file_path := mkPath destination_folder new_filename in
  w <- save w doc new_file_path ;;
  Ret (logging w (InfoCreated new_file_path)).

(** [process_word_file]: [try: ... except Exception as e: logging.error(...)] *)
Definition process_word_file (fuel : nat) (file_path : Path)
           (replacements : list (str * str)) (destination_folder : str)
           (w : World) : result World :=
  match process_word_file_try fuel file_path replacements destination_folder w with
  | Ret w' => Ret w'
  | Raise e => Ret (logging w (ErrorProcessing file_path e))
  | Diverge => Diverge
  end.

(** Lines 150-158: the body of [for future in as_completed(...)]. The
    state is the world, [completed] and [files_processed]; the future of a
    file holds what [process_word_file] did with it. *)
Definition on_future (fuel : nat) (replacements : list (str * str))
           (destination_folder : str) (total_files : nat)
           (st : World * nat * nat) (file : Path) : result (World * nat * nat) :=
  let '(w, completed, files_processed) := st in
  let completed := S completed in
  match process_word_file fuel file replacements destination_folder w with
  | Ret w' =>
      Ret (logging w' (InfoProcessed completed total_files (name file)),
           completed, S files_processed)
  | Raise e =>
      Ret (logging w (ErrorFuture (name file) e), completed, files_processed)
  | Diverge => Diverge
  end.

(** [process_directory], [files] being the documents found in the origin
    folder. *)
Definition process_directory (fuel : nat) (files : list Path)
           (destination_folder : str) (replacements : list (str * str))
           (w : World) : result World :=
  let total_files := length files in
  if total_files =? 0 then Ret (logging w InfoNoFiles)
  else
    let w := logging w (InfoFound total_files) in
    _ <- check (mkdir_error destination_folder) ;;
    st <- for_each (on_future fuel replacements destination_folder total_files)
                   (w, 0, 0) (as_completed files) ;;
    let '(w, _, files_processed) := st in
    Ret (logging w (InfoComplete files_processed total_files)).

End Batch.

(** ** Notions used to state the properties *)

(** [interleave new [l0; l1; ...; lk] = [l0; new; l1; new; ...; lk]] *)
Fixpoint interleave (new : str) (lits : list str) : list str :=
  match lits with
  | [] => []
  | [l] => [l]
  | l :: lits' => l :: new :: interleave new lits'
  end.

(** [splits old s lits]: [s] is [l0 ++ old ++ l1 ++ old ++ ... ++ lk] for
    [lits = [l0; ...; lk]], each displayed [old] being the leftmost place
    where [old] starts in what follows the previous one, and [old] starting
    nowhere in [lk]. The displayed occurrences are the matches; they are
    pairwise disjoint. *)
Inductive splits (old : str) : str -> list str -> Prop :=
| splits_last s :
    PyStr.contains s old = false ->
    splits old s [s]
| splits_match l s lits :
    (forall j, j < length l ->
               PyStr.startswith (skipn j (l ++ old ++ s)) old = false) ->
    splits old s lits ->
    splits old (l ++ old ++ s) (l :: lits).

(** The number of matches in a split. *)
Definition matches (lits : list str) : nat := length lits - 1.

(** Distinct elements have distinct identities, all drawn from the supply. *)
Definition wf (p : Paragraph) : Prop :=
  NoDup (runs p) /\ Forall (fun id => id < next_id p) (runs p).

(** No element of [cs] has the identity [id]. *)
Definition absent (id : nat) (cs : list Element) : Prop :=
  Forall (fun x => el_id x <> id) cs.

(** The elements the segments [segs] after the first become: fresh
    identities from [nxt] on, the text of the segment, the style of [r]. *)
Fixpoint new_elems (nxt : nat) (r : Run) (segs : list str) : list Element :=
  match segs with
  | [] => []
  | seg :: segs' => mkElement nxt (set_text seg r) :: new_elems (S nxt) r segs'
  end.

(** The parts the scan computes for a text, with the fuel that is always
    enough when [old] is not empty. *)
Definition parts_of (t old new : str) : list str :=
  match split_parts (S (length t)) t old new with
  | Ret parts => parts
  | _ => []
  end.

(** What one run becomes. *)
Definition pieces (old new : str) (r : Run) : list Run :=
  if PyStr.contains (text r) old
  then map (fun seg => set_text seg r) (parts_of (text r) old new)
  else [r].

(** The same on elements: the run keeps its identity and takes the first
    part, the other parts are new elements. *)
Definition split_elem (old new : str) (nxt : nat) (e : Element) : list Element :=
  if PyStr.contains (text (el_run e)) old
  then match parts_of (text (el_run e)) old new with
       | [] => [e]
       | first :: more =>
           mkElement (el_id e) (set_text first (el_run e))
           :: new_elems nxt (el_run e) more
       end
  else [e].

(** What the children [todo] become, one after the other, the supply of
    identities being threaded through. *)
Fixpoint split_all (old new : str) (nxt : nat) (todo : list Element)
  : list Element :=
  match todo with
  | [] => []
  | e :: todo' =>
      let g := split_elem old new nxt e in
      g ++ split_all old new (nxt + (length g - 1)) todo'
  end.

Fixpoint split_next (old new : str) (nxt : nat) (todo : list Element) : nat :=
  match todo with
  | [] => nxt
  | e :: todo' =>
      split_next old new (nxt + (length (split_elem old new nxt e) - 1)) todo'
  end.

(** Fuel that is enough for the scan of every run of a paragraph. *)
Definition enough_fuel (fuel : nat) (p : Paragraph) : Prop :=
  Forall (fun r => length (text r) < fuel) (run_list p).

(** The substitution the specification describes for file names and
    contents: each rule in turn, in list order. *)
Definition substitute_all (rules : list (str * str)) (s : str) : str :=
  fold_left (fun acc rule => PyStr.replace acc (fst rule) (snd rule)) rules s.

(** No place where [old] starts in [s ++ t] begins in [s] and ends in [t]. *)
Definition no_straddle2 (old s t : str) : bool :=
  forallb (fun i => implb (PyStr.startswith (skipn i (s ++ t)) old)
                          (i + length old <=? length s))
          (seq 0 (length s)).

(** No place where [old] starts in the concatenation of [texts] crosses
    the end of one of them. *)
Fixpoint no_straddle (old : str) (texts : list str) : bool :=
  match texts with
  | [] => true
  | t :: ts => no_straddle2 old t (concat ts) && no_straddle old ts
  end.

(** A computation that takes fuel settles when, from some amount of fuel
    on, it gives one and the same outcome, and that is not [Diverge]. *)
Definition settles {A : Type} (c : nat -> result A) (r : result A) : Prop :=
  r <> Diverge /\ exists f0, forall f, f0 <= f -> c f = r.

(** What the log [l] and the saved files [sv] of a batch over
    [total_files] files must hold about [file]: that its future completed,
    and either that the new file was created, the document having loaded
    and the save having succeeded, or an error record for the file; the
    error is the one raised by the loader when it raised, and the one
    raised by the save when the document loaded well-formed. *)
Definition file_reported (load_document : Path -> Document + exn)
           (save_error : Path -> option exn) (destination_folder : str)
           (rules : list (str * str)) (total_files : nat) (file : Path)
           (l : list log_record) (sv : list (Path * Document)) : Prop :=
  let new_file_path := mkPath destination_folder (rename (name file) rules) in
  (exists k, In (InfoProcessed k total_files (name file)) l) /\
  match load_document file with
  | inr e => In (ErrorProcessing file e) l
  | inl doc =>
      (save_error new_file_path = None /\
       In (InfoCreated new_file_path) l /\
       exists doc', In (new_file_path, doc') sv)
      \/
      (exists e, In (ErrorProcessing file e) l /\
                 (Forall wf (paragraphs doc) -> save_error new_file_path = Some e))
  end.

(** What [process_word_file] leaves behind for one file: [w] before,
    [w'] after. *)
Definition handled (load_document : Path -> Document + exn)
           (save_error : Path -> option exn) (destination_folder : str)
           (rules : list (str * str)) (file : Path) (w w' : World) : Prop :=
  let new_file_path := mkPath destination_folder (rename (name file) rules) in
  match load_document file with
  | inr e => w' = logging w (ErrorProcessing file e)
  | inl doc =>
      (exists doc',
          save_error new_file_path = None /\
          w' = logging (mkWorld (saved w ++ [(new_file_path, doc')]) (log w))
                       (InfoCreated new_file_path))
      \/
      (exists e,
          w' = logging w (ErrorProcessing file e) /\
          (Forall wf (paragraphs doc) -> save_error new_file_path = Some e))
  end.

(** ** Sample inputs *)

(** A run with the given text and no run properties but bold. *)
Definition bold_run (t : string) : Run :=
  mkRun (lit t) (Some true) None None None None None.

Definition plain_run (t : string) : Run := fresh_run (lit t).

(** One run, ["aaaa"]. *)
Definition para_aaaa : Paragraph := paragraph_of_runs [bold_run "aaaa"].

(** ["foo"], ["bar"]: ["ooba"] straddles the two runs. *)
Definition para_foo_bar : Paragraph :=
  paragraph_of_runs [bold_run "foo"; plain_run "bar"].

(** ["foo"], ["bar"], ["ooba"]: ["ooba"] is in the third run and straddles
    the first two. *)
Definition para_foo_bar_ooba : Paragraph :=
  paragraph_of_runs [bold_run "foo"; plain_run "bar"; plain_run "ooba"].

(** ["abc"], bold. *)
Definition para_abc : Paragraph := paragraph_of_runs [bold_run "abc"].

(** ["Hello world"], ["!"]. *)
Definition para_hello : Paragraph :=
  paragraph_of_runs [bold_run "Hello world"; plain_run "!"].

(** A run given the font [name] at [size]; nothing else of it changes. *)
Definition with_font (name : str) (size : Z) (r : Run) : Run :=
  set_font_size (Some size) (set_font_name (Some name) r).

(** The same on an element, which keeps its identity. *)
Definition font_elem (name : str) (size : Z) (e : Element) : Element :=
  mkElement (el_id e) (with_font name size (el_run e)).

Definition has_font (name : str) (size : Z) (r : Run) : Prop :=
  font_name r = Some name /\ font_size r = Some size.

(** The runs of a document, region by region. *)
Definition body_runs (doc : Document) : list (list Run) :=
  map run_list (paragraphs doc).

Definition cell_runs (c : Cell) : list (list Run) :=
  map run_list (cell_paragraphs c).

Definition table_runs (doc : Document) : list (list (list (list (list Run)))) :=
  map (fun t => map (fun row => map cell_runs (cells row)) (rows t)) (tables doc).

Definition footer_runs (doc : Document) : list (list (list Run)) :=
  map (fun s => map run_list (footer_paragraphs s)) (sections doc).

(** Sample document: one body paragraph with a 12pt Times run, one table
    cell, one footer paragraph with a 10pt Times run. *)
Definition times_run (t : string) (pt : Z) : Run :=
  mkRun (lit t) (Some true) None None (Some (lit "Times")) (Some (Pt pt)) None.

Definition sample_document : Document :=
  mkDocument [paragraph_of_runs [times_run "Body" 12]]
             [mkTable [mkRow [mkCell [paragraph_of_runs [times_run "Cell" 11]]]]]
             [mkSection [paragraph_of_runs [times_run "Footer" 10]]].

(** A computation that takes fuel terminates when it settles on some
    outcome. *)
Definition terminates {A : Type} (c : nat -> result A) : Prop :=
  exists r, settles c r.

(** A folder with three documents, the second of which cannot be loaded. *)
Definition sample_files : list Path :=
  [mkPath (lit "in") (lit "Draft - Jan.docx");
   mkPath (lit "in") (lit "bad.docx");
   mkPath (lit "in") (lit "Draft - Feb.docx")].

Definition sample_load (file : Path) : Document + exn :=
  if String.eqb (string_of_list_ascii (name file)) "bad.docx"
  then inr (Exception (lit "Package not found"))
  else inl sample_document.

Definition no_error {A : Type} (_ : A) : option exn := None.

Definition sample_rules : list (str * str) := [(lit "Draft", lit "Final")].

Definition empty_world : World := mkWorld [] [].

(** * More of the code *)

(** ** [str.strip()] *)

(** The white space [str.strip()] removes, among the code points below
    256: tab to carriage return, the four separators 28-31, space, NEL and
    the no-break space. *)
Definition is_space (c : ascii) : bool :=
  let n := nat_of_ascii c in
  ((9 <=? n) && (n <=? 13)) || ((28 <=? n) && (n <=? 32))
  || (n =? 133) || (n =? 160).

Fixpoint lstrip (s : str) : str :=
  match s with
  | [] => []
  | c :: s' => if is_space c then lstrip s' else s
  end.

Definition rstrip (s : str) : str := rev (lstrip (rev s)).

Definition strip (s : str) : str := rstrip (lstrip s).

(** ** Reading the rules ([Word Document Processing.py], lines 109-124) *)

Definition EOFError : exn := Exception (lit "EOFError").

(** [input(prompt)]: the next line of standard input, or [EOFError]. *)
Definition input (stdin : list str) : result (str * list str) :=
  match stdin with
  | [] => Raise EOFError
  | line :: stdin' => Ret (line, stdin')
  end.

(** [get_replacements_from_user()], the lines still unread being returned
    along with the rules. Every turn of the loop reads a line, so the loop
    is a recursion on the lines left. *)
Fixpoint get_replacements_loop (stdin : list str)
         (replacements : list (str * str))
  : result (list (str * str) * list str) :=
  match stdin with
  | [] => Raise EOFError
  | line :: stdin1 =>
      let old_text := strip line in
      match old_text with
      | [] => Ret (replacements, stdin1)
      | _ :: _ =>
          match stdin1 with
          | [] => Raise EOFError
          | line2 :: stdin2 =>
              let new_text := strip line2 in
              get_replacements_loop stdin2
                                    (replacements ++ [(old_text, new_text)])
          end
      end
  end.

Definition get_replacements_from_user (stdin : list str)
  : result (list (str * str) * list str) :=
  get_replacements_loop stdin [].

(** What the user types for the rules [pairs], one line a field. *)
Definition typed (pairs : list (str * str)) : list str :=
  flat_map (fun pair => [fst pair; snd pair]) pairs.

Definition stripped (s : str) : Prop := strip s = s.

(** What the loop may end in, having started with [acc] on [stdin]. *)
Definition loop_outcome (stdin : list str) (acc : list (str * str))
           (r : result (list (str * str) * list str)) : Prop :=
  match r with
  | Ret (rules, rest) =>
      exists more,
        rules = acc ++ more /\
        Forall (fun rule => fst rule <> [] /\ stripped (fst rule)
                            /\ stripped (snd rule)) more /\
        length rest + 2 * length more + 1 <= length stdin /\
        exists n, rest = skipn n stdin
  | Raise e => e = EOFError
  | Diverge => False
  end.

(** ** The replacer of the GUI ([DocFlow.py.py], lines 114-121) *)

(** Assigning to [paragraph.text] (python-docx): the content of the
    paragraph is cleared and one new run holding the text is added; the
    run-level formatting is gone. *)
Definition set_paragraph_text (p : Paragraph) (t : str) : Paragraph :=
  fst (add_run (mkParagraph [] (next_id p)) t).

(** Lines 119-120: one rule on one paragraph. *)
Definition flat_rule (paragraph : Paragraph) (rule : str * str) : Paragraph :=
  let (old_text, new_text) := rule in
  if PyStr.contains (paragraph_text paragraph) old_text
  then set_paragraph_text
         paragraph
         (PyStr.replace (paragraph_text paragraph) old_text new_text)
  else paragraph.

(** Line 118: [for old_text, new_text in replacement_pairs]. *)
Definition flat_rules (paragraph : Paragraph)
           (replacement_pairs : list (str * str)) : Paragraph :=
  fold_left flat_rule replacement_pairs paragraph.

(** Lines 117-120 on the loaded document. *)
Definition flat_document (doc : Document) (replacement_pairs : list (str * str))
  : Document :=
  mkDocument (map (fun paragraph => flat_rules paragraph replacement_pairs)
                  (paragraphs doc))
             (tables doc) (sections doc).

(** ** The font change of the GUI ([DocFlow.py.py], lines 210-212) *)

(** [for run in paragraph.runs: run.font.size = size] *)
Definition size_paragraph (size : Z) (p : Paragraph) : Paragraph :=
  fold_left (fun p run => modify p run (set_font_size (Some size))) (runs p) p.

(** Only the body paragraphs are visited. *)
Definition font_size_pass (doc : Document) : Document :=
  mkDocument (map (size_paragraph (Pt 12)) (paragraphs doc))
             (tables doc) (sections doc).

(** ** The tasks of the GUI ([DocFlow.py.py], lines 97-154 and 196-220) *)

Inductive gui_message : Type :=
| InvalidFolder (description path : str)                  (* line 109 *)
| NoWordDocuments                                         (* lines 138, 204 *)
| ProcessedFile (file_name new_file_name : str)           (* line 150 *)
| ErrorProcessingFile (file_name : str) (e : exn)         (* line 152 *)
| WordProcessingCompleted                                 (* line 154 *)
| UpdatedFont (file_name : str)                           (* line 216 *)
| ErrorUpdatingFont (file_name : str) (e : exn)           (* line 218 *)
| FontChangeCompleted                                     (* line 220 *)
| AddedPair (old_text new_text : str)                     (* line 250 *)
| PairExists                                              (* line 252 *)
| BothFieldsRequired                                      (* line 254 *)
| RemovedPair (old_text new_text : str)                   (* line 262 *)
| ClearedPairs                                            (* line 268 *)
| AddPairsFirst                                           (* line 272 *)
| NoWordOrPdfFiles                                        (* line 168 *)
| Combined (word_name pdf_name output_name : str)         (* line 189 *)
| ErrorCombining (word_name : str) (e : exn)              (* line 191 *)
| PdfCombineCompleted.                                    (* line 193 *)

(** The files written, the queue of messages and the queue of progress
    values. *)
Record Gui : Type := mkGui {
  gui_saved : list (Path * Document);
  log_queue : list gui_message;
  progress_queue : list (str * Z)
}.

(** [log(message)] *)
Definition log_message (w : Gui) (m : gui_message) : Gui :=
  mkGui (gui_saved w) (log_queue w ++ [m]) (progress_queue w).

(** [update_progress(progress_key, value)] *)
Definition update_progress (w : Gui) (progress_key : str) (value : Z) : Gui :=
  mkGui (gui_saved w) (log_queue w) (progress_queue w ++ [(progress_key, value)]).

Definition gui_save (w : Gui) (output_path : Path) (doc : Document) : Gui :=
  mkGui (gui_saved w ++ [(output_path, doc)]) (log_queue w) (progress_queue w).

(** [enumerate(xs)] *)
Definition enumerate {A : Type} (xs : list A) : list (nat * A) :=
  combine (seq 0 (length xs)) xs.

Definition WP_PROGRESS : str := lit "-WP_PROGRESS-".
Definition CF_PROGRESS : str := lit "-CF_PROGRESS-".

Section GuiTasks.

Variable load_document : Path -> Document + exn.   (* [Document(path)] *)
Variable save_error : Path -> option exn.          (* [doc.save(path)] *)
Variable path_exists : str -> bool.                (* [Path(path).exists()] *)
Variable glob_docx : str -> list Path.             (* [Path(folder).glob("*.docx")] *)
(** [int((i + 1) / total_files * 100)], computed in floating point. *)
Variable percent : nat -> nat -> Z.

(** [validate_folder(path, description)] *)
Definition validate_folder (w : Gui) (path description : str) : Gui * bool :=
  if negb (path_exists path)
  then (log_message w (InvalidFolder description path), false)
  else (w, true).

(** [process_word_document(input_path, output_path, replacement_pairs)] *)
Definition process_word_document (input_path output_path : Path)
           (replacement_pairs : list (str * str)) (w : Gui) : result Gui :=
  doc <- call (load_document input_path) ;;
  let doc := flat_document doc replacement_pairs in
  _ <- check (save_error output_path) ;;
  Ret (gui_save w output_path doc).

(** Lines 142-152: the body of [for i, file in enumerate(files)]. *)
Definition word_file_step (dest_folder : str)
           (replacement_pairs : list (str * str)) (total_files : nat)
           (w : Gui) (ifile : nat * Path) : result Gui :=
  let (i, file) := ifile in
  let attempt :=
    let new_file_name := process_file_name (name file) replacement_pairs in
    let output_path := mkPath dest_folder new_file_name in
    w1 <- process_word_document file output_path replacement_pairs w ;;
    let w2 := update_progress w1 WP_PROGRESS (percent (i + 1) total_files) in
    Ret (log_message w2 (ProcessedFile (name file) new_file_name)) in
  match attempt with
  | Ret w' => Ret w'
  | Raise e => Ret (log_message w (ErrorProcessingFile (name file) e))
  | Diverge => Diverge
  end.

(** [run_word_processing(origin_folder, dest_folder, replacement_pairs)] *)
Definition run_word_processing (origin_folder dest_folder : str)
           (replacement_pairs : list (str * str)) (w : Gui) : result Gui :=
  let (w, ok) := validate_folder w origin_folder (lit "origin") in
  if negb ok then Ret w else
  let (w, ok) := validate_folder w dest_folder (lit "destination") in
  if negb ok then Ret w else
  let files := glob_docx origin_folder in
  let total_files := length files in
  if total_files =? 0 then Ret (log_message w NoWordDocuments) else
  w <- for_each (word_file_step dest_folder replacement_pairs total_files)
                w (enumerate files) ;;
  Ret (log_message w WordProcessingCompleted).

(** Lines 208-218: the body of the loop of [run_font_change]. *)
Definition font_file_step (dest_folder : str) (total_files : nat)
           (w : Gui) (ifile : nat * Path) : result Gui :=
  let (i, file) := ifile in
  let attempt :=
    doc <- call (load_document file) ;;
    let doc := font_size_pass doc in
    let output_path := mkPath dest_folder (name file) in
    _ <- check (save_error output_path) ;;
    let w1 := gui_save w output_path doc in
    let w2 := update_progress w1 CF_PROGRESS (percent (i + 1) total_files) in
    Ret (log_message w2 (UpdatedFont (name file))) in
  match attempt with
  | Ret w' => Ret w'
  | Raise e => Ret (log_message w (ErrorUpdatingFont (name file) e))
  | Diverge => Diverge
  end.

(** [run_font_change(origin_folder, dest_folder)] *)
Definition run_font_change (origin_folder dest_folder : str) (w : Gui)
  : result Gui :=
  let (w, ok) := validate_folder w origin_folder (lit "origin") in
  if negb ok then Ret w else
  let (w, ok) := validate_folder w dest_folder (lit "destination") in
  if negb ok then Ret w else
  let files := glob_docx origin_folder in
  let total_files := length files in
  if total_files =? 0 then Ret (log_message w NoWordDocuments) else
  w <- for_each (font_file_step dest_folder total_files) w (enumerate files) ;;
  Ret (log_message w FontChangeCompleted).

(** What becomes of one file in [run_word_processing]: the document
    written, or the error. *)
Definition word_result (dest_folder : str) (replacement_pairs : list (str * str))
           (file : Path) : Document + exn :=
  match load_document file with
  | inr e => inr e
  | inl doc =>
      match save_error (mkPath dest_folder
                               (process_file_name (name file) replacement_pairs)) with
      | Some e => inr e
      | None => inl (flat_document doc replacement_pairs)
      end
  end.

End GuiTasks.

(** Sample surroundings of the GUI tasks: every folder exists, the origin
    folder holds [sample_files], the file ["Draft - Feb.docx"] cannot be
    written under its new name, and the progress is the rounded-down
    percentage. *)
Definition every_folder (_ : str) : bool := true.
Definition sample_glob (_ : str) : list Path := sample_files.
Definition sample_percent (done total : nat) : Z := Z.of_nat (done * 100 / total).
Definition sample_save_error (output_path : Path) : option exn :=
  if String.eqb (string_of_list_ascii (name output_path)) "Final - Feb.docx"
  then Some (Exception (lit "Permission denied"))
  else None.
Definition empty_gui : Gui := mkGui [] [] [].

(** ** The font batch ([Change_Font.py], lines 27-89) *)

Inductive font_record : Type :=
| FontSaved (new_file_path : Path)               (* line 66 *)
| FontError (file_path : Path) (e : exn)         (* line 69 *)
| FontNoFiles                                    (* line 81 *)
| FontFound (count : nat)                        (* line 84 *)
| FontProcessing (file_name : str)               (* line 86 *)
| FontAllProcessed.                              (* line 89 *)

Record FontWorld : Type := mkFontWorld {
  font_saved : list (Path * Document);
  font_log : list font_record
}.

Definition font_logging (w : FontWorld) (r : font_record) : FontWorld :=
  mkFontWorld (font_saved w) (font_log w ++ [r]).

Section FontBatch.

Variable load_document : Path -> Document + exn.   (* [Document(path)] *)
Variable save_error : Path -> option exn.          (* [doc.save(path)] *)
Variable mkdir_error : str -> option exn.          (* [dest_folder.mkdir(...)] *)

(** [change_font_in_docx(file_path, dest_folder)] *)
Definition change_font_in_docx (file_path : Path) (dest_folder : str)
           (w : FontWorld) : result FontWorld :=
  let attempt :=
    doc <- call (load_document file_path) ;;
    let doc := change_font doc in
    _ <- check (mkdir_error dest_folder) ;;
    let new_file_path := mkPath dest_folder (name file_path) in
    _ <- check (save_error new_file_path) ;;
    Ret (font_logging (mkFontWorld (font_saved w ++ [(new_file_path, doc)])
                                   (font_log w))
                      (FontSaved new_file_path)) in
  match attempt with
  | Ret w' => Ret w'
  | Raise e => Ret (font_logging w (FontError file_path e))
  | Diverge => Diverge
  end.

(** [process_folder(origin_folder, dest_folder)], [docx_files] being the
    documents of the origin folder. *)
Definition process_folder (docx_files : list Path) (dest_folder : str)
           (w : FontWorld) : result FontWorld :=
  match docx_files with
  | [] => Ret (font_logging w FontNoFiles)
  | _ :: _ =>
      let w := font_logging w (FontFound (length docx_files)) in
      w <- for_each (fun w file =>
                       let w := font_logging w (FontProcessing (name file)) in
                       change_font_in_docx file dest_folder w)
                    w docx_files ;;
      Ret (font_logging w FontAllProcessed)
  end.

(** What becomes of one file in the font batch. *)
Definition font_result (dest_folder : str) (file : Path) : Document + exn :=
  match load_document file with
  | inr e => inr e
  | inl doc =>
      match mkdir_error dest_folder with
      | Some e => inr e
      | None =>
          match save_error (mkPath dest_folder (name file)) with
          | Some e => inr e
          | None => inl (change_font doc)
          end
      end
  end.

End FontBatch.

(** What becomes of one file in [run_font_change]. *)
Definition gui_font_result (load_document : Path -> Document + exn)
           (save_error : Path -> option exn) (dest_folder : str) (file : Path)
  : Document + exn :=
  match load_document file with
  | inr e => inr e
  | inl doc =>
      match save_error (mkPath dest_folder (name file)) with
      | Some e => inr e
      | None => inl (font_size_pass doc)
      end
  end.

(** ** The table of rules of the GUI ([DocFlow.py.py], lines 240-278) *)

Definition str_eqb (a b : str) : bool :=
  if list_eq_dec ascii_dec a b then true else false.

(** Equality of two rows of the table. *)
Definition pair_eqb (a b : str * str) : bool :=
  str_eqb (fst a) (fst b) && str_eqb (snd a) (snd b).

(** [if s] on a string. *)
Definition truthy (s : str) : bool :=
  match s with
  | [] => false
  | _ :: _ => true
  end.

Fixpoint insert_desc (x : nat) (l : list nat) : list nat :=
  match l with
  | [] => [x]
  | y :: l' => if y <? x then x :: l else y :: insert_desc x l'
  end.

(** [sorted(rows, reverse=True)] *)
Definition sorted_reverse (rows : list nat) : list nat :=
  fold_right insert_desc [] rows.

Inductive gui_event : Type :=
| AddClicked (old_field new_field : str)      (* event "-ADD-" *)
| RemoveClicked (selected_rows : list nat)    (* event "-REMOVE-" *)
| ClearClicked.                               (* event "-CLEAR-" *)

(** Lines 260-262: [deleted_pair = replacement_pairs[row]], [del
    replacement_pairs[row]], and the message. *)
Definition delete_row (st : list (str * str) * list gui_message) (row : nat)
  : result (list (str * str) * list gui_message) :=
  let (replacement_pairs, messages) := st in
  match nth_error replacement_pairs row with
  | None => Raise IndexError
  | Some deleted_pair =>
      Ret (firstn row replacement_pairs ++ skipn (S row) replacement_pairs,
           messages ++ [RemovedPair (fst deleted_pair) (snd deleted_pair)])
  end.

(** One event of the rule table: the table afterwards and the messages
    logged. *)
Definition handle_event (replacement_pairs : list (str * str)) (ev : gui_event)
  : result (list (str * str) * list gui_message) :=
  match ev with
  | AddClicked old_field new_field =>
      let old_text := strip old_field in
      let new_text := strip new_field in
      if truthy old_text && truthy new_text then
        let new_pair := (old_text, new_text) in
        if negb (existsb (pair_eqb new_pair) replacement_pairs)
        then Ret (replacement_pairs ++ [new_pair], [AddedPair old_text new_text])
        else Ret (replacement_pairs, [PairExists])
      else Ret (replacement_pairs, [BothFieldsRequired])
  | RemoveClicked selected_rows =>
      match selected_rows with
      | [] => Ret (replacement_pairs, [])
      | _ :: _ =>
          for_each delete_row (replacement_pairs, []) (sorted_reverse selected_rows)
      end
  | ClearClicked => Ret ([], [ClearedPairs])
  end.

(** The table after a series of events, starting empty. *)
Definition table_after (events : list gui_event) : result (list (str * str)) :=
  for_each (fun replacement_pairs ev =>
              r <- handle_event replacement_pairs ev ;; Ret (fst r))
           [] events.

(** The rows of a table of rules are pairwise different, and both texts
    of each are non-empty and stripped. *)
Definition table_ok (replacement_pairs : list (str * str)) : Prop :=
  NoDup replacement_pairs /\
  Forall (fun pair => fst pair <> [] /\ snd pair <> []
                      /\ stripped (fst pair) /\ stripped (snd pair))
         replacement_pairs.

(** The rows of [l] whose position, counted from [i], is not in [rows]. *)
Fixpoint drop_rows {A : Type} (rows : list nat) (i : nat) (l : list A) : list A :=
  match l with
  | [] => []
  | x :: l' =>
      if existsb (Nat.eqb i) rows
      then drop_rows rows (S i) l'
      else x :: drop_rows rows (S i) l'
  end.

(** Every element is at least as large as those after it. *)
Fixpoint descending (l : list nat) : Prop :=
  match l with
  | [] => True
  | x :: l' => Forall (fun y => y <= x) l' /\ descending l'
  end.

(** ** The command-line program ([Word Document Processing.py], lines 161-173) *)

Inductive main_outcome : Type :=
| OriginMissing (origin_folder : str)     (* line 167 *)
| NoReplacements                          (* line 171 *)
| BatchRun (w : World).                   (* line 173 *)

Section Main.

Variable load_document : Path -> Document + exn.
Variable save_error : Path -> option exn.
Variable mkdir_error : str -> option exn.
Variable as_completed : list Path -> list Path.
Variable is_dir : str -> bool.                     (* [folder.is_dir()] *)
(** [[f for f in folder.glob("*.docx") if f.is_file()]] *)
Variable glob_docx : str -> list Path.

Definition main (fuel : nat) (stdin : list str) (w : World)
  : result main_outcome :=
  r <- input stdin ;;
  let (line, stdin) := r in
  let origin_input := strip line in
  r <- input stdin ;;
  let (line, stdin) := r in
  let destination_input := strip line in
  if negb (is_dir origin_input) then Ret (OriginMissing origin_input)
  else
    r <- get_replacements_from_user stdin ;;
    let (replacements, _) := r in
    match replacements with
    | [] => Ret NoReplacements
    | _ :: _ =>
        w' <- process_directory load_document save_error mkdir_error as_completed
                                fuel (glob_docx origin_input) destination_input
                                replacements w ;;
        Ret (BatchRun w')
    end.

End Main.

(** ** The PDF task of the GUI ([DocFlow.py.py], lines 158-193) *)

(** What the task acts on: the merged files written, each with the two
    files it was merged from, the temporary files present, the messages
    and the progress values. *)
Record PdfGui : Type := mkPdfGui {
  merged : list (Path * (Path * Path));
  temp_files : list Path;
  pdf_log : list gui_message;
  pdf_progress : list (str * Z)
}.

(** Code that changes the state and returns or raises; what was done
    before an exception stays done. *)
Definition io (A : Type) : Type := PdfGui -> PdfGui * (A + exn).

Definition io_ret {A : Type} (a : A) : io A := fun w => (w, inl a).

Definition io_bind {A B : Type} (m : io A) (k : A -> io B) : io B :=
  fun w =>
    match m w with
    | (w', inl a) => k a w'
    | (w', inr e) => (w', inr e)
    end.

Notation "x <~ m ;; k" := (io_bind m (fun x => k))
  (at level 61, m at next level, right associativity).

(** A call that may raise. *)
Definition io_check (x : option exn) : io unit :=
  fun w => match x with
           | None => (w, inl tt)
           | Some e => (w, inr e)
           end.

Definition io_do (f : PdfGui -> PdfGui) : io unit := fun w => (f w, inl tt).

(** [try: body except Exception as e: handler(e)] *)
Definition io_try (body : io unit) (handler : exn -> PdfGui -> PdfGui)
  : PdfGui -> PdfGui :=
  fun w =>
    match body w with
    | (w', inl _) => w'
    | (w', inr e) => handler e w'
    end.

Definition pdf_log_message (m : gui_message) (w : PdfGui) : PdfGui :=
  mkPdfGui (merged w) (temp_files w) (pdf_log w ++ [m]) (pdf_progress w).

Definition pdf_update_progress (key : str) (value : Z) (w : PdfGui) : PdfGui :=
  mkPdfGui (merged w) (temp_files w) (pdf_log w) (pdf_progress w ++ [(key, value)]).

Definition path_eqb (a b : Path) : bool :=
  str_eqb (folder a) (folder b) && str_eqb (name a) (name b).

Definition add_temp (temp_pdf : Path) (w : PdfGui) : PdfGui :=
  mkPdfGui (merged w) (temp_files w ++ [temp_pdf]) (pdf_log w) (pdf_progress w).

Definition remove_temp (temp_pdf : Path) (w : PdfGui) : PdfGui :=
  mkPdfGui (merged w)
           (filter (fun p => negb (path_eqb temp_pdf p)) (temp_files w))
           (pdf_log w) (pdf_progress w).

Definition add_merged (output_pdf word_file pdf_file : Path) (w : PdfGui) : PdfGui :=
  mkPdfGui (merged w ++ [(output_pdf, (word_file, pdf_file))])
           (temp_files w) (pdf_log w) (pdf_progress w).

Definition PC_PROGRESS : str := lit "-PC_PROGRESS-".

Section PdfTask.

Variable path_exists : str -> bool.
Variable glob_docx : str -> list Path.             (* [glob("*.docx")] *)
Variable glob_pdf : str -> list Path.              (* [glob("*.pdf")] *)
Variable stem : str -> str.                        (* [path.stem] *)
Variable percent : nat -> nat -> Z.
(** [convert(word_file, temp_pdf)]: writes the temporary file, or raises
    and writes nothing. *)
Variable convert_error : Path -> Path -> option exn.
(** The four calls on the [PdfMerger]: write the merged file, or raise and
    write nothing. *)
Variable merge_error : Path -> Path -> Path -> option exn.
Variable unlink_error : Path -> option exn.        (* [temp_pdf.unlink()] *)

(** [validate_folder] on the state of this task. *)
Definition pdf_validate_folder (w : PdfGui) (path description : str)
  : PdfGui * bool :=
  if negb (path_exists path)
  then (pdf_log_message (InvalidFolder description path) w, false)
  else (w, true).

(** Lines 172-191: the body of the loop. *)
Definition pdf_pair_step (dest_folder : str) (total_files : nat) (w : PdfGui)
           (item : nat * (Path * Path)) : PdfGui :=
  let '(i, (word_file, pdf_file)) := item in
  io_try
    (let temp_pdf := mkPath dest_folder (stem (name word_file) ++ lit "_temp.pdf") in
     _ <~ io_check (convert_error word_file temp_pdf) ;;
     _ <~ io_do (add_temp temp_pdf) ;;
     let output_pdf := mkPath dest_folder (name pdf_file) in
     _ <~ io_check (merge_error temp_pdf pdf_file output_pdf) ;;
     _ <~ io_do (add_merged output_pdf word_file pdf_file) ;;
     _ <~ io_check (unlink_error temp_pdf) ;;
     _ <~ io_do (remove_temp temp_pdf) ;;
     _ <~ io_do (pdf_update_progress PC_PROGRESS (percent (i + 1) total_files)) ;;
     io_do (pdf_log_message (Combined (name word_file) (name pdf_file)
                                      (name output_pdf))))
    (fun e => pdf_log_message (ErrorCombining (name word_file) e))
    w.

(** [run_pdf_combine(word_folder, pdf_folder, dest_folder)] *)
Definition run_pdf_combine (word_folder pdf_folder dest_folder : str)
           (w : PdfGui) : PdfGui :=
  let (w, ok) := pdf_validate_folder w word_folder (lit "Word origin") in
  if negb ok then w else
  let (w, ok) := pdf_validate_folder w pdf_folder (lit "PDF origin") in
  if negb ok then w else
  let (w, ok) := pdf_validate_folder w dest_folder (lit "destination") in
  if negb ok then w else
  let word_files := glob_docx word_folder in
  let pdf_files := glob_pdf pdf_folder in
  let total_files := length word_files in
  if (total_files =? 0) || (length pdf_files =? 0)
  then pdf_log_message NoWordOrPdfFiles w
  else
    let w := fold_left (pdf_pair_step dest_folder total_files)
                       (enumerate (combine word_files pdf_files)) w in
    pdf_log_message PdfCombineCompleted w.

End PdfTask.

Section PdfOutcome.

Variable stem : str -> str.
Variable convert_error : Path -> Path -> option exn.
Variable merge_error : Path -> Path -> Path -> option exn.
Variable unlink_error : Path -> option exn.
Variable dest_folder : str.

Definition temp_of (word_file : Path) : Path :=
  mkPath dest_folder (stem (name word_file) ++ lit "_temp.pdf").

Definition output_of (pdf_file : Path) : Path :=
  mkPath dest_folder (name pdf_file).

(** The message a pair of files ends with. *)
Definition pdf_pair_message (pair : Path * Path) : gui_message :=
  let (word_file, pdf_file) := pair in
  match convert_error word_file (temp_of word_file) with
  | Some e => ErrorCombining (name word_file) e
  | None =>
      match merge_error (temp_of word_file) pdf_file (output_of pdf_file) with
      | Some e => ErrorCombining (name word_file) e
      | None =>
          match unlink_error (temp_of word_file) with
          | Some e => ErrorCombining (name word_file) e
          | None => Combined (name word_file) (name pdf_file) (name pdf_file)
          end
      end
  end.

(** The merged file a pair of files leaves. *)
Definition pdf_pair_written (pair : Path * Path) : list (Path * (Path * Path)) :=
  let (word_file, pdf_file) := pair in
  match convert_error word_file (temp_of word_file) with
  | Some _ => []
  | None =>
      match merge_error (temp_of word_file) pdf_file (output_of pdf_file) with
      | Some _ => []
      | None => [(output_of pdf_file, (word_file, pdf_file))]
      end
  end.

(** Whether a pair of files leaves its temporary file behind. *)
Definition pdf_pair_leaves_temp (pair : Path * Path) : bool :=
  let (word_file, pdf_file) := pair in
  match convert_error word_file (temp_of word_file) with
  | Some _ => false
  | None =>
      match merge_error (temp_of word_file) pdf_file (output_of pdf_file) with
      | Some _ => true
      | None =>
          match unlink_error (temp_of word_file) with
          | Some _ => true
          | None => false
          end
      end
  end.

End PdfOutcome.

Definition sample_invoices : list Path :=
  [mkPath (lit "pdf") (lit "inv-7.pdf");
   mkPath (lit "pdf") (lit "inv-8.pdf")].
Definition sample_invoice_glob (_ : str) : list Path := sample_invoices.
(** The stem of a name that ends in [.docx]. *)
Definition sample_stem (file_name : str) : str :=
  firstn (length file_name - 5) file_name.
Definition sample_convert_error (word_file temp_pdf : Path) : option exn :=
  if String.eqb (string_of_list_ascii (name word_file)) "bad.docx"
  then Some (Exception (lit "Package not found"))
  else None.
Definition sample_merge_error (temp_pdf pdf_file output_pdf : Path) : option exn :=
  if String.eqb (string_of_list_ascii (name pdf_file)) "inv-7.pdf"
  then Some (Exception (lit "EOF marker not found"))
  else None.
Definition empty_pdf_gui : PdfGui := mkPdfGui [] [] [] [].

(** ** Text a run can hold *)




(** * Properties *)

(** ** Strings *)

Lemma startswith_nil s : PyStr.startswith s [] = true.
Proof. destruct s; reflexivity. Qed.

Lemma startswith_iff s sub :
  PyStr.startswith s sub = true <-> exists t, s = sub ++ t.
Proof.
  revert s; induction sub as [|a sub IH]; intros s.
  - rewrite startswith_nil. split; [exists s; reflexivity | reflexivity].
  - destruct s as [|b s]; simpl.
    + split; [discriminate | intros [t Ht]; discriminate].
    + rewrite andb_true_iff, Ascii.eqb_eq, IH. split.
      * intros [-> [t ->]]. exists t; reflexivity.
      * intros [t Ht]. injection Ht as -> ->. split; [reflexivity | exists t; reflexivity].
Qed.

Lemma startswith_app s sub t :
  PyStr.startswith s sub = true -> PyStr.startswith (s ++ t) sub = true.
Proof.
  rewrite !startswith_iff. intros [u ->]. exists (u ++ t).
  now rewrite app_assoc.
Qed.

Lemma startswith_length s sub :
  PyStr.startswith s sub = true -> length sub <= length s.
Proof.
  rewrite startswith_iff. intros [t ->]. rewrite length_app. lia.
Qed.

(** A match that fits in the front part is a match of the front part. *)
Lemma startswith_app_inv s sub t :
  PyStr.startswith (s ++ t) sub = true -> length sub <= length s ->
  PyStr.startswith s sub = true.
Proof.
  revert s; induction sub as [|a sub IH]; intros s H L.
  - apply startswith_nil.
  - destruct s as [|b s]; simpl in L; [lia|]. simpl in *.
    apply andb_true_iff in H as [-> H]. simpl. apply IH; [assumption | lia].
Qed.

(** What [search] returns: [-1] when [sub] starts nowhere in [s], and
    otherwise the lowest position where it starts. *)
Lemma search_spec s sub pos :
  (PyStr.search s sub pos = (-1)%Z /\
   forall k, k <= length s -> PyStr.startswith (skipn k s) sub = false)
  \/
  (exists k, PyStr.search s sub pos = Z.of_nat (pos + k) /\
             k <= length s /\
             PyStr.startswith (skipn k s) sub = true /\
             forall j, j < k -> PyStr.startswith (skipn j s) sub = false).
Proof.
  revert pos; induction s as [|c s IH]; intros pos.
  - cbn [PyStr.search]. destruct (PyStr.startswith [] sub) eqn:E.
    + right. exists 0. rewrite Nat.add_0_r.
      split; [reflexivity|]. split; [simpl; lia|]. split; [exact E|].
      intros j Hj; exfalso; lia.
    + left. split; [reflexivity|]. intros k _. now rewrite skipn_nil.
  - cbn [PyStr.search]. destruct (PyStr.startswith (c :: s) sub) eqn:E.
    + right. exists 0. rewrite Nat.add_0_r.
      split; [reflexivity|]. split; [simpl; lia|]. split; [exact E|].
      intros j Hj; exfalso; lia.
    + destruct (IH (S pos)) as [[H1 H2] | [k (H1 & H2 & H3 & H4)]].
      * left. split; [assumption|]. intros [|k] Hk; [exact E|].
        simpl. apply H2. simpl in Hk; lia.
      * right. exists (S k).
        split; [rewrite H1; f_equal; lia|]. split; [simpl; lia|].
        split; [exact H3|].
        intros [|j] Hj; [exact E|]. simpl. apply H4. lia.
Qed.

Lemma search_lower s sub pos :
  PyStr.search s sub pos = (-1)%Z \/ (Z.of_nat pos <= PyStr.search s sub pos)%Z.
Proof.
  destruct (search_spec s sub pos) as [[H _] | [k (H & _)]]; [now left|].
  right. rewrite H. lia.
Qed.

Lemma find_nat s sub n :
  n <= length s ->
  PyStr.find s sub (Z.of_nat n) = PyStr.search (skipn n s) sub n.
Proof.
  intros Hn. unfold PyStr.find, PyStr.adjust, PyStr.len.
  destruct (Z.ltb_spec (Z.of_nat n) 0); [lia|].
  destruct (Z.ltb_spec (Z.of_nat (length s)) (Z.of_nat n)); [lia|].
  now rewrite Nat2Z.id.
Qed.

(** [find] never answers with a position before [start]. *)
Lemma find_lower s sub start :
  PyStr.find s sub start = (-1)%Z \/
  (start <= PyStr.find s sub start /\ 0 <= PyStr.find s sub start)%Z.
Proof.
  unfold PyStr.find.
  set (st := PyStr.adjust (PyStr.len s) start).
  assert (Hst : (start <= st /\ 0 <= st)%Z).
  { subst st. unfold PyStr.adjust. destruct (Z.ltb_spec start 0); lia. }
  destruct (Z.ltb_spec (PyStr.len s) st); [now left|].
  destruct (search_lower (skipn (Z.to_nat st) s) sub (Z.to_nat st)) as [E|E];
    [now left | right; lia].
Qed.

Lemma contains_iff s sub :
  PyStr.contains s sub = true <->
  exists k, k <= length s /\ PyStr.startswith (skipn k s) sub = true.
Proof.
  unfold PyStr.contains.
  change (PyStr.find s sub 0) with (PyStr.find s sub (Z.of_nat 0)).
  rewrite find_nat by lia. simpl skipn.
  destruct (search_spec s sub 0) as [[H1 H2] | [k (H1 & H2 & H3 & _)]].
  - rewrite H1. simpl. split; [discriminate|].
    intros [k [Hk E]]. rewrite H2 in E by assumption. discriminate.
  - rewrite H1. split; [intros _; eauto|]. intros _.
    destruct (Z.eqb_spec (Z.of_nat (0 + k)) (-1)); [lia | reflexivity].
Qed.

Lemma contains_false_iff s sub :
  PyStr.contains s sub = false <->
  forall k, k <= length s -> PyStr.startswith (skipn k s) sub = false.
Proof.
  split.
  - intros H k Hk. destruct (PyStr.startswith (skipn k s) sub) eqn:E; [|reflexivity].
    assert (PyStr.contains s sub = true) by (apply contains_iff; eauto).
    congruence.
  - intros H. destruct (PyStr.contains s sub) eqn:E; [|reflexivity].
    apply contains_iff in E as [k [Hk E]]. rewrite H in E by assumption.
    discriminate.
Qed.

(** A string that occurs in a part occurs in the whole. *)
Lemma contains_middle a s b sub :
  PyStr.contains s sub = true -> PyStr.contains (a ++ s ++ b) sub = true.
Proof.
  rewrite !contains_iff. intros [k [Hk E]].
  exists (length a + k). split.
  - rewrite !length_app. lia.
  - rewrite skipn_app, skipn_all2 by lia. simpl.
    replace (length a + k - length a) with k by lia.
    rewrite skipn_app. now apply startswith_app.
Qed.

(** ** The occurrence scan *)

Lemma replace_scan_skip s old new k :
  PyStr.replace_scan s old new k = PyStr.replace_scan (skipn k s) old new 0.
Proof.
  revert k; induction s as [|c s IH]; intros k.
  - now rewrite skipn_nil.
  - destruct k as [|k]; [reflexivity|]. simpl. apply IH.
Qed.

(** Where [old] starts, [replace_scan] emits [new] and goes on behind the
    match. *)
Lemma replace_scan_match old new t :
  old <> [] ->
  PyStr.replace_scan (old ++ t) old new 0 = new ++ PyStr.replace_scan t old new 0.
Proof.
  intros Hne. destruct old as [|a old]; [congruence|].
  cbn [app PyStr.replace_scan].
  assert (E : PyStr.startswith (a :: old ++ t) (a :: old) = true)
    by (apply startswith_iff; exists t; reflexivity).
  rewrite E. f_equal.
  replace (length (a :: old) - 1) with (length old) by (simpl; lia).
  rewrite replace_scan_skip. f_equal.
  now rewrite skipn_app, skipn_all, Nat.sub_diag.
Qed.

(** Before the leftmost match, [replace_scan] copies. *)
Lemma replace_scan_literal l t old new :
  (forall j, j < length l -> PyStr.startswith (skipn j (l ++ t)) old = false) ->
  PyStr.replace_scan (l ++ t) old new 0 = l ++ PyStr.replace_scan t old new 0.
Proof.
  induction l as [|c l IH]; intros H; [reflexivity|].
  cbn [app PyStr.replace_scan].
  pose proof (H 0 ltac:(simpl; lia)) as H0. cbn [skipn app] in H0.
  rewrite H0. f_equal. apply IH.
  intros j Hj. apply (H (S j)). simpl; lia.
Qed.

Lemma replace_scan_none s old new :
  PyStr.contains s old = false -> PyStr.replace_scan s old new 0 = s.
Proof.
  intros H. rewrite contains_false_iff in H.
  rewrite <- (app_nil_r s) at 1. rewrite replace_scan_literal; simpl.
  - apply app_nil_r.
  - intros j Hj. rewrite app_nil_r. apply H; lia.
Qed.

Lemma concat_interleave_cons new l lits :
  lits <> [] ->
  concat (interleave new (l :: lits)) = l ++ new ++ concat (interleave new lits).
Proof. destruct lits; [congruence | reflexivity]. Qed.

Lemma splits_nonempty old s lits : splits old s lits -> lits <> [].
Proof. intros []; discriminate. Qed.

(** The parts of a split, glued together, are the string-level
    replacement. *)
Lemma splits_replace old new s lits :
  old <> [] -> splits old s lits ->
  concat (interleave new lits) = PyStr.replace s old new.
Proof.
  intros Hne H.
  replace (PyStr.replace s old new) with (PyStr.replace_scan s old new 0)
    by (destruct old; [congruence | reflexivity]).
  induction H as [s H | l s lits Hl H IH].
  - simpl. now rewrite app_nil_r, replace_scan_none.
  - rewrite concat_interleave_cons by (eapply splits_nonempty; eauto).
    rewrite replace_scan_literal by assumption.
    rewrite replace_scan_match by assumption. now rewrite IH.
Qed.

(** Gluing the literal segments with [old] gives the text back. *)
Lemma splits_text old s lits :
  splits old s lits -> concat (interleave old lits) = s.
Proof.
  induction 1 as [s H | l s lits Hl H IH].
  - simpl. apply app_nil_r.
  - rewrite concat_interleave_cons by (eapply splits_nonempty; eauto).
    now rewrite IH.
Qed.


Lemma clamp_nat s n :
  n <= length s -> PyStr.clamp (PyStr.len s) (Z.of_nat n) = Z.of_nat n.
Proof.
  intros H. unfold PyStr.clamp, PyStr.adjust, PyStr.len.
  destruct (Z.ltb_spec (Z.of_nat n) 0); lia.
Qed.

Lemma slice_from_nat s n :
  n <= length s -> PyStr.slice_from s (Z.of_nat n) = skipn n s.
Proof.
  intros H. unfold PyStr.slice_from. now rewrite clamp_nat, Nat2Z.id.
Qed.

Lemma slice_nat s a b :
  a <= b -> b <= length s ->
  PyStr.slice s (Z.of_nat a) (Z.of_nat b) = firstn (b - a) (skipn a s).
Proof.
  intros Hab Hb. unfold PyStr.slice. rewrite !clamp_nat by lia.
  rewrite Nat2Z.id. f_equal. lia.
Qed.

Lemma interleave_cons new l lits :
  lits <> [] -> interleave new (l :: lits) = l :: new :: interleave new lits.
Proof. destruct lits; [congruence | reflexivity]. Qed.

(** The loop, started at position [n] with enough fuel for the text that
    is left, ends, and appends to [parts] the split of that text. *)
Lemma scan_loop_spec text old new :
  old <> [] ->
  forall fuel n parts,
    n <= length text -> length text - n < fuel ->
    exists lits,
      splits old (skipn n text) lits /\
      scan_loop fuel text old new parts (Z.of_nat n)
      = Ret (parts ++ interleave new lits).
Proof.
  intros Hne. induction fuel as [|fuel IH]; intros n parts Hn Hf; [lia|].
  cbn [scan_loop]. unfold scan_step. rewrite find_nat by assumption.
  destruct (search_spec (skipn n text) old n)
    as [[H1 H2] | [k (H1 & H2 & H3 & H4)]]; rewrite H1.
  - simpl. rewrite slice_from_nat by assumption.
    exists [skipn n text]. split; [|reflexivity].
    apply splits_last. now apply contains_false_iff.
  - destruct (Z.eqb_spec (Z.of_nat (n + k)) (-1)) as [?|_]; [lia|].
    cbv beta iota. rewrite length_skipn in H2.
    apply startswith_iff in H3 as [rest Hrest].
    assert (Hlen : length (skipn k (skipn n text)) = length old + length rest)
      by (rewrite Hrest; apply length_app).
    rewrite !length_skipn in Hlen.
    assert (Hold : 0 < length old) by (destruct old; [congruence | simpl; lia]).
    replace (Z.of_nat (n + k) + PyStr.len old)%Z
      with (Z.of_nat (n + k + length old)) by (unfold PyStr.len; lia).
    destruct (IH (n + k + length old) (parts ++ [PyStr.slice text (Z.of_nat n) (Z.of_nat (n + k)); new]))
      as [lits [Hs Hr]]; [lia | lia |].
    assert (Hrest' : skipn (n + k + length old) text = rest).
    { replace (n + k + length old) with (length old + (k + n)) by lia.
      rewrite <- !skipn_skipn, Hrest, skipn_app, skipn_all, Nat.sub_diag.
      reflexivity. }
    rewrite Hrest' in Hs.
    rewrite slice_nat in Hr |- * by lia.
    replace (n + k - n) with k in Hr |- * by lia.
    exists (firstn k (skipn n text) :: lits). split.
    + rewrite <- (firstn_skipn k (skipn n text)) at 1. rewrite Hrest.
      apply splits_match; [|assumption].
      intros j Hj. rewrite <- Hrest, firstn_skipn. apply H4.
      rewrite length_firstn, length_skipn in Hj. lia.
    + rewrite Hr, <- app_assoc. f_equal.
      rewrite interleave_cons by (eapply splits_nonempty; eauto). reflexivity.
Qed.

Lemma split_parts_spec text old new fuel :
  old <> [] -> length text < fuel ->
  exists lits,
    splits old text lits /\
    split_parts fuel text old new = Ret (interleave new lits).
Proof.
  intros Hne Hf.
  destruct (@scan_loop_spec text old new Hne fuel 0 []) as [lits [H1 H2]];
    [lia | lia |].
  exists lits. split; assumption.
Qed.

(** A step that goes on leaves the scan position strictly further. *)
Lemma scan_step_advances text old new parts start parts' start' :
  old <> [] ->
  scan_step text old new parts start = Next parts' start' ->
  (start < start')%Z /\
  (PyStr.find text old start + PyStr.len old = start')%Z.
Proof.
  intros Hne. unfold scan_step.
  destruct (Z.eqb_spec (PyStr.find text old start) (-1)) as [|Hidx];
    [discriminate|].
  intros H; injection H as _ <-.
  assert (0 < PyStr.len old)%Z
    by (unfold PyStr.len; destruct old; [congruence | simpl; lia]).
  destruct (find_lower text old start) as [E|E]; [congruence | lia].
Qed.

(** ** Elements of a paragraph *)

Lemma is_elem_true id e : is_elem id e = true <-> el_id e = id.
Proof. unfold is_elem. apply Nat.eqb_eq. Qed.

Lemma is_elem_false id e : is_elem id e = false <-> el_id e <> id.
Proof. unfold is_elem. apply Nat.eqb_neq. Qed.

Lemma is_elem_refl e : is_elem (el_id e) e = true.
Proof. now apply is_elem_true. Qed.

Lemma absent_app id a b : absent id (a ++ b) <-> absent id a /\ absent id b.
Proof. apply Forall_app. Qed.

Lemma absent_below id cs :
  Forall (fun x => el_id x < id) cs -> absent id cs.
Proof. apply Forall_impl. intros x Hx. lia. Qed.

Lemma absent_NoDup_front a e b :
  NoDup (map el_id (a ++ e :: b)) -> absent (el_id e) a.
Proof.
  intros H. rewrite map_app in H. simpl in H.
  apply NoDup_remove_2 in H. apply Forall_forall. intros x Hx E.
  apply H. apply in_or_app. left. rewrite <- E. now apply in_map.
Qed.

Lemma absent_NoDup_back a e b :
  NoDup (map el_id (a ++ e :: b)) -> absent (el_id e) b.
Proof.
  intros H. rewrite map_app in H. simpl in H.
  apply NoDup_remove_2 in H. apply Forall_forall. intros x Hx E.
  apply H. apply in_or_app. right. rewrite <- E. now apply in_map.
Qed.

Lemma find_absent id a b :
  absent id a -> find (is_elem id) (a ++ b) = find (is_elem id) b.
Proof.
  induction 1 as [|x a Hx _ IH]; [reflexivity|]. simpl.
  apply is_elem_false in Hx. now rewrite Hx.
Qed.

Lemma find_here a e b :
  absent (el_id e) a -> find (is_elem (el_id e)) (a ++ e :: b) = Some e.
Proof.
  intros H. rewrite find_absent by assumption. simpl.
  now rewrite is_elem_refl.
Qed.

Lemma index_of_here a e b :
  absent (el_id e) a -> index_of (el_id e) (a ++ e :: b) = Some (length a).
Proof.
  induction 1 as [|x a Hx _ IH]; simpl.
  - now rewrite is_elem_refl.
  - apply is_elem_false in Hx. now rewrite Hx, IH.
Qed.

Lemma modify_absent id f cs :
  absent id cs ->
  map (fun e => if is_elem id e then mkElement (el_id e) (f (el_run e)) else e) cs
  = cs.
Proof.
  induction 1 as [|x cs Hx _ IH]; [reflexivity|]. simpl.
  apply is_elem_false in Hx. now rewrite Hx, IH.
Qed.

Lemma modify_here p a e b f :
  children p = a ++ e :: b -> absent (el_id e) a -> absent (el_id e) b ->
  modify p (el_id e) f
  = mkParagraph (a ++ mkElement (el_id e) (f (el_run e)) :: b) (next_id p).
Proof.
  intros E Ha Hb. unfold modify. rewrite E. f_equal.
  rewrite map_app. simpl. rewrite is_elem_refl.
  now rewrite !modify_absent by assumption.
Qed.

Lemma detach_absent id cs : absent id cs -> detach id cs = cs.
Proof.
  induction 1 as [|x cs Hx _ IH]; [reflexivity|]. simpl.
  apply is_elem_false in Hx. now rewrite Hx, IH.
Qed.

Lemma detach_last cs e :
  absent (el_id e) cs -> detach (el_id e) (cs ++ [e]) = cs.
Proof.
  intros H. unfold detach. rewrite filter_app. simpl.
  rewrite is_elem_refl. simpl. rewrite app_nil_r. now apply detach_absent.
Qed.

Lemma insert_before_here a c b e :
  absent (el_id c) a ->
  insert_before (el_id c) e (a ++ c :: b) = a ++ e :: c :: b.
Proof.
  induction 1 as [|x a Hx _ IH]; simpl.
  - now rewrite is_elem_refl.
  - apply is_elem_false in Hx. now rewrite Hx, IH.
Qed.

Lemma read_here p a e b :
  children p = a ++ e :: b -> absent (el_id e) a ->
  read p (el_id e) = Ret (el_run e).
Proof. intros E H. unfold read. now rewrite E, find_here. Qed.

(** Equalities of lists that differ in how [++] and [::] are nested. *)
Ltac reassoc :=
  repeat (rewrite <- app_assoc || rewrite <- app_comm_cons);
  cbn [app]; try reflexivity.

(** [new_run.attr = run.attr] for the run just added at the end. *)
Lemma copy_attr_last {V} (get : Run -> V) set a e b id r nxt :
  absent (el_id e) a -> absent id (a ++ e :: b) ->
  copy_attr get set (mkParagraph ((a ++ e :: b) ++ [mkElement id r]) nxt)
            (el_id e) id
  = Ret (mkParagraph
           ((a ++ e :: b) ++ [mkElement id (set (get (el_run e)) r)]) nxt).
Proof.
  intros Ha Hn. unfold copy_attr.
  rewrite (@read_here _ a e (b ++ [mkElement id r]));
    [| cbn [children]; reassoc | assumption].
  cbn [bind]. f_equal.
  exact (@modify_here (mkParagraph ((a ++ e :: b) ++ [mkElement id r]) nxt)
                      (a ++ e :: b) (mkElement id r) [] (set (get (el_run e)))
                      eq_refl Hn (Forall_nil _)).
Qed.

(** [parent.insert(index, new_run._element)] for the run just added at the
    end: it lands in front of the child that was at [index]. *)
Lemma insert_last p a rest n :
  children p = (a ++ rest) ++ [n] ->
  NoDup (map el_id (a ++ rest)) -> absent (el_id n) (a ++ rest) ->
  insert p (length a) (el_id n)
  = Ret (mkParagraph (a ++ n :: rest) (next_id p)).
Proof.
  intros E Hnd Hn. unfold insert. rewrite E.
  rewrite find_here by assumption.
  rewrite <- app_assoc, nth_error_app2, Nat.sub_diag by lia.
  destruct rest as [|c rest]; cbn [app nth_error].
  - rewrite is_elem_refl. f_equal. destruct p as [cs nx]; simpl in *.
    rewrite app_nil_r in E. now subst cs.
  - apply absent_app in Hn as Hn'. destruct Hn' as [_ Hc].
    inversion Hc as [|? ? Hc1 _]; subst.
    assert (Ec : is_elem (el_id n) c = false) by now apply is_elem_false.
    rewrite Ec. f_equal. f_equal.
    change (a ++ c :: rest ++ [n]) with (a ++ (c :: rest) ++ [n]).
    rewrite app_assoc, detach_last by assumption.
    apply insert_before_here. eapply absent_NoDup_front; eassumption.
Qed.

Lemma copied_run seg r :
  set_style (style r)
    (set_font_size (font_size r)
       (set_font_name (font_name r)
          (set_underline (underline r)
             (set_italic (italic r)
                (set_bold (bold r) (fresh_run seg))))))
  = set_text seg r.
Proof. reflexivity. Qed.

Lemma NoDup_insert_fresh a rest n :
  NoDup (map el_id (a ++ rest)) -> absent (el_id n) (a ++ rest) ->
  NoDup (map el_id (a ++ n :: rest)).
Proof.
  intros Hnd Hn. rewrite map_app in *. simpl.
  apply NoDup_Add with (a := el_id n) (l := map el_id a ++ map el_id rest).
  - apply Add_app.
  - split; [assumption|]. rewrite <- map_app. intros Hin.
    apply in_map_iff in Hin as [x [Hx Hin]].
    unfold absent in Hn. rewrite Forall_forall in Hn. now apply (Hn x).
Qed.

Lemma below_weaken nxt nxt' cs :
  nxt <= nxt' ->
  Forall (fun x => el_id x < nxt) cs -> Forall (fun x => el_id x < nxt') cs.
Proof. intros H. apply Forall_impl. intros; lia. Qed.

(** Lines 60-69. The new runs end up right behind the run they come from
    and the runs inserted before them, in the order of the segments, and
    carry the style of that run. *)
Lemma insert_segments_spec done e segs :
  forall ins rest nxt run_index,
    run_index = length done + length ins ->
    NoDup (map el_id ((done ++ e :: ins) ++ rest)) ->
    Forall (fun x => el_id x < nxt) ((done ++ e :: ins) ++ rest) ->
    insert_segments (mkParagraph ((done ++ e :: ins) ++ rest) nxt)
                    (el_id e) run_index segs
    = Ret (mkParagraph
             ((done ++ e :: ins ++ new_elems nxt (el_run e) segs) ++ rest)
             (nxt + length segs)).
Proof.
  induction segs as [|seg segs IH]; intros ins rest nxt run_index Hi Hnd Hlt.
  - simpl. rewrite Nat.add_0_r, app_nil_r. reflexivity.
  - cbn [insert_segments add_run children next_id].
    set (cs := (done ++ e :: ins) ++ rest) in *.
    assert (Ha : absent (el_id e) done).
    { subst cs. rewrite <- app_assoc in Hnd. simpl in Hnd.
      eapply absent_NoDup_front; eassumption. }
    assert (Hfresh : absent nxt cs) by (apply absent_below; exact Hlt).
    assert (Ecs : cs = done ++ e :: (ins ++ rest)) by (subst cs; reassoc).
    rewrite Ecs.
    do 6 (rewrite copy_attr_last by (rewrite <- ?Ecs; assumption); cbn [bind]).
    rewrite copied_run, <- Ecs.
    set (n := mkElement nxt (set_text seg (el_run e))).
    replace (S run_index) with (length (done ++ e :: ins))
      by (rewrite length_app; simpl; lia).
    rewrite (@insert_last _ (done ++ e :: ins) rest n);
      [| reflexivity | exact Hnd | exact Hfresh].
    cbn [bind next_id].
    replace ((done ++ e :: ins) ++ n :: rest)
      with ((done ++ e :: (ins ++ [n])) ++ rest) by reassoc.
    rewrite IH with (ins := ins ++ [n]).
    + f_equal. f_equal; [|simpl; lia]. subst n. reassoc.
    + rewrite !length_app. simpl. lia.
    + replace ((done ++ e :: (ins ++ [n])) ++ rest)
        with ((done ++ e :: ins) ++ n :: rest) by reassoc.
      apply NoDup_insert_fresh; [exact Hnd | exact Hfresh].
    + replace ((done ++ e :: (ins ++ [n])) ++ rest)
        with ((done ++ e :: ins) ++ n :: rest) by reassoc.
      apply Forall_app. apply Forall_app in Hlt as [H1 H2]. split.
      * eapply below_weaken; [|exact H1]. lia.
      * constructor; [simpl; lia|]. eapply below_weaken; [|exact H2]. lia.
Qed.

(** ** One run *)

Lemma scan_loop_mono text old new fuel :
  forall fuel' parts start res,
    scan_loop fuel text old new parts start = Ret res -> fuel <= fuel' ->
    scan_loop fuel' text old new parts start = Ret res.
Proof.
  induction fuel as [|fuel IH]; intros fuel' parts start res H Hle;
    [discriminate|].
  destruct fuel' as [|fuel']; [lia|]. cbn [scan_loop] in *.
  destruct (scan_step text old new parts start); [assumption|].
  apply IH; [assumption | lia].
Qed.

Lemma parts_of_spec t old new :
  old <> [] ->
  exists lits, splits old t lits /\ parts_of t old new = interleave new lits.
Proof.
  intros Hne.
  destruct (@split_parts_spec t old new (S (length t)) Hne) as [lits [H1 H2]];
    [lia|].
  exists lits. split; [assumption|]. unfold parts_of. now rewrite H2.
Qed.

Lemma split_parts_enough t old new fuel :
  old <> [] -> length t < fuel ->
  split_parts fuel t old new = Ret (parts_of t old new).
Proof.
  intros Hne Hf. destruct (parts_of_spec t new Hne) as [lits [_ E]].
  destruct (@split_parts_spec t old new (S (length t)) Hne) as [lits' [_ H2]];
    [lia|].
  unfold parts_of in *. rewrite H2 in *. unfold split_parts in *.
  eapply scan_loop_mono; [exact H2 | lia].
Qed.

Lemma interleave_hd new lits :
  lits <> [] -> exists more, interleave new lits = hd [] lits :: more.
Proof.
  destruct lits as [|l [|l' lits]]; [congruence | |]; intros _; simpl; eauto.
Qed.

Lemma parts_of_cons t old new :
  old <> [] -> exists first more, parts_of t old new = first :: more.
Proof.
  intros Hne. destruct (parts_of_spec t new Hne) as [lits [Hs E]].
  destruct (@interleave_hd new lits) as [more Hm];
    [eapply splits_nonempty; eauto|].
  rewrite E, Hm. eauto.
Qed.

Lemma new_elems_set_text nxt x r segs :
  new_elems nxt (set_text x r) segs = new_elems nxt r segs.
Proof. revert nxt; induction segs; intros; simpl; [|rewrite IHsegs]; reflexivity. Qed.

Lemma length_new_elems nxt r segs : length (new_elems nxt r segs) = length segs.
Proof. revert nxt; induction segs; intros; simpl; [|rewrite IHsegs]; reflexivity. Qed.

Lemma run_list_new_elems nxt r segs :
  map el_run (new_elems nxt r segs) = map (fun seg => set_text seg r) segs.
Proof. revert nxt; induction segs; intros; simpl; [|rewrite IHsegs]; reflexivity. Qed.

(** Lines 43-70 on the run [e] of a paragraph: the run and the new runs
    made from it take the place of the run; nothing else moves. *)
Lemma process_run_spec fuel old new done e rest nxt flag :
  old <> [] -> length (text (el_run e)) < fuel ->
  NoDup (map el_id (done ++ e :: rest)) ->
  Forall (fun x => el_id x < nxt) (done ++ e :: rest) ->
  process_run fuel old new (mkParagraph (done ++ e :: rest) nxt, flag) (el_id e)
  = Ret (mkParagraph (done ++ split_elem old new nxt e ++ rest)
                     (nxt + (length (split_elem old new nxt e) - 1)),
         PyStr.contains (text (el_run e)) old || flag).
Proof.
  intros Hne Hf Hnd Hlt.
  assert (Ha : absent (el_id e) done) by (eapply absent_NoDup_front; eassumption).
  assert (Hb : absent (el_id e) rest) by (eapply absent_NoDup_back; eassumption).
  unfold process_run, split_elem.
  rewrite (@read_here _ done e rest) by (try reflexivity; assumption).
  cbn [bind]. destruct (PyStr.contains (text (el_run e)) old) eqn:Ec.
  - rewrite split_parts_enough by assumption. cbn [bind].
    destruct (@parts_of_cons (text (el_run e)) old new Hne) as [first [more Ep]].
    rewrite Ep. cbn [first_part bind tl].
    rewrite (@modify_here _ done e rest) by (try reflexivity; assumption).
    cbn [next_id].
    set (e' := mkElement (el_id e) (set_text first (el_run e))).
    unfold child_index. cbn [children].
    change (el_id e) with (el_id e').
    rewrite (@index_of_here done e' rest) by exact Ha. cbn [bind].
    change (done ++ e' :: rest) with (done ++ e' :: [] ++ rest).
    replace (done ++ e' :: [] ++ rest) with ((done ++ e' :: []) ++ rest)
      by reassoc.
    rewrite insert_segments_spec.
    + cbn [bind orb el_run e']. rewrite new_elems_set_text. f_equal. f_equal.
      f_equal; [reassoc | simpl; rewrite length_new_elems; lia].
    + simpl; lia.
    + replace ((done ++ [e']) ++ rest) with (done ++ e' :: rest) by reassoc.
      rewrite map_app in *. exact Hnd.
    + replace ((done ++ [e']) ++ rest) with (done ++ e' :: rest) by reassoc.
      apply Forall_app in Hlt as [H1 H2]. apply Forall_app. split; [exact H1|].
      inversion H2; subst. constructor; assumption.
  - cbn [orb]. simpl. rewrite Nat.add_0_r. reflexivity.
Qed.

(** ** The loop over the runs *)

Lemma new_elems_ids r rest segs :
  forall a nxt,
    NoDup (map el_id (a ++ rest)) ->
    Forall (fun x => el_id x < nxt) (a ++ rest) ->
    NoDup (map el_id (a ++ new_elems nxt r segs ++ rest)) /\
    Forall (fun x => el_id x < nxt + length segs)
           (a ++ new_elems nxt r segs ++ rest).
Proof.
  induction segs as [|seg segs IH]; intros a nxt Hnd Hlt.
  - simpl. rewrite Nat.add_0_r. split; assumption.
  - cbn [new_elems length].
    set (n := mkElement nxt (set_text seg r)).
    replace (a ++ (n :: new_elems (S nxt) r segs) ++ rest)
      with ((a ++ [n]) ++ new_elems (S nxt) r segs ++ rest) by reassoc.
    replace (nxt + S (length segs)) with (S nxt + length segs) by lia.
    apply IH.
    + replace ((a ++ [n]) ++ rest) with (a ++ n :: rest) by reassoc.
      apply NoDup_insert_fresh; [assumption|].
      apply absent_below. exact Hlt.
    + replace ((a ++ [n]) ++ rest) with (a ++ n :: rest) by reassoc.
      apply Forall_app in Hlt as [H1 H2]. apply Forall_app. split.
      * eapply below_weaken; [|exact H1]. lia.
      * constructor; [simpl; lia|]. eapply below_weaken; [|exact H2]. lia.
Qed.

Lemma split_elem_ids old new nxt a e rest :
  NoDup (map el_id (a ++ e :: rest)) ->
  Forall (fun x => el_id x < nxt) (a ++ e :: rest) ->
  NoDup (map el_id (a ++ split_elem old new nxt e ++ rest)) /\
  Forall (fun x => el_id x < nxt + (length (split_elem old new nxt e) - 1))
         (a ++ split_elem old new nxt e ++ rest).
Proof.
  intros Hnd Hlt.
  assert (Same : NoDup (map el_id (a ++ [e] ++ rest)) /\
                 Forall (fun x => el_id x < nxt + 0) (a ++ [e] ++ rest))
    by (rewrite Nat.add_0_r; split; assumption).
  unfold split_elem. destruct (PyStr.contains (text (el_run e)) old); [|exact Same].
  destruct (parts_of (text (el_run e)) old new) as [|first more]; [exact Same|].
  set (e' := mkElement (el_id e) (set_text first (el_run e))).
  replace (a ++ (e' :: new_elems nxt (el_run e) more) ++ rest)
    with ((a ++ [e']) ++ new_elems nxt (el_run e) more ++ rest) by reassoc.
  replace (length (e' :: new_elems nxt (el_run e) more) - 1) with (length more)
    by (simpl; rewrite length_new_elems; lia).
  apply new_elems_ids.
  - replace ((a ++ [e']) ++ rest) with (a ++ e' :: rest) by reassoc.
    rewrite map_app in *. exact Hnd.
  - replace ((a ++ [e']) ++ rest) with (a ++ e' :: rest) by reassoc.
    apply Forall_app in Hlt as [H1 H2]. apply Forall_app. split; [exact H1|].
    inversion H2; subst. constructor; assumption.
Qed.

(** Lines 42-70: the loop visits the runs the paragraph had when it
    started; each is replaced, in place, by what it splits into. *)
Lemma for_runs_spec fuel old new :
  old <> [] ->
  forall todo done nxt flag,
    Forall (fun e => length (text (el_run e)) < fuel) todo ->
    NoDup (map el_id (done ++ todo)) ->
    Forall (fun x => el_id x < nxt) (done ++ todo) ->
    for_each (process_run fuel old new)
             (mkParagraph (done ++ todo) nxt, flag) (map el_id todo)
    = Ret (mkParagraph (done ++ split_all old new nxt todo)
                       (split_next old new nxt todo),
           existsb (fun e => PyStr.contains (text (el_run e)) old) todo || flag).
Proof.
  intros Hne. induction todo as [|e todo IH]; intros done nxt flag Hf Hnd Hlt.
  - reflexivity.
  - cbn [map for_each]. inversion Hf as [|? ? Hf1 Hf2]; subst.
    rewrite process_run_spec by assumption. cbn [bind].
    destruct (@split_elem_ids old new nxt done e todo Hnd Hlt) as [Hnd' Hlt'].
    rewrite app_assoc in Hnd', Hlt' |- *.
    rewrite IH by assumption.
    cbn [split_all split_next existsb]. f_equal. f_equal.
    + f_equal. now rewrite <- app_assoc.
    + now rewrite orb_assoc, (orb_comm (existsb _ _)).
Qed.

Lemma run_list_split_elem old new nxt e :
  old <> [] ->
  map el_run (split_elem old new nxt e) = pieces old new (el_run e).
Proof.
  intros Hne. unfold split_elem, pieces.
  destruct (PyStr.contains (text (el_run e)) old); [|reflexivity].
  destruct (@parts_of_cons (text (el_run e)) old new Hne) as [first [more Ep]].
  rewrite Ep. simpl. now rewrite run_list_new_elems.
Qed.

Lemma run_list_split_all old new todo :
  old <> [] ->
  forall nxt,
    map el_run (split_all old new nxt todo)
    = flat_map (pieces old new) (map el_run todo).
Proof.
  intros Hne. induction todo as [|e todo IH]; intros nxt; [reflexivity|].
  cbn [split_all map flat_map]. rewrite map_app, run_list_split_elem, IH by assumption.
  reflexivity.
Qed.

Lemma existsb_run_list (f : Run -> bool) cs :
  existsb (fun e => f (el_run e)) cs = existsb f (map el_run cs).
Proof. induction cs; simpl; [|rewrite IHcs]; reflexivity. Qed.

(** The loop as the caller sees it. *)
Lemma for_runs_paragraph fuel old new p :
  old <> [] -> wf p -> enough_fuel fuel p ->
  for_each (process_run fuel old new) (p, false) (runs p)
  = Ret (mkParagraph (split_all old new (next_id p) (children p))
                     (split_next old new (next_id p) (children p)),
         existsb (fun r => PyStr.contains (text r) old) (run_list p)).
Proof.
  intros Hne [Hnd Hlt] Hf. destruct p as [cs nxt]. unfold runs, run_list in *.
  cbn [children next_id] in *.
  change (mkParagraph cs nxt) with (mkParagraph ([] ++ cs) nxt).
  rewrite (@for_runs_spec fuel old new Hne cs [] nxt false).
  - cbn [app]. rewrite orb_false_r. f_equal. f_equal.
    apply (existsb_run_list (fun r => PyStr.contains (text r) old)).
  - unfold enough_fuel, run_list in Hf. cbn [children] in Hf.
    now rewrite Forall_map in Hf.
  - exact Hnd.
  - now rewrite Forall_map in Hlt.
Qed.

(** ** The whole call *)

Lemma split_all_none old new todo :
  existsb (fun e => PyStr.contains (text (el_run e)) old) todo = false ->
  forall nxt,
    split_all old new nxt todo = todo /\ split_next old new nxt todo = nxt.
Proof.
  induction todo as [|e todo IH]; intros H nxt; [split; reflexivity|].
  cbn [existsb] in H. apply orb_false_iff in H as [He Ht].
  cbn [split_all split_next]. unfold split_elem. rewrite He.
  cbn [length Nat.sub app]. rewrite Nat.add_0_r.
  destruct (IH Ht nxt) as [-> ->]. split; reflexivity.
Qed.

(** Lines 76-77: every run is taken out. *)
Lemma remove_all cs nxt :
  NoDup (map el_id cs) ->
  for_each remove (mkParagraph cs nxt) (map el_id cs) = Ret (mkParagraph [] nxt).
Proof.
  induction cs as [|e cs IH]; intros Hnd; [reflexivity|].
  cbn [map for_each]. unfold remove at 1. cbn [children existsb next_id].
  rewrite is_elem_refl. cbn [orb bind].
  assert (Ha : absent (el_id e) cs)
    by (apply (@absent_NoDup_back [] e cs); exact Hnd).
  unfold detach. cbn [filter]. rewrite is_elem_refl. cbn [negb].
  fold (detach (el_id e) cs). rewrite detach_absent by assumption.
  apply IH. simpl in Hnd. now inversion Hnd.
Qed.

(** Some run contains [old_text]: the runs are split, the fallback is not
    taken. *)
Lemma deep_replace_split fuel old new p :
  old <> [] -> wf p -> enough_fuel fuel p ->
  existsb (fun r => PyStr.contains (text r) old) (run_list p) = true ->
  deep_replace_text_in_paragraph fuel p old new
  = Ret (mkParagraph (split_all old new (next_id p) (children p))
                     (split_next old new (next_id p) (children p)),
         PyNone).
Proof.
  intros Hne Hwf Hf Hex. unfold deep_replace_text_in_paragraph.
  rewrite for_runs_paragraph by assumption. cbn [bind]. rewrite Hex.
  reflexivity.
Qed.

Lemma existsb_false_In {A} (f : A -> bool) l x :
  existsb f l = false -> In x l -> f x = false.
Proof.
  intros H Hin. destruct (f x) eqn:E; [|reflexivity].
  assert (existsb f l = true) by (apply existsb_exists; eauto). congruence.
Qed.

(** When no run contains [old_text] the loop changes nothing. *)
Lemma for_runs_noop fuel old new p :
  existsb (fun r => PyStr.contains (text r) old) (run_list p) = false ->
  forall ids flag,
    incl ids (runs p) ->
    for_each (process_run fuel old new) (p, flag) ids = Ret (p, flag).
Proof.
  intros Hex. induction ids as [|id ids IH]; intros flag Hin; [reflexivity|].
  cbn [for_each]. unfold process_run at 1, read.
  destruct (find (is_elem id) (children p)) as [e|] eqn:F.
  - apply find_some in F as [He _]. cbn [bind].
    rewrite (existsb_false_In (fun r => PyStr.contains (text r) old)
                              (run_list p) (el_run e) Hex)
      by (unfold run_list; now apply in_map).
    cbn [bind]. apply IH. intros x Hx. apply Hin. now right.
  - exfalso. assert (Hid : In id (runs p)) by (apply Hin; now left).
    unfold runs in Hid. apply in_map_iff in Hid as [e [Ee He]].
    apply (find_none _ _ F) in He. apply is_elem_false in He. congruence.
Qed.

Lemma contains_run_paragraph p r old :
  In r (run_list p) -> PyStr.contains (text r) old = true ->
  PyStr.contains (paragraph_text p) old = true.
Proof.
  intros Hin H. unfold paragraph_text.
  apply in_split in Hin as [a [b ->]].
  rewrite map_app, concat_app. cbn [map concat].
  now apply contains_middle.
Qed.

Lemma no_run_contains p old :
  PyStr.contains (paragraph_text p) old = false ->
  existsb (fun r => PyStr.contains (text r) old) (run_list p) = false.
Proof.
  intros H. destruct (existsb _ _) eqn:E; [|reflexivity].
  apply existsb_exists in E as [r [Hin Hr]].
  rewrite (contains_run_paragraph p r old Hin Hr) in H. discriminate.
Qed.

(** No run contains [old_text] but the text of the paragraph does: the
    fallback. *)
Lemma deep_replace_fallback fuel old new p :
  wf p ->
  existsb (fun r => PyStr.contains (text r) old) (run_list p) = false ->
  PyStr.contains (paragraph_text p) old = true ->
  deep_replace_text_in_paragraph fuel p old new
  = Ret (mkParagraph
           [mkElement (next_id p)
                      (fresh_run (PyStr.replace (paragraph_text p) old new))]
           (S (next_id p)),
         PyNone).
Proof.
  intros [Hnd _] Hex Hc. unfold deep_replace_text_in_paragraph.
  rewrite for_runs_noop by (assumption || apply incl_refl).
  cbn [bind negb andb]. rewrite Hc.
  destruct p as [cs nxt]. unfold runs in *. cbn [children] in *.
  rewrite remove_all by assumption. reflexivity.
Qed.

(** [old_text] is not in the text of the paragraph: nothing happens. *)
Lemma deep_replace_noop fuel old new p :
  PyStr.contains (paragraph_text p) old = false ->
  deep_replace_text_in_paragraph fuel p old new = Ret (p, PyNone).
Proof.
  intros Hc. unfold deep_replace_text_in_paragraph.
  rewrite for_runs_noop by (now apply no_run_contains || apply incl_refl).
  cbn [bind negb andb]. now rewrite Hc.
Qed.

(** ** Replacing run by run and replacing in the whole text *)

Lemma no_straddle2_spec old s t :
  no_straddle2 old s t = true ->
  forall i, i < length s ->
            PyStr.startswith (skipn i (s ++ t)) old = true ->
            i + length old <= length s.
Proof.
  unfold no_straddle2. rewrite forallb_forall. intros H i Hi E.
  specialize (H i). rewrite E in H. simpl in H.
  apply Nat.leb_le, H, in_seq. lia.
Qed.

(** With no match across the seam, the scan of [s ++ t] is the scan of [s]
    followed by the scan of [t]. *)
Lemma replace_scan_app old new t :
  forall s k,
    k <= length s ->
    (forall i, i < length s ->
               PyStr.startswith (skipn i (s ++ t)) old = true ->
               i + length old <= length s) ->
    PyStr.replace_scan (s ++ t) old new k
    = PyStr.replace_scan s old new k ++ PyStr.replace_scan t old new 0.
Proof.
  induction s as [|c s IH]; intros k Hk H.
  - simpl in Hk. replace k with 0 by lia. reflexivity.
  - assert (Htl : forall i, i < length s ->
                   PyStr.startswith (skipn i (s ++ t)) old = true ->
                   i + length old <= length s).
    { intros i Hi E. specialize (H (S i)). simpl in H.
      specialize (H ltac:(lia) E). lia. }
    cbn [app PyStr.replace_scan]. destruct k as [|k].
    + destruct (PyStr.startswith (c :: s ++ t) old) eqn:E.
      * pose proof (H 0 ltac:(simpl; lia) E) as Hlen. simpl in Hlen.
        rewrite (@startswith_app_inv (c :: s) old t E Hlen).
        rewrite IH by (assumption || lia). now rewrite app_assoc.
      * destruct (PyStr.startswith (c :: s) old) eqn:E'.
        -- apply startswith_app with (t := t) in E'. cbn [app] in E'. congruence.
        -- rewrite IH by (assumption || lia). reflexivity.
    + apply IH; [simpl in Hk; lia | assumption].
Qed.

Lemma replace_concat old new texts :
  old <> [] -> no_straddle old texts = true ->
  PyStr.replace (concat texts) old new
  = concat (map (fun t => PyStr.replace t old new) texts).
Proof.
  intros Hne.
  assert (R : forall s, PyStr.replace s old new = PyStr.replace_scan s old new 0)
    by (intros; destruct old; [congruence | reflexivity]).
  induction texts as [|t ts IH]; intros H.
  - rewrite R. reflexivity.
  - cbn [no_straddle] in H. apply andb_true_iff in H as [H1 H2].
    cbn [concat map]. rewrite <- IH by assumption. rewrite !R.
    apply replace_scan_app; [lia|]. now apply no_straddle2_spec.
Qed.

(** What a run splits into reads as the run with the replacement done. *)
Lemma pieces_text old new r :
  old <> [] ->
  concat (map text (pieces old new r)) = PyStr.replace (text r) old new.
Proof.
  intros Hne. unfold pieces. destruct (PyStr.contains (text r) old) eqn:E.
  - destruct (parts_of_spec (text r) new Hne) as [lits [Hs Ep]].
    rewrite Ep, map_map. cbn [text set_text]. rewrite map_id.
    now apply splits_replace.
  - simpl. rewrite app_nil_r.
    destruct old; [congruence|]. cbn [PyStr.replace].
    now rewrite replace_scan_none.
Qed.

(** ... and every piece has the style of the run. *)
Lemma pieces_formatting old new r :
  Forall (fun r' => formatting r' = formatting r) (pieces old new r).
Proof.
  unfold pieces. destruct (PyStr.contains (text r) old).
  - apply Forall_map, Forall_forall. reflexivity.
  - constructor; [reflexivity | constructor].
Qed.

Lemma flat_map_text old new rs :
  old <> [] ->
  concat (map text (flat_map (pieces old new) rs))
  = concat (map (fun r => PyStr.replace (text r) old new) rs).
Proof.
  intros Hne. induction rs as [|r rs IH]; [reflexivity|].
  cbn [flat_map map concat]. now rewrite map_app, concat_app, pieces_text, IH.
Qed.

(** ** The scan: leftmost, non-overlapping, terminating *)

Lemma find_upper s sub start :
  PyStr.find s sub start <> (-1)%Z ->
  (PyStr.find s sub start + PyStr.len sub <= PyStr.len s)%Z.
Proof.
  unfold PyStr.find, PyStr.len.
  set (st := PyStr.adjust (Z.of_nat (length s)) start).
  assert (Hst : (0 <= st)%Z)
    by (subst st; unfold PyStr.adjust; destruct (Z.ltb_spec start 0); lia).
  destruct (Z.ltb_spec (Z.of_nat (length s)) st); [congruence|].
  destruct (search_spec (skipn (Z.to_nat st) s) sub (Z.to_nat st))
    as [[H1 _] | [k (H1 & H2 & H3 & _)]]; rewrite H1; [congruence|].
  intros _. apply startswith_length in H3.
  rewrite !length_skipn in *. lia.
Qed.

(** C3. Within the text of one run the occurrences of a non-empty
    [old_text] are matched from left to right without overlap: the scan
    ends, and the parts it returns are [l0; new; l1; new; ...; lk] where
    the text is [l0 ++ old ++ l1 ++ old ++ ... ++ lk], each displayed
    [old] is the leftmost place where [old] starts behind the previous
    match, and no [old] starts in [lk]; after a match at [idx] the scan
    goes on at [idx + len(old)], strictly behind where it was; glued
    together the parts are the string-level replacement. For ["aaaa"],
    ["aa"], ["b"] that is two matches and ["bb"]. *)
Theorem scan_leftmost_nonoverlapping (text old_text new_text : str) (fuel : nat) :
  old_text <> [] -> length text < fuel ->
  (exists lits,
      splits old_text text lits /\
      split_parts fuel text old_text new_text = Ret (interleave new_text lits) /\
      concat (interleave new_text lits) = PyStr.replace text old_text new_text) /\
  (forall parts start parts' start',
      scan_step text old_text new_text parts start = Next parts' start' ->
      start' = (PyStr.find text old_text start + PyStr.len old_text)%Z /\
      (start <= PyStr.find text old_text start)%Z /\
      (PyStr.find text old_text start < start')%Z).
Proof.
  intros Hne Hf. split.
  - destruct (@split_parts_spec text old_text new_text fuel Hne Hf)
      as [lits [H1 H2]].
    exists lits. split; [assumption|]. split; [assumption|].
    now apply splits_replace.
  - intros parts start parts' start' H.
    pose proof H as H'. apply scan_step_advances in H' as [Hlt Heq]; [|assumption].
    split; [now rewrite Heq|].
    unfold scan_step in H.
    destruct (Z.eqb_spec (PyStr.find text old_text start) (-1)); [discriminate|].
    assert (0 < PyStr.len old_text)%Z
      by (unfold PyStr.len; destruct old_text; [congruence | simpl; lia]).
    destruct (find_lower text old_text start) as [E|E]; [congruence | lia].
Qed.

Lemma scan_leftmost_nonoverlapping_aaaa :
  exists lits,
    splits (lit "aa") (lit "aaaa") lits /\
    matches lits = 2 /\
    split_parts 5 (lit "aaaa") (lit "aa") (lit "b")
    = Ret (interleave (lit "b") lits) /\
    concat (interleave (lit "b") lits) = lit "bb".
Proof.
  destruct (@scan_leftmost_nonoverlapping (lit "aaaa") (lit "aa") (lit "b") 5)
    as [[lits (H1 & H2 & H3)] _]; [discriminate | simpl; lia |].
  exists lits. split; [exact H1|]. split; [|split; [exact H2 | exact H3]].
  assert (E : length (interleave (lit "b") lits) = 5).
  { assert (E : Ret [[]; lit "b"; []; lit "b"; []]
                = Ret (interleave (lit "b") lits))
      by (rewrite <- H2; reflexivity).
    apply (f_equal (fun r => match r with Ret x => length x | _ => 0 end)) in E.
    symmetry. exact E. }
  destruct lits as [|l0 [|l1 [|l2 [|l3 lits]]]]; simpl in E; try discriminate E.
  reflexivity.
Defined.

Example aaaa_in_a_paragraph :
  exists p',
    deep_replace_text_in_paragraph 5 para_aaaa (lit "aa") (lit "b")
    = Ret (p', PyNone) /\
    map text (run_list p') = [[]; lit "b"; []; lit "b"; []] /\
    paragraph_text p' = lit "bb".
Proof.
  eexists. split; [vm_compute; reflexivity|]. split; vm_compute; reflexivity.
Qed.

Lemma enough_fuel_paragraph p : enough_fuel (S (length (paragraph_text p))) p.
Proof.
  unfold enough_fuel, paragraph_text. induction (run_list p) as [|r rs IH].
  - constructor.
  - cbn [map concat]. rewrite length_app. constructor; [lia|].
    eapply Forall_impl; [|exact IH]. simpl. intros; lia.
Qed.

(** C7. For a non-empty [old_text] the scan of a run ends: every
    iteration that goes on moves the scan position strictly forward and
    never past the end of the text, so more iterations than the text has
    characters are never needed; and the pass over a paragraph ends within
    the fuel given by the size of its text. *)
Theorem scan_terminates (p : Paragraph) (txt old_text new_text : str) :
  old_text <> [] -> wf p ->
  (forall parts start parts' start',
      scan_step txt old_text new_text parts start = Next parts' start' ->
      (start < start' /\ start' <= PyStr.len txt)%Z) /\
  (forall fuel, length txt < fuel ->
                exists parts, split_parts fuel txt old_text new_text = Ret parts) /\
  (forall fuel, length (paragraph_text p) < fuel ->
                exists p', deep_replace_text_in_paragraph fuel p old_text new_text
                           = Ret (p', PyNone)).
Proof.
  intros Hne Hwf. split; [|split].
  - intros parts start parts' start' H.
    pose proof H as H'. apply scan_step_advances in H' as [Hlt Heq]; [|assumption].
    split; [assumption|]. rewrite <- Heq. apply find_upper.
    unfold scan_step in H.
    destruct (Z.eqb_spec (PyStr.find txt old_text start) (-1)); [discriminate | assumption].
  - intros fuel Hf.
    destruct (@split_parts_spec txt old_text new_text fuel Hne Hf) as [lits [_ H]].
    eauto.
  - intros fuel Hf.
    assert (He : enough_fuel fuel p).
    { eapply Forall_impl; [|apply enough_fuel_paragraph]. simpl. intros; lia. }
    destruct (existsb (fun r => PyStr.contains (text r) old_text) (run_list p)) eqn:Ex.
    + rewrite deep_replace_split by assumption. eauto.
    + destruct (PyStr.contains (paragraph_text p) old_text) eqn:Ec.
      * rewrite deep_replace_fallback by assumption. eauto.
      * rewrite deep_replace_noop by assumption. eauto.
Qed.

Lemma wf_paragraph_of_runs rs : wf (paragraph_of_runs rs).
Proof.
  unfold wf, runs, paragraph_of_runs. cbn [children next_id].
  assert (E : map el_id (map (fun ir => mkElement (fst ir) (snd ir))
                             (combine (seq 0 (length rs)) rs))
              = seq 0 (length rs)).
  { rewrite map_map. cbn [el_id].
    generalize 0. induction rs as [|r rs IH]; intros n; [reflexivity|].
    simpl. now rewrite IH. }
  rewrite E. split; [apply seq_NoDup|].
  apply Forall_forall. intros x Hx. apply in_seq in Hx. lia.
Qed.

Lemma scan_terminates_witness :
  (exists parts, split_parts 12 (lit "Hello world") (lit "o") (lit "0") = Ret parts) /\
  (exists p', deep_replace_text_in_paragraph 13 para_hello (lit "o") (lit "0")
              = Ret (p', PyNone)).
Proof.
  destruct (@scan_terminates para_hello (lit "Hello world") (lit "o") (lit "0"))
    as (_ & H2 & H3); [discriminate | apply wf_paragraph_of_runs |].
  split; [apply H2; simpl; lia | apply H3; simpl; lia].
Defined.

(** With an empty [old_text] the scan never ends: the position does not
    move. *)
Lemma scan_empty_old_diverges text new_text :
  forall fuel parts (n : nat),
    n <= length text ->
    scan_loop fuel text [] new_text parts (Z.of_nat n) = Diverge.
Proof.
  induction fuel as [|fuel IH]; intros parts n Hn; [reflexivity|].
  cbn [scan_loop]. unfold scan_step. rewrite find_nat by assumption.
  destruct (skipn n text); cbn [PyStr.search PyStr.startswith].
  - destruct (Z.eqb_spec (Z.of_nat n) (-1)); [lia|].
    replace (Z.of_nat n + PyStr.len [])%Z with (Z.of_nat n)
      by (unfold PyStr.len; simpl; lia).
    now apply IH.
  - destruct (Z.eqb_spec (Z.of_nat n) (-1)); [lia|].
    replace (Z.of_nat n + PyStr.len [])%Z with (Z.of_nat n)
      by (unfold PyStr.len; simpl; lia).
    now apply IH.
Qed.

(** ** The claims about a call of the replacer *)

(** Well-formedness and fuel of a sample paragraph, by evaluation. *)
Ltac by_evaluation :=
  lazymatch goal with
  | |- wf _ =>
      unfold wf, runs; cbn;
      split; repeat (constructor; [simpl; lia|]); constructor
  | |- enough_fuel _ _ =>
      unfold enough_fuel; cbn; repeat (constructor; [simpl; lia|]); constructor
  | |- _ <> _ => discriminate
  | |- _ => vm_compute; reflexivity
  end.

(** C5. If [old_text] does not occur in the text of the paragraph, the
    call changes nothing: the paragraph afterwards is the paragraph before,
    run for run (and [process_word_file], which tests for the occurrence
    first, leaves the paragraph as it is too). *)
Theorem replace_absent_is_noop (fuel : nat) (p : Paragraph) (old_text new_text : str) :
  old_text <> [] ->
  PyStr.contains (paragraph_text p) old_text = false ->
  deep_replace_text_in_paragraph fuel p old_text new_text = Ret (p, PyNone) /\
  apply_rule fuel p (old_text, new_text) = Ret p.
Proof.
  intros _ Hc. split; [now apply deep_replace_noop|].
  unfold apply_rule. now rewrite Hc.
Qed.

Lemma replace_absent_is_noop_witness :
  lit "xyz" <> [] /\
  PyStr.contains (paragraph_text para_hello) (lit "xyz") = false /\
  deep_replace_text_in_paragraph 0 para_hello (lit "xyz") (lit "q")
  = Ret (para_hello, PyNone) /\
  apply_rule 0 para_hello (lit "xyz", lit "q") = Ret para_hello.
Proof.
  split; [by_evaluation|]. split; [by_evaluation|].
  apply (@replace_absent_is_noop 0 para_hello (lit "xyz") (lit "q"));
    by_evaluation.
Defined.

(** C2. If no run contains [old_text] but the text of the paragraph does,
    then after the call the paragraph has exactly one run, a new one with
    no run properties, and its text is the string-level replacement done on
    the text the paragraph had. *)
Theorem replace_straddling_fallback (fuel : nat) (p : Paragraph)
        (old_text new_text : str) :
  old_text <> [] -> wf p ->
  existsb (fun r => PyStr.contains (text r) old_text) (run_list p) = false ->
  PyStr.contains (paragraph_text p) old_text = true ->
  exists p',
    deep_replace_text_in_paragraph fuel p old_text new_text = Ret (p', PyNone) /\
    paragraph_text p' = PyStr.replace (paragraph_text p) old_text new_text /\
    length (run_list p') = 1 /\
    run_list p' = [fresh_run (PyStr.replace (paragraph_text p) old_text new_text)].
Proof.
  intros _ Hwf Hex Hc. eexists. split; [now apply deep_replace_fallback|].
  unfold paragraph_text, run_list. cbn [children map concat text fresh_run length].
  rewrite app_nil_r. repeat split; reflexivity.
Qed.

Lemma replace_straddling_fallback_witness :
  exists p',
    deep_replace_text_in_paragraph 0 para_foo_bar (lit "ooba") (lit "X")
    = Ret (p', PyNone) /\
    paragraph_text p' = lit "fXr" /\
    length (run_list p') = 1.
Proof.
  destruct (@replace_straddling_fallback 0 para_foo_bar (lit "ooba") (lit "X"))
    as [p' (H1 & H2 & H3 & _)]; [by_evaluation .. |].
  exists p'. split; [exact H1|]. split; [|exact H3].
  rewrite H2. by_evaluation.
Defined.

(** C1, as the code has it. If some run contains a non-empty [old_text],
    every run is replaced, in place, by the runs it splits into: these
    have the style of the run they come from, and their texts, glued
    together, are the string-level replacement done on the text of that
    run. So the text of the paragraph becomes the concatenation of the
    replacements done run by run; it is the replacement done on the whole
    text when no place where [old_text] starts crosses the end of a
    run. *)
Theorem replace_within_runs (fuel : nat) (p : Paragraph) (old_text new_text : str) :
  old_text <> [] -> wf p -> enough_fuel fuel p ->
  existsb (fun r => PyStr.contains (text r) old_text) (run_list p) = true ->
  exists p',
    deep_replace_text_in_paragraph fuel p old_text new_text = Ret (p', PyNone) /\
    run_list p' = flat_map (pieces old_text new_text) (run_list p) /\
    Forall (fun r =>
              Forall (fun r' => formatting r' = formatting r)
                     (pieces old_text new_text r) /\
              concat (map text (pieces old_text new_text r))
              = PyStr.replace (text r) old_text new_text)
           (run_list p) /\
    paragraph_text p'
    = concat (map (fun r => PyStr.replace (text r) old_text new_text) (run_list p)) /\
    (no_straddle old_text (map text (run_list p)) = true ->
     paragraph_text p' = PyStr.replace (paragraph_text p) old_text new_text).
Proof.
  intros Hne Hwf Hf Hex. eexists. split; [now apply deep_replace_split|].
  assert (E : run_list (mkParagraph
                          (split_all old_text new_text (next_id p) (children p))
                          (split_next old_text new_text (next_id p) (children p)))
              = flat_map (pieces old_text new_text) (run_list p))
    by (unfold run_list; cbn [children]; now apply run_list_split_all).
  split; [exact E|]. split; [|split].
  - apply Forall_forall. intros r _. split.
    + apply pieces_formatting.
    + now apply pieces_text.
  - unfold paragraph_text at 1. rewrite E. now apply flat_map_text.
  - intros Hns. unfold paragraph_text. rewrite E, flat_map_text by assumption.
    rewrite replace_concat by assumption. now rewrite map_map.
Qed.

Lemma replace_within_runs_witness :
  exists p',
    deep_replace_text_in_paragraph 12 para_hello (lit "o") (lit "0")
    = Ret (p', PyNone) /\
    Forall (fun r' => formatting r' = formatting (bold_run "Hello world"))
           (firstn 5 (run_list p')) /\
    paragraph_text p' = lit "Hell0 w0rld!".
Proof.
  destruct (@replace_within_runs 12 para_hello (lit "o") (lit "0"))
    as [p' (H1 & H2 & _ & _ & H5)]; [by_evaluation .. |].
  exists p'. split; [exact H1|]. split.
  - rewrite H2. vm_compute. repeat constructor.
  - rewrite H5 by by_evaluation. by_evaluation.
Defined.

(** The claim C1 as stated fails: ["ooba"] is within the third run, and
    the occurrence that straddles the first two runs stays. *)
Lemma replace_within_runs_not_whole_text :
  existsb (fun r => PyStr.contains (text r) (lit "ooba")) (run_list para_foo_bar_ooba)
  = true /\
  exists p',
    deep_replace_text_in_paragraph 5 para_foo_bar_ooba (lit "ooba") (lit "X")
    = Ret (p', PyNone) /\
    paragraph_text p' = lit "foobarX" /\
    PyStr.replace (paragraph_text para_foo_bar_ooba) (lit "ooba") (lit "X")
    = lit "fXrX" /\
    paragraph_text p'
    <> PyStr.replace (paragraph_text para_foo_bar_ooba) (lit "ooba") (lit "X").
Proof.
  split; [by_evaluation|]. eexists.
  split; [vm_compute; reflexivity|].
  split; [vm_compute; reflexivity|].
  split; [vm_compute; reflexivity|].
  vm_compute. discriminate.
Qed.

Lemma length_interleave new lits :
  lits <> [] -> length (interleave new lits) = 2 * matches lits + 1.
Proof.
  unfold matches. induction lits as [|l lits IH]; [congruence|]. intros _.
  destruct lits as [|l' lits]; [reflexivity|].
  rewrite interleave_cons by discriminate. cbn [length] in *.
  rewrite IH by discriminate. lia.
Qed.

(** A text that contains [old] splits with at least one match. *)
Lemma splits_contains old s lits :
  splits old s lits -> PyStr.contains s old = true -> 1 <= matches lits.
Proof.
  intros H Hc. destruct H as [s H | l s lits Hl H].
  - congruence.
  - apply splits_nonempty in H. unfold matches.
    destruct lits; [congruence | simpl; lia].
Qed.

(** C6, as the code has it. With an empty [new_text], every match within
    a run becomes a run of its own, with empty text and the style of the
    run it is cut from: a run with [m] matches becomes [2 * m + 1] runs,
    the literal segments and the empty replacements in turn; the first
    of them is the original run, holding the first segment, which may be
    empty. *)
Theorem empty_replacement_runs (fuel : nat) (p : Paragraph) (old_text : str) :
  old_text <> [] -> wf p -> enough_fuel fuel p ->
  existsb (fun r => PyStr.contains (text r) old_text) (run_list p) = true ->
  exists p',
    deep_replace_text_in_paragraph fuel p old_text [] = Ret (p', PyNone) /\
    children p' = split_all old_text [] (next_id p) (children p) /\
    run_list p' = flat_map (pieces old_text []) (run_list p) /\
    forall e nxt,
      In e (children p) -> PyStr.contains (text (el_run e)) old_text = true ->
      exists lits,
        splits old_text (text (el_run e)) lits /\
        1 <= matches lits /\
        split_elem old_text [] nxt e
        = mkElement (el_id e) (set_text (hd [] lits) (el_run e))
          :: new_elems nxt (el_run e) (tl (interleave [] lits)) /\
        map text (pieces old_text [] (el_run e)) = interleave [] lits /\
        length (pieces old_text [] (el_run e)) = 2 * matches lits + 1.
Proof.
  intros Hne Hwf Hf Hex. eexists. split; [now apply deep_replace_split|].
  split; [reflexivity|]. split.
  - unfold run_list; cbn [children]; now apply run_list_split_all.
  - intros e nxt _ Hc.
    destruct (parts_of_spec (text (el_run e)) [] Hne) as [lits [Hs Ep]].
    exists lits. split; [exact Hs|].
    split; [eapply splits_contains; eassumption|].
    pose proof (splits_nonempty Hs) as Hl.
    destruct (@interleave_hd [] lits Hl) as [more Hm].
    unfold split_elem, pieces. rewrite Hc, Ep. split; [|split].
    + rewrite Hm. reflexivity.
    + rewrite map_map. cbn [text set_text]. apply map_id.
    + rewrite length_map. now apply length_interleave.
Qed.

Lemma empty_replacement_runs_witness :
  exists p',
    deep_replace_text_in_paragraph 4 para_abc (lit "b") [] = Ret (p', PyNone) /\
    run_list p' = [bold_run "a"; bold_run EmptyString; bold_run "c"].
Proof.
  destruct (@empty_replacement_runs 4 para_abc (lit "b"))
    as [p' (H1 & _ & H3 & _)]; [by_evaluation .. |].
  exists p'. split; [exact H1|]. rewrite H3. by_evaluation.
Defined.

(** The claim C6 as stated fails: removing ["b"] from the run ["abc"]
    leaves three runs, the one in the middle empty, not the two runs
    ["a"], ["c"]. *)
Lemma empty_replacement_is_materialized :
  exists p',
    deep_replace_text_in_paragraph 4 para_abc (lit "b") ([])
    = Ret (p', PyNone) /\
    map text (run_list p') = [lit "a"; []; lit "c"] /\
    length (run_list p') = 3 /\
    map text (run_list p') <> [lit "a"; lit "c"].
Proof.
  eexists. split; [vm_compute; reflexivity|].
  split; [vm_compute; reflexivity|]. split; [vm_compute; reflexivity|].
  vm_compute. discriminate.
Qed.

Lemma pieces_length old new r :
  old <> [] ->
  1 <= length (pieces old new r) /\
  (PyStr.contains (text r) old = true -> 3 <= length (pieces old new r)).
Proof.
  intros Hne. unfold pieces. destruct (PyStr.contains (text r) old) eqn:Ec.
  - destruct (parts_of_spec (text r) new Hne) as [lits [Hs Ep]].
    rewrite length_map, Ep, length_interleave by (eapply splits_nonempty; eauto).
    pose proof (splits_contains Hs Ec). split; [lia | intros; lia].
  - simpl. split; [lia | discriminate].
Qed.

Lemma flat_map_pieces_longer old new rs :
  old <> [] ->
  length rs <= length (flat_map (pieces old new) rs) /\
  (existsb (fun r => PyStr.contains (text r) old) rs = true ->
   length rs < length (flat_map (pieces old new) rs)).
Proof.
  intros Hne. induction rs as [|r rs [IH1 IH2]]; [split; [simpl; lia | discriminate]|].
  cbn [flat_map existsb length]. rewrite length_app.
  destruct (@pieces_length old new r Hne) as [P1 P3]. split; [lia|].
  intros H. apply orb_true_iff in H as [H|H].
  - specialize (P3 H). lia.
  - specialize (IH2 H). lia.
Qed.

(** When no run contains a non-empty [old] that the text of the
    paragraph contains, the paragraph has at least two runs. *)
Lemma straddle_needs_two_runs p old :
  old <> [] ->
  existsb (fun r => PyStr.contains (text r) old) (run_list p) = false ->
  PyStr.contains (paragraph_text p) old = true ->
  2 <= length (run_list p).
Proof.
  intros Hne Hex Hc. unfold paragraph_text in Hc.
  destruct (run_list p) as [|r [|r' rs]]; [| |simpl; lia]; exfalso.
  - simpl in Hc. apply contains_iff in Hc as [k [Hk E]].
    rewrite skipn_nil in E. destruct old; [congruence | discriminate].
  - cbn [map concat existsb] in *. rewrite app_nil_r in Hc.
    rewrite orb_false_r in Hex. congruence.
Qed.

(** C4, as the code has it. The function has no [return] statement: the
    call returns [None], whether or not a replacement occurred. A
    replacement occurs, that is, the runs of the paragraph change, exactly
    when [old_text] occurs in the text of the paragraph. *)
Theorem replace_returns_none (fuel : nat) (p : Paragraph) (old_text new_text : str) :
  old_text <> [] -> wf p -> enough_fuel fuel p ->
  exists p',
    deep_replace_text_in_paragraph fuel p old_text new_text = Ret (p', PyNone) /\
    (run_list p' <> run_list p <->
     PyStr.contains (paragraph_text p) old_text = true).
Proof.
  intros Hne Hwf Hf.
  destruct (existsb (fun r => PyStr.contains (text r) old_text) (run_list p)) eqn:Ex.
  - eexists. split; [now apply deep_replace_split|].
    unfold run_list at 1. cbn [children]. rewrite run_list_split_all by assumption.
    fold (run_list p). split.
    + intros _. apply existsb_exists in Ex as [r [Hin Hr]].
      eapply contains_run_paragraph; eassumption.
    + intros _ E. apply (f_equal (@length _)) in E.
      destruct (@flat_map_pieces_longer old_text new_text (run_list p) Hne) as [_ H].
      specialize (H Ex). lia.
  - destruct (PyStr.contains (paragraph_text p) old_text) eqn:Ec.
    + eexists. split; [now apply deep_replace_fallback|].
      split; [reflexivity|]. intros _ E.
      pose proof (straddle_needs_two_runs p Hne Ex Ec) as H2.
      apply (f_equal (@length _)) in E. unfold run_list at 1 in E.
      cbn [children map length] in E. lia.
    + exists p. split; [now apply deep_replace_noop|].
      split; [congruence | discriminate].
Qed.

Lemma replace_returns_none_witness :
  exists p',
    deep_replace_text_in_paragraph 5 para_aaaa (lit "aa") (lit "b")
    = Ret (p', PyNone) /\
    run_list p' <> run_list para_aaaa.
Proof.
  destruct (@replace_returns_none 5 para_aaaa (lit "aa") (lit "b"))
    as [p' [H1 H2]]; [by_evaluation .. |].
  exists p'. split; [exact H1|]. apply H2. by_evaluation.
Defined.

(** The claim C4 as stated fails: a replacement occurs and the value
    returned is [None], not [True]. *)
Lemma replace_returns_no_boolean :
  (exists p',
      deep_replace_text_in_paragraph 5 para_aaaa (lit "aa") (lit "b")
      = Ret (p', PyNone) /\
      paragraph_text para_aaaa = lit "aaaa" /\
      paragraph_text p' = lit "bb") /\
  forall p' b,
    deep_replace_text_in_paragraph 5 para_aaaa (lit "aa") (lit "b")
    <> Ret (p', PyBool b).
Proof.
  split.
  - eexists. split; [vm_compute; reflexivity|].
    split; vm_compute; reflexivity.
  - intros p' b. vm_compute. discriminate.
Qed.

(** ** The font normaliser *)

Lemma set_font_children name size p id :
  set_font name size p id
  = mkParagraph (map (fun e => if is_elem id e then font_elem name size e else e)
                     (children p))
                (next_id p).
Proof.
  unfold set_font, modify. cbn [children next_id]. f_equal.
  rewrite map_map. apply map_ext. intros e.
  destruct (is_elem id e) eqn:E; unfold is_elem in *; cbn [el_id el_run].
  - now rewrite E.
  - now rewrite E.
Qed.

Lemma font_elem_idem name size e :
  font_elem name size (font_elem name size e) = font_elem name size e.
Proof. reflexivity. Qed.

(** The loop over the runs whose identities are [ids]. *)
Lemma fold_set_font name size ids :
  forall p,
    fold_left (set_font name size) ids p
    = mkParagraph
        (map (fun e => if existsb (Nat.eqb (el_id e)) ids
                       then font_elem name size e else e)
             (children p))
        (next_id p).
Proof.
  induction ids as [|id ids IH]; intros p.
  - cbn [fold_left existsb]. destruct p as [cs n]. cbn [children next_id].
    now rewrite map_id.
  - cbn [fold_left]. rewrite IH, set_font_children. cbn [children next_id].
    f_equal. rewrite map_map. apply map_ext. intros e.
    cbn [existsb]. unfold is_elem.
    destruct (el_id e =? id) eqn:E; cbn [orb].
    + cbn [font_elem el_id]. destruct (existsb _ ids); reflexivity.
    + reflexivity.
Qed.

Lemma font_paragraph_spec name size p :
  font_paragraph name size p
  = mkParagraph (map (font_elem name size) (children p)) (next_id p).
Proof.
  unfold font_paragraph. rewrite fold_set_font. f_equal.
  apply map_ext_in. intros e He.
  assert (H : existsb (Nat.eqb (el_id e)) (runs p) = true).
  { apply existsb_exists. exists (el_id e). split.
    - unfold runs. now apply in_map.
    - apply Nat.eqb_refl. }
  now rewrite H.
Qed.

Lemma font_paragraph_runs name size p :
  run_list (font_paragraph name size p)
  = map (with_font name size) (run_list p).
Proof.
  rewrite font_paragraph_spec. unfold run_list. cbn [children].
  rewrite !map_map. reflexivity.
Qed.

Lemma font_paragraph_has_font name size p :
  Forall (has_font name size) (run_list (font_paragraph name size p)).
Proof.
  rewrite font_paragraph_runs. apply Forall_map, Forall_forall.
  intros r _. split; reflexivity.
Qed.

Lemma font_paragraph_idem name size p :
  font_paragraph name size (font_paragraph name size p)
  = font_paragraph name size p.
Proof.
  rewrite !font_paragraph_spec. cbn [children next_id]. f_equal.
  rewrite map_map. apply map_ext. intros e. apply font_elem_idem.
Qed.

Lemma map_idem {A} (f : A -> A) l :
  (forall x, f (f x) = f x) -> map f (map f l) = map f l.
Proof. intros H. rewrite map_map. apply map_ext. exact H. Qed.

Lemma font_cell_idem c : font_cell (font_cell c) = font_cell c.
Proof.
  unfold font_cell. cbn [cell_paragraphs]. f_equal.
  apply map_idem. intros p. apply font_paragraph_idem.
Qed.

Lemma font_row_idem r : font_row (font_row r) = font_row r.
Proof.
  unfold font_row. cbn [cells]. f_equal. apply map_idem, font_cell_idem.
Qed.

Lemma font_table_idem t : font_table (font_table t) = font_table t.
Proof.
  unfold font_table. cbn [rows]. f_equal. apply map_idem, font_row_idem.
Qed.

Lemma font_footer_idem s : font_footer (font_footer s) = font_footer s.
Proof.
  unfold font_footer. cbn [footer_paragraphs]. f_equal.
  apply map_idem. intros p. apply font_paragraph_idem.
Qed.

(** C8. The font pass gives every run of every body paragraph and of
    every paragraph of every table cell Calibri at 12pt, and every run of
    every footer paragraph Calibri at 8pt; no run is added, dropped or
    otherwise changed; and running the pass on its own result changes
    nothing. *)
Theorem change_font_regions_idempotent (doc : Document) :
  body_runs (change_font doc)
  = map (map (with_font Calibri (Pt 12))) (body_runs doc) /\
  table_runs (change_font doc)
  = map (map (map (map (map (with_font Calibri (Pt 12)))))) (table_runs doc) /\
  footer_runs (change_font doc)
  = map (map (map (with_font Calibri (Pt 8)))) (footer_runs doc) /\
  Forall (Forall (has_font Calibri 152400)) (body_runs (change_font doc)) /\
  Forall (Forall (Forall (Forall (Forall (has_font Calibri 152400)))))
         (table_runs (change_font doc)) /\
  Forall (Forall (Forall (has_font Calibri 101600)))
         (footer_runs (change_font doc)) /\
  change_font (change_font doc) = change_font doc.
Proof.
  assert (B : body_runs (change_font doc)
              = map (map (with_font Calibri (Pt 12))) (body_runs doc)).
  { unfold body_runs, change_font. cbn [paragraphs]. rewrite !map_map.
    apply map_ext. intros p. apply font_paragraph_runs. }
  assert (T : table_runs (change_font doc)
              = map (map (map (map (map (with_font Calibri (Pt 12))))))
                    (table_runs doc)).
  { unfold table_runs, change_font. cbn [tables]. rewrite !map_map.
    apply map_ext. intros t. unfold font_table. cbn [rows]. rewrite !map_map.
    apply map_ext. intros row. unfold font_row. cbn [cells]. rewrite !map_map.
    apply map_ext. intros c. unfold cell_runs, font_cell. cbn [cell_paragraphs].
    rewrite !map_map. apply map_ext. intros p. apply font_paragraph_runs. }
  assert (F : footer_runs (change_font doc)
              = map (map (map (with_font Calibri (Pt 8)))) (footer_runs doc)).
  { unfold footer_runs, change_font. cbn [sections]. rewrite !map_map.
    apply map_ext. intros s. unfold font_footer. cbn [footer_paragraphs].
    rewrite !map_map. apply map_ext. intros p. apply font_paragraph_runs. }
  assert (Hf : forall size l, Forall (has_font Calibri size)
                                     (map (with_font Calibri size) l))
    by (intros; apply Forall_map, Forall_forall; intros r _; split; reflexivity).
  split; [exact B|]. split; [exact T|]. split; [exact F|].
  split; [|split; [|split]].
  - rewrite B. apply Forall_map, Forall_forall. intros l _. apply (Hf (Pt 12)).
  - rewrite T. do 4 (apply Forall_map, Forall_forall; intros ? _).
    apply (Hf (Pt 12)).
  - rewrite F. do 2 (apply Forall_map, Forall_forall; intros ? _).
    apply (Hf (Pt 8)).
  - unfold change_font. cbn [paragraphs tables sections]. f_equal.
    + apply map_idem. intros p. apply font_paragraph_idem.
    + apply map_idem, font_table_idem.
    + apply map_idem, font_footer_idem.
Qed.

Example change_font_sample :
  body_runs (change_font sample_document)
  = [[mkRun (lit "Body") (Some true) None None (Some Calibri) (Some (Pt 12)) None]] /\
  footer_runs (change_font sample_document)
  = [[[mkRun (lit "Footer") (Some true) None None (Some Calibri) (Some (Pt 8)) None]]] /\
  change_font (change_font sample_document) = change_font sample_document.
Proof. repeat split; vm_compute; reflexivity. Qed.

(** ** File names *)

Lemma replace_absent s old new :
  PyStr.contains s old = false -> PyStr.replace s old new = s.
Proof.
  intros H. destruct old as [|a old].
  - rewrite contains_false_iff in H. specialize (H 0 ltac:(lia)).
    rewrite startswith_nil in H. discriminate.
  - cbn [PyStr.replace]. now apply replace_scan_none.
Qed.

Lemma rename_substitute file_name rules :
  rename file_name rules = substitute_all rules file_name.
Proof.
  revert file_name; induction rules as [|[old new] rules IH]; intros file_name.
  - reflexivity.
  - cbn [rename substitute_all fold_left fst snd]. apply IH.
Qed.

Lemma process_file_name_substitute file_name rules :
  process_file_name file_name rules = substitute_all rules file_name.
Proof.
  revert file_name; induction rules as [|[old new] rules IH]; intros file_name.
  - reflexivity.
  - cbn [process_file_name substitute_all fold_left fst snd].
    destruct (PyStr.contains file_name old) eqn:E.
    + apply IH.
    + rewrite replace_absent by assumption. apply IH.
Qed.

(** C9. The output file name is the original name with the rules applied
    one after the other in list order, each to the result of the one
    before, in [process_word_file] and in [process_file_name] alike; the
    rules are applied to the text of a paragraph in the same order; and
    ["Draft - Jan.docx"] under the rule (["Draft"], ["Final"]) becomes
    ["Final - Jan.docx"]. *)
Theorem filename_rules_in_order (file_name : str) (rules : list (str * str)) :
  rename file_name rules = substitute_all rules file_name /\
  process_file_name file_name rules = substitute_all rules file_name /\
  (forall old_text new_text rest,
      rename file_name ((old_text, new_text) :: rest)
      = rename (PyStr.replace file_name old_text new_text) rest) /\
  (forall fuel p rule rest,
      for_each (apply_rule fuel) p (rule :: rest)
      = (p' <- apply_rule fuel p rule ;; for_each (apply_rule fuel) p' rest)) /\
  rename (lit "Draft - Jan.docx") [(lit "Draft", lit "Final")]
  = lit "Final - Jan.docx" /\
  process_file_name (lit "Draft - Jan.docx") [(lit "Draft", lit "Final")]
  = lit "Final - Jan.docx".
Proof.
  split; [apply rename_substitute|].
  split; [apply process_file_name_substitute|].
  split; [reflexivity|]. split; [reflexivity|].
  split; vm_compute; reflexivity.
Qed.

(** The order of the rules matters: a later rule sees what an earlier one
    wrote. *)
Example rules_compose_sequentially :
  rename (lit "a.docx") [(lit "a", lit "b"); (lit "b", lit "c")] = lit "c.docx" /\
  rename (lit "a.docx") [(lit "b", lit "c"); (lit "a", lit "b")] = lit "b.docx".
Proof. split; vm_compute; reflexivity. Qed.

(** ** Computations that take fuel *)

Lemma settles_const {A} (r : result A) : r <> Diverge -> settles (fun _ => r) r.
Proof. intros H. split; [exact H|]. exists 0. reflexivity. Qed.

Lemma settles_ext {A} (c c' : nat -> result A) r :
  (forall f, c f = c' f) -> settles c r -> settles c' r.
Proof.
  intros E [H [f0 Hf]]. split; [exact H|]. exists f0. intros f Hle.
  rewrite <- E. now apply Hf.
Qed.

Lemma settles_unique {A} (c : nat -> result A) r r' :
  settles c r -> settles c r' -> r = r'.
Proof.
  intros [_ [f0 H0]] [_ [f1 H1]].
  rewrite <- (H0 (Nat.max f0 f1)), <- (H1 (Nat.max f0 f1)) by lia. reflexivity.
Qed.

Lemma settles_bind_ret {A B} (c : nat -> result A) (k : nat -> A -> result B) a r :
  settles c (Ret a) -> settles (fun f => k f a) r ->
  settles (fun f => bind (c f) (k f)) r.
Proof.
  intros [_ [f0 H0]] [Hr [f1 H1]]. split; [exact Hr|].
  exists (Nat.max f0 f1). intros f Hf.
  rewrite H0 by lia. cbn [bind]. apply H1. lia.
Qed.

Lemma settles_bind_raise {A B} (c : nat -> result A) (k : nat -> A -> result B) e :
  settles c (Raise e) -> settles (fun f => bind (c f) (k f)) (Raise e).
Proof.
  intros [_ [f0 H0]]. split; [discriminate|].
  exists f0. intros f Hf. now rewrite H0.
Qed.

Lemma terminates_const {A} (r : result A) : r <> Diverge -> terminates (fun _ => r).
Proof. intros H. exists r. now apply settles_const. Qed.

Lemma terminates_ext {A} (c c' : nat -> result A) :
  (forall f, c f = c' f) -> terminates c -> terminates c'.
Proof. intros E [r H]. exists r. eapply settles_ext; eassumption. Qed.

Lemma terminates_bind {A B} (c : nat -> result A) (k : nat -> A -> result B) :
  terminates c -> (forall a, terminates (fun f => k f a)) ->
  terminates (fun f => bind (c f) (k f)).
Proof.
  intros [r Hr] Hk. destruct r as [a | e |].
  - destruct (Hk a) as [r' Hr']. exists r'. eapply settles_bind_ret; eassumption.
  - exists (Raise e). now apply settles_bind_raise.
  - destruct Hr as [H _]. congruence.
Qed.

(** A computation that ignores its fuel and does not diverge. *)
Ltac const_terminates :=
  lazymatch goal with
  | |- terminates (fun _ => ?r) =>
      exact (@terminates_const _ r ltac:(discriminate))
  end.

Lemma terminates_for_each {St A} (body : nat -> St -> A -> result St) xs :
  (forall st x, In x xs -> terminates (fun f => body f st x)) ->
  forall st, terminates (fun f => for_each (body f) st xs).
Proof.
  induction xs as [|x xs IH]; intros H st.
  - exact (@terminates_const _ (Ret st) ltac:(discriminate)).
  - cbn [for_each].
    apply (@terminates_bind _ _ (fun f => body f st x)
                            (fun f st' => for_each (body f) st' xs)).
    + apply H. now left.
    + intros st'. apply IH. intros st'' y Hy. apply H. now right.
Qed.

Lemma terminates_for_all {A B} (g : nat -> A -> result B) xs :
  (forall x, In x xs -> terminates (fun f => g f x)) ->
  terminates (fun f => for_all (g f) xs).
Proof.
  induction xs as [|x xs IH]; intros H.
  - exact (@terminates_const _ (Ret []) ltac:(discriminate)).
  - cbn [for_all].
    apply (@terminates_bind _ _ (fun f => g f x)
             (fun f y => ys <- for_all (g f) xs ;; Ret (y :: ys))).
    + apply H. now left.
    + intros y.
      apply (@terminates_bind _ _ (fun f => for_all (g f) xs)
               (fun _ ys => Ret (y :: ys))).
      * apply IH. intros z Hz. apply H. now right.
      * intros ys. const_terminates.
Qed.

(** ** The replacer ends on every paragraph *)

Lemma copy_attr_returns {V} (get : Run -> V) set p run new_run :
  copy_attr get set p run new_run <> Diverge.
Proof.
  unfold copy_attr, read. destruct (find _ _); cbn [bind]; discriminate.
Qed.

Lemma insert_returns p index elem : insert p index elem <> Diverge.
Proof.
  unfold insert. destruct (find _ _); [|discriminate].
  destruct (nth_error _ _); [|discriminate].
  destruct (is_elem elem _); discriminate.
Qed.

Lemma bind_returns {A B} (m : result A) (k : A -> result B) :
  m <> Diverge -> (forall a, k a <> Diverge) -> bind m k <> Diverge.
Proof. destruct m; cbn [bind]; [auto | discriminate | congruence]. Qed.

Lemma insert_segments_returns segs :
  forall p run run_index, insert_segments p run run_index segs <> Diverge.
Proof.
  induction segs as [|seg segs IH]; intros p run run_index; [discriminate|].
  cbn [insert_segments add_run].
  repeat (apply bind_returns; [apply copy_attr_returns | intros ?]).
  apply bind_returns; [apply insert_returns | intros ?]. apply IH.
Qed.

Lemma process_run_terminates old new st run :
  old <> [] -> terminates (fun f => process_run f old new st run).
Proof.
  intros Hne. destruct st as [p flag]. unfold process_run.
  destruct (read p run) as [r | e |] eqn:Er; cbn [bind].
  - destruct (PyStr.contains (text r) old).
    + set (rest := fun parts : list str =>
             first <- first_part parts ;;
             run_index <- child_index (modify p run (set_text first)) run ;;
             p0 <- insert_segments (modify p run (set_text first)) run
                                   run_index (tl parts) ;;
             Ret (p0, true)).
      exists (rest (parts_of (text r) old new)). split.
      * subst rest. cbv beta.
        apply bind_returns; [destruct (parts_of _ _ _); discriminate | intros ?].
        apply bind_returns;
          [unfold child_index; destruct (index_of _ _); discriminate | intros ?].
        apply bind_returns; [apply insert_segments_returns | discriminate].
      * exists (S (length (text r))). intros f Hf.
        rewrite split_parts_enough by (assumption || lia). reflexivity.
    + const_terminates.
  - const_terminates.
  - unfold read in Er. destruct (find _ _); discriminate.
Qed.

Lemma remove_all_returns ids : forall p, for_each remove p ids <> Diverge.
Proof.
  induction ids as [|id ids IH]; intros p; [discriminate|].
  cbn [for_each]. apply bind_returns; [|intros ?; apply IH].
  unfold remove. destruct (existsb _ _); discriminate.
Qed.

Lemma deep_replace_terminates p old new :
  old <> [] ->
  terminates (fun f => deep_replace_text_in_paragraph f p old new).
Proof.
  intros Hne. unfold deep_replace_text_in_paragraph.
  apply (@terminates_bind _ _
           (fun f => for_each (process_run f old new) (p, false) (runs p))
           (fun _ st =>
              let (p0, replaced_in_run) := st in
              if negb replaced_in_run && PyStr.contains (paragraph_text p0) old
              then p1 <- for_each remove p0 (runs p0) ;;
                   (let (p2, _) :=
                      add_run p1 (PyStr.replace (paragraph_text p0) old new) in
                    Ret (p2, PyNone))
              else Ret (p0, PyNone))).
  - apply (@terminates_for_each _ _ (fun f => process_run f old new)).
    intros st x _. now apply process_run_terminates.
  - intros [p0 flag]. apply terminates_const.
    destruct (negb flag && _); [|discriminate].
    apply bind_returns; [apply remove_all_returns | discriminate].
Qed.

Lemma apply_rule_terminates p rule :
  fst rule <> [] -> terminates (fun f => apply_rule f p rule).
Proof.
  destruct rule as [old new]. cbn [fst]. intros Hne. unfold apply_rule.
  destruct (PyStr.contains (paragraph_text p) old).
  - apply (@terminates_bind _ _
             (fun f => deep_replace_text_in_paragraph f p old new)
             (fun _ r => Ret (fst r))).
    + now apply deep_replace_terminates.
    + intros r. const_terminates.
  - const_terminates.
Qed.

(** ** Well-formed paragraphs stay well-formed *)

Lemma split_all_ids old new todo :
  forall done nxt,
    NoDup (map el_id (done ++ todo)) ->
    Forall (fun x => el_id x < nxt) (done ++ todo) ->
    NoDup (map el_id (done ++ split_all old new nxt todo)) /\
    Forall (fun x => el_id x < split_next old new nxt todo)
           (done ++ split_all old new nxt todo).
Proof.
  induction todo as [|e todo IH]; intros done nxt Hnd Hlt.
  - cbn [split_all split_next]. split; assumption.
  - cbn [split_all split_next].
    destruct (@split_elem_ids old new nxt done e todo Hnd Hlt) as [Hnd' Hlt'].
    rewrite app_assoc in Hnd', Hlt' |- *. now apply IH.
Qed.

Lemma deep_replace_wf p old new :
  old <> [] -> wf p ->
  exists p',
    settles (fun f => deep_replace_text_in_paragraph f p old new)
            (Ret (p', PyNone)) /\
    wf p'.
Proof.
  intros Hne Hwf.
  assert (Hfuel : forall f, S (length (paragraph_text p)) <= f -> enough_fuel f p).
  { intros f Hf. eapply Forall_impl; [|apply enough_fuel_paragraph].
    simpl. intros; lia. }
  destruct (existsb (fun r => PyStr.contains (text r) old) (run_list p)) eqn:Ex.
  - eexists. split.
    + split; [discriminate|]. exists (S (length (paragraph_text p))).
      intros f Hf. apply deep_replace_split; auto.
    + destruct Hwf as [Hnd Hlt]. unfold wf, runs in *. cbn [children next_id].
      rewrite Forall_map in Hlt |- *.
      apply (@split_all_ids old new (children p) [] (next_id p)); assumption.
  - destruct (PyStr.contains (paragraph_text p) old) eqn:Ec.
    + eexists. split.
      * split; [discriminate|]. exists 0. intros f _.
        now apply deep_replace_fallback.
      * unfold wf, runs. cbn [children next_id map el_id]. split.
        -- constructor; [intros []|constructor].
        -- constructor; [lia|constructor].
    + exists p. split; [|assumption].
      split; [discriminate|]. exists 0. intros f _. now apply deep_replace_noop.
Qed.

Lemma apply_rules_wf rules :
  Forall (fun rule => fst rule <> []) rules ->
  forall p, wf p ->
            exists p', settles (fun f => for_each (apply_rule f) p rules) (Ret p') /\
                       wf p'.
Proof.
  induction 1 as [|[old new] rules Hne _ IH]; intros p Hwf.
  - exists p. split; [|assumption]. apply (@settles_const _ (Ret p)). discriminate.
  - cbn [fst] in Hne.
    assert (H1 : exists p1, settles (fun f => apply_rule f p (old, new)) (Ret p1)
                            /\ wf p1).
    { unfold apply_rule. destruct (PyStr.contains (paragraph_text p) old).
      - destruct (@deep_replace_wf p old new Hne Hwf) as [p1 [Hs Hw]].
        exists p1. split; [|assumption].
        apply (@settles_bind_ret _ _
                 (fun f => deep_replace_text_in_paragraph f p old new)
                 (fun _ r => Ret (fst r)) (p1, PyNone)); [assumption|].
        apply (@settles_const _ (Ret p1)). discriminate.
      - exists p. split; [|assumption].
        apply (@settles_const _ (Ret p)). discriminate. }
    destruct H1 as [p1 [Hs1 Hw1]]. destruct (IH p1 Hw1) as [p' [Hs' Hw']].
    exists p'. split; [|assumption]. cbn [for_each].
    apply (@settles_bind_ret _ _ (fun f => apply_rule f p (old, new))
             (fun f st' => for_each (apply_rule f) st' rules) p1); assumption.
Qed.

Lemma apply_rules_all_wf rules ps :
  Forall (fun rule => fst rule <> []) rules -> Forall wf ps ->
  exists ps',
    settles (fun f => for_all (fun p => for_each (apply_rule f) p rules) ps)
            (Ret ps').
Proof.
  intros Hr. induction 1 as [|p ps Hp _ [ps' IH]].
  - exists []. apply (@settles_const _ (Ret [])). discriminate.
  - destruct (@apply_rules_wf rules Hr p Hp) as [p' [Hs _]].
    exists (p' :: ps'). cbn [for_all].
    apply (@settles_bind_ret _ _ (fun f => for_each (apply_rule f) p rules)
             (fun f y => ys <- for_all (fun p => for_each (apply_rule f) p rules) ps ;;
                         Ret (y :: ys)) p'); [assumption|].
    apply (@settles_bind_ret _ _
             (fun f => for_all (fun p => for_each (apply_rule f) p rules) ps)
             (fun _ ys => Ret (p' :: ys)) ps'); [assumption|].
    apply (@settles_const _ (Ret (p' :: ps'))). discriminate.
Qed.

Lemma apply_rules_all_terminates rules ps :
  Forall (fun rule => fst rule <> []) rules ->
  terminates (fun f => for_all (fun p => for_each (apply_rule f) p rules) ps).
Proof.
  intros Hr.
  apply (@terminates_for_all _ _ (fun f p => for_each (apply_rule f) p rules)).
  intros p _. apply (@terminates_for_each _ _ apply_rule).
  intros st rule Hin. apply apply_rule_terminates.
  rewrite Forall_forall in Hr. now apply Hr.
Qed.

(** ** The batch *)

Section BatchProperties.

Variable load_document : Path -> Document + exn.
Variable save_error : Path -> option exn.
Variable mkdir_error : str -> option exn.
Variable as_completed : list Path -> list Path.
Variable destination_folder : str.
Variable rules : list (str * str).
Variable total_files : nat.

Hypothesis rules_nonempty : Forall (fun rule => fst rule <> []) rules.

Let new_path (file : Path) : Path :=
  mkPath destination_folder (rename (name file) rules).

Let reported := file_reported load_document save_error destination_folder
                              rules total_files.

Let handled_here := handled load_document save_error destination_folder rules.

(** The tail of the [try] once the paragraphs are done. *)
Let finish (doc : Document) (file : Path) (w : World) (ps : list Paragraph)
  : result World :=
  w' <- save save_error w (mkDocument ps (tables doc) (sections doc))
             (new_path file) ;;
  Ret (logging w' (InfoCreated (new_path file))).

Lemma finish_returns doc file w ps : finish doc file w ps <> Diverge.
Proof.
  unfold finish, save, check. destruct (save_error _); cbn [bind]; discriminate.
Qed.

(** The errors of one file stay with the file: [process_word_file] always
    returns, and what it leaves is [handled]. *)
Lemma process_word_file_settles file w :
  exists w',
    settles (fun f => process_word_file load_document save_error f file rules
                                        destination_folder w)
            (Ret w') /\
    handled_here file w w'.
Proof.
  unfold process_word_file, process_word_file_try, handled_here, handled.
  fold (new_path file).
  destruct (load_document file) as [doc | e] eqn:El; cbn [call bind].
  - change (fun f =>
              match
                ps <- for_all (fun paragraph => for_each (apply_rule f) paragraph rules)
                              (paragraphs doc) ;;
                w0 <- save save_error w (mkDocument ps (tables doc) (sections doc))
                           (new_path file) ;;
                Ret (logging w0 (InfoCreated (new_path file)))
              with
              | Ret w' => Ret w'
              | Raise e => Ret (logging w (ErrorProcessing file e))
              | Diverge => Diverge
              end)
      with (fun f =>
              match
                bind (for_all (fun paragraph => for_each (apply_rule f) paragraph rules)
                              (paragraphs doc))
                     (finish doc file w)
              with
              | Ret w' => Ret w'
              | Raise e => Ret (logging w (ErrorProcessing file e))
              | Diverge => Diverge
              end).
    destruct (@apply_rules_all_terminates rules (paragraphs doc) rules_nonempty)
      as [r Hr].
    destruct r as [ps | e |]; [| |destruct Hr; congruence].
    + (* the paragraphs are done: the save decides *)
      destruct Hr as [_ [f0 Hf0]].
      unfold finish, save, check in *.
      destruct (save_error (new_path file)) as [e|] eqn:Es.
      * exists (logging w (ErrorProcessing file e)). split.
        -- split; [discriminate|]. exists f0. intros f Hf. rewrite Hf0 by assumption.
           cbn [bind]. reflexivity.
        -- right. exists e. split; [reflexivity | intros _; reflexivity].
      * eexists. split.
        -- split; [discriminate|]. exists f0. intros f Hf. rewrite Hf0 by assumption.
           cbn [bind]. reflexivity.
        -- left. eexists. split; reflexivity.
    + (* a paragraph raised: only possible when one is not well-formed *)
      exists (logging w (ErrorProcessing file e)). split.
      * destruct Hr as [_ [f0 Hf0]]. split; [discriminate|]. exists f0.
        intros f Hf. now rewrite Hf0.
      * right. exists e. split; [reflexivity|]. intros Hwf. exfalso.
        destruct (@apply_rules_all_wf rules (paragraphs doc) rules_nonempty Hwf)
          as [ps' Hs'].
        pose proof (settles_unique Hr Hs'). discriminate.
  - exists (logging w (ErrorProcessing file e)). split; [|reflexivity].
    apply (@settles_const _ (Ret (logging w (ErrorProcessing file e)))).
    discriminate.
Qed.

(** Whatever the fuel, [process_word_file] does not raise. *)
Lemma process_word_file_never_raises fuel file w e :
  process_word_file load_document save_error fuel file rules destination_folder w
  <> Raise e.
Proof.
  unfold process_word_file.
  destruct (process_word_file_try _ _ _ _ _ _ _); discriminate.
Qed.

Lemma handled_log file w w' :
  handled_here file w w' ->
  exists rec s,
    log w' = log w ++ [rec] /\ saved w' = saved w ++ s /\
    match load_document file with
    | inr e => rec = ErrorProcessing file e
    | inl doc =>
        (save_error (new_path file) = None /\ rec = InfoCreated (new_path file) /\
         exists doc', In (new_path file, doc') s)
        \/ (exists e, rec = ErrorProcessing file e /\
                      (Forall wf (paragraphs doc) ->
                       save_error (new_path file) = Some e))
    end.
Proof.
  unfold handled_here, handled. fold (new_path file).
  destruct (load_document file) as [doc | e].
  - intros [[doc' [Es ->]] | [e [-> He]]].
    + exists (InfoCreated (new_path file)), [(new_path file, doc')].
      cbn [logging log saved]. repeat split. left. repeat split; [assumption|].
      exists doc'. now left.
    + exists (ErrorProcessing file e), []. cbn [logging log saved].
      rewrite app_nil_r. repeat split. right. eauto.
  - intros ->. exists (ErrorProcessing file e), []. cbn [logging log saved].
    rewrite app_nil_r. repeat split.
Qed.

Lemma reported_more file l sv l0 l1 sv0 sv1 :
  reported file l sv -> reported file (l0 ++ l ++ l1) (sv0 ++ sv ++ sv1).
Proof.
  assert (In1 : forall (x : log_record), In x l -> In x (l0 ++ l ++ l1))
    by (intros; apply in_or_app; right; apply in_or_app; now left).
  assert (In2 : forall (x : Path * Document), In x sv -> In x (sv0 ++ sv ++ sv1))
    by (intros; apply in_or_app; right; apply in_or_app; now left).
  unfold reported, file_reported. intros [[k Hk] H]. split; [eauto|].
  destruct (load_document file) as [doc | e]; [|auto].
  destruct H as [(Es & Hc & doc' & Hd) | [e [He Hw]]].
  - left. repeat split; eauto.
  - right. eauto.
Qed.

(** Lines 150-158 over the completed futures: every one is handled and
    counted, whatever happened to the ones before. *)
Lemma futures_loop order :
  forall w completed files_processed,
  exists w' recs s,
    settles (fun f => for_each (on_future load_document save_error f rules
                                          destination_folder total_files)
                               (w, completed, files_processed) order)
            (Ret (w', completed + length order, files_processed + length order)) /\
    log w' = log w ++ recs /\ saved w' = saved w ++ s /\
    Forall (fun file => reported file recs s) order.
Proof.
  induction order as [|file order IH]; intros w completed files_processed.
  - exists w, [], []. rewrite !Nat.add_0_r, !app_nil_r.
    split; [|repeat split; constructor].
    apply (@settles_const _ (Ret (w, completed, files_processed))). discriminate.
  - destruct (process_word_file_settles file w) as [w1 [Hs1 Hh]].
    set (w2 := logging w1 (InfoProcessed (S completed) total_files (name file))).
    destruct (IH w2 (S completed) (S files_processed)) as (w' & recs & s & Hs & Hl & Hsv & Hall).
    destruct (@handled_log file w w1 Hh) as (rec & s1 & Hl1 & Hsv1 & Hrec).
    set (mine := [rec; InfoProcessed (S completed) total_files (name file)]).
    exists w', (mine ++ recs), (s1 ++ s). split; [|split; [|split]].
    + cbn [for_each length].
      replace (completed + S (length order)) with (S completed + length order) by lia.
      replace (files_processed + S (length order))
        with (S files_processed + length order) by lia.
      apply (@settles_bind_ret _ _
               (fun f => on_future load_document save_error f rules
                                   destination_folder total_files
                                   (w, completed, files_processed) file)
               (fun f st' => for_each (on_future load_document save_error f rules
                                                 destination_folder total_files)
                                      st' order)
               (w2, S completed, S files_processed)); [|exact Hs].
      destruct Hs1 as [_ [f0 Hf0]]. split; [discriminate|]. exists f0.
      intros f Hf. unfold on_future. now rewrite Hf0.
    + rewrite Hl. subst w2 mine. cbn [logging log]. rewrite Hl1.
      now rewrite <- !app_assoc.
    + rewrite Hsv. subst w2. cbn [logging saved]. rewrite Hsv1.
      now rewrite <- app_assoc.
    + constructor.
      * apply (@reported_more file mine s1 [] recs [] s).
        unfold reported, file_reported. fold (new_path file). split.
        -- exists (S completed). subst mine. right. now left.
        -- destruct (load_document file) as [doc | e].
           ++ destruct Hrec as [(Es & -> & Hd) | [e [-> He]]].
              ** left. repeat split; [assumption | now left | assumption].
              ** right. exists e. split; [now left | assumption].
           ++ subst rec. now left.
      * eapply Forall_impl; [|exact Hall]. intros f Hf.
        apply (@reported_more f recs s mine [] s1 []) in Hf.
        now rewrite !app_nil_r in Hf.
Qed.

End BatchProperties.

(** Isolation of failures. A batch over a non-empty folder, with rules
    whose [old] is not empty and a destination folder that can be made,
    always runs to its end, in whatever order the futures complete.
    [process_word_file] never raises: an error raised while a document is
    loaded, changed or saved is caught there and logged as an error of that
    file. Every file of the folder is handled: the log holds, for each, the
    record that its future completed and either the record of the file
    created (then the document was loaded and saved) or an error record
    for the file. The last record of the log is the report, and it counts
    every completed future as processed, the failed ones too. *)
Theorem batch_isolates_failures
        (load_document : Path -> Document + exn)
        (save_error : Path -> option exn)
        (mkdir_error : str -> option exn)
        (as_completed : list Path -> list Path)
        (files : list Path) (destination_folder : str)
        (rules : list (str * str)) (w : World) :
  files <> [] ->
  Forall (fun rule => fst rule <> []) rules ->
  mkdir_error destination_folder = None ->
  Permutation files (as_completed files) ->
  (forall fuel file w0 e,
      process_word_file load_document save_error fuel file rules
                        destination_folder w0 <> Raise e) /\
  exists w',
    settles (fun fuel => process_directory load_document save_error mkdir_error
                                           as_completed fuel files
                                           destination_folder rules w)
            (Ret w') /\
    (exists recs,
        log w' = log w ++ InfoFound (length files) :: recs
                       ++ [InfoComplete (length files) (length files)]) /\
    Forall (fun file =>
              file_reported load_document save_error destination_folder rules
                            (length files) file (log w') (saved w'))
           files.
Proof.
  intros Hfiles Hrules Hmk Hperm. split.
  - intros fuel file w0 e. apply process_word_file_never_raises.
  - destruct (@futures_loop load_document save_error destination_folder rules
                            (length files) Hrules (as_completed files)
                            (logging w (InfoFound (length files))) 0 0)
      as (w1 & recs & s & Hs & Hl & Hsv & Hall).
    rewrite <- (Permutation_length Hperm) in Hs. cbn [Nat.add] in Hs.
    exists (logging w1 (InfoComplete (length files) (length files))).
    split; [|split].
    + unfold process_directory.
      replace (length files =? 0) with false
        by (symmetry; apply Nat.eqb_neq; destruct files; [congruence | discriminate]).
      rewrite Hmk. cbn [check bind].
      apply (@settles_bind_ret _ _
               (fun f => for_each (on_future load_document save_error f rules
                                             destination_folder (length files))
                                  (logging w (InfoFound (length files)), 0, 0)
                                  (as_completed files))
               (fun _ st => let '(w0, _, files_processed) := st in
                            Ret (logging w0 (InfoComplete files_processed
                                                          (length files))))
               (w1, length files, length files)); [exact Hs|].
      apply (@settles_const _ (Ret (logging w1 (InfoComplete (length files)
                                                             (length files))))).
      discriminate.
    + exists recs. cbn [logging log]. rewrite Hl. cbn [logging log].
      rewrite <- !app_assoc. reflexivity.
    + apply (Permutation_Forall (Permutation_sym Hperm)).
      eapply Forall_impl; [|exact Hall]. intros file Hf. cbn [logging log saved].
      rewrite Hl, Hsv. cbn [logging log saved].
      unfold file_reported in *. destruct Hf as [[k Hk] Hf]. split.
      * exists k. apply in_or_app. left. apply in_or_app. now right.
      * destruct (load_document file) as [doc | e].
        -- destruct Hf as [(Es & Hc & doc' & Hd) | [e [He Hw]]].
           ++ left. split; [assumption|]. split.
              ** apply in_or_app. left. apply in_or_app. now right.
              ** exists doc'. apply in_or_app. now right.
           ++ right. exists e. split; [|assumption].
              apply in_or_app. left. apply in_or_app. now right.
        -- apply in_or_app. left. apply in_or_app. now right.
Qed.

(** A batch of three documents, the second unreadable, the futures
    completing in reverse order. *)
Example sample_batch :
  process_directory sample_load no_error no_error (@rev Path) 20 sample_files
                    (lit "out") sample_rules empty_world
  = Ret (mkWorld
           [(mkPath (lit "out") (lit "Final - Feb.docx"), sample_document);
            (mkPath (lit "out") (lit "Final - Jan.docx"), sample_document)]
           [InfoFound 3;
            InfoCreated (mkPath (lit "out") (lit "Final - Feb.docx"));
            InfoProcessed 1 3 (lit "Draft - Feb.docx");
            ErrorProcessing (mkPath (lit "in") (lit "bad.docx"))
                            (Exception (lit "Package not found"));
            InfoProcessed 2 3 (lit "bad.docx");
            InfoCreated (mkPath (lit "out") (lit "Final - Jan.docx"));
            InfoProcessed 3 3 (lit "Draft - Jan.docx");
            InfoComplete 3 3]).
Proof. vm_compute. reflexivity. Qed.

Lemma batch_isolates_failures_witness :
  exists w',
    settles (fun fuel => process_directory sample_load no_error no_error (@rev Path)
                                           fuel sample_files (lit "out")
                                           sample_rules empty_world)
            (Ret w') /\
    In (ErrorProcessing (mkPath (lit "in") (lit "bad.docx"))
                        (Exception (lit "Package not found")))
       (log w') /\
    (exists recs, log w' = InfoFound 3 :: recs ++ [InfoComplete 3 3]).
Proof.
  destruct (@batch_isolates_failures sample_load no_error no_error (@rev Path)
              sample_files (lit "out") sample_rules empty_world)
    as [_ [w' (Hs & [recs Hl] & Hall)]].
  - discriminate.
  - repeat constructor; discriminate.
  - reflexivity.
  - apply Permutation_rev.
  - exists w'. split; [exact Hs|]. split.
    + inversion Hall as [|? ? _ Hrest]; subst.
      inversion Hrest as [|? ? [_ Hbad] _]; subst. exact Hbad.
    + exists recs. exact Hl.
Defined.

(** C10. The final report does not count processed against total: a
    file that failed is counted as processed. In a batch of three
    documents whose second cannot be loaded, the error is caught and logged
    as the error of that file, no file is written for it, the two other
    documents are written and the batch runs to its end; but
    [future.result()] never raises, [process_word_file] having caught the
    error itself, so [files_processed] is incremented for the failed file
    as well and the report reads 3 of 3 where 2 of 3 were processed. *)
Theorem batch_report_counts_failed_file :
  exists w',
    process_directory sample_load no_error no_error (fun files => files) 20
                      sample_files (lit "out") sample_rules empty_world
    = Ret w' /\
    In (ErrorProcessing (mkPath (lit "in") (lit "bad.docx"))
                        (Exception (lit "Package not found")))
       (log w') /\
    map fst (saved w') = [mkPath (lit "out") (lit "Final - Jan.docx");
                          mkPath (lit "out") (lit "Final - Feb.docx")] /\
    last (log w') (InfoFound 0) = InfoComplete 3 3.
Proof.
  eexists. split; [vm_compute; reflexivity|].
  split; [|split; vm_compute; reflexivity].
  cbn [log]. do 3 right. left. reflexivity.
Qed.

(** With no document in the folder the batch logs that and returns: there
    is no report of files processed. *)
Lemma process_directory_empty_folder
      (load_document : Path -> Document + exn) (save_error : Path -> option exn)
      (mkdir_error : str -> option exn) (as_completed : list Path -> list Path)
      (fuel : nat) (destination_folder : str) (rules : list (str * str))
      (w : World) :
  process_directory load_document save_error mkdir_error as_completed fuel []
                    destination_folder rules w
  = Ret (logging w InfoNoFiles).
Proof. reflexivity. Qed.

(** * More of the code *)

(** ** [str.strip()] *)

Lemma lstrip_idem s : lstrip (lstrip s) = lstrip s.
Proof.
  induction s as [|c s IH]; [reflexivity|]. cbn [lstrip].
  destruct (is_space c) eqn:E; [exact IH|]. cbn [lstrip]. now rewrite E.
Qed.

Lemma lstrip_keeps_last x c :
  is_space c = false -> exists u, lstrip (x ++ [c]) = u ++ [c].
Proof.
  intros Hc. induction x as [|d x [u IH]]; cbn [app lstrip].
  - rewrite Hc. now exists [].
  - destruct (is_space d); [eauto|]. now exists (d :: x).
Qed.

Lemma rstrip_keeps_first c t :
  is_space c = false -> exists u, rstrip (c :: t) = c :: u.
Proof.
  intros Hc. unfold rstrip. cbn [rev].
  destruct (@lstrip_keeps_last (rev t) c Hc) as [u ->].
  exists (rev u). now rewrite rev_app_distr.
Qed.

Lemma lstrip_head s :
  lstrip s = [] \/ exists c t, lstrip s = c :: t /\ is_space c = false.
Proof.
  induction s as [|c s IH]; [now left|]. cbn [lstrip].
  destruct (is_space c) eqn:E; [exact IH|]. right. eauto.
Qed.

Lemma rstrip_idem s : rstrip (rstrip s) = rstrip s.
Proof. unfold rstrip. now rewrite rev_involutive, lstrip_idem. Qed.

Lemma strip_idem s : strip (strip s) = strip s.
Proof.
  unfold strip.
  assert (E : lstrip (rstrip (lstrip s)) = rstrip (lstrip s)).
  { destruct (lstrip_head s) as [-> | [c [t [-> Hc]]]]; [reflexivity|].
    destruct (@rstrip_keeps_first c t Hc) as [u ->]. cbn [lstrip].
    now rewrite Hc. }
  now rewrite E, rstrip_idem.
Qed.

(** A stripped string neither begins nor ends with white space. *)
Lemma strip_ends s :
  (forall c t, strip s = c :: t -> is_space c = false) /\
  (forall c t, strip s = t ++ [c] -> is_space c = false).
Proof.
  split.
  - intros c t E. unfold strip in E.
    destruct (lstrip_head s) as [H | [d [u [H Hd]]]]; rewrite H in E.
    + discriminate.
    + destruct (@rstrip_keeps_first d u Hd) as [v Hv]. rewrite Hv in E.
      now injection E as <- _.
  - intros c t E. unfold strip, rstrip in E.
    apply (f_equal (@rev _)) in E. rewrite rev_involutive, rev_app_distr in E.
    cbn [rev app] in E.
    destruct (lstrip_head (rev (lstrip s))) as [H | [d [u [H Hd]]]];
      rewrite H in E; [discriminate|]. now injection E as <- _.
Qed.

(** ** Reading the rules *)

Lemma get_replacements_loop_step line line2 stdin2 acc :
  (forall acc', loop_outcome stdin2 acc' (get_replacements_loop stdin2 acc')) ->
  loop_outcome (line :: line2 :: stdin2) acc
               (get_replacements_loop (line :: line2 :: stdin2) acc).
Proof.
  intros IH. cbn [get_replacements_loop].
  destruct (strip line) as [|c old] eqn:Eo.
  - exists []. rewrite app_nil_r. split; [reflexivity|]. split; [constructor|].
    split; [simpl; lia|]. now exists 1.
  - specialize (IH (acc ++ [(c :: old, strip line2)])).
    destruct (get_replacements_loop stdin2 _) as [[rules rest] | e |];
      [|exact IH | exact IH].
    destruct IH as (more & -> & Hall & Hlen & n & Hn).
    exists ((c :: old, strip line2) :: more). split; [now rewrite <- app_assoc|].
    split; [|split].
    + constructor; [|exact Hall]. cbn [fst snd]. split; [discriminate|].
      split; [unfold stripped; rewrite <- Eo|]; apply strip_idem.
    + simpl in *. lia.
    + exists (S (S n)). exact Hn.
Qed.

Lemma get_replacements_loop_spec stdin :
  (forall acc, loop_outcome stdin acc (get_replacements_loop stdin acc)) /\
  (forall line acc,
      loop_outcome (line :: stdin) acc (get_replacements_loop (line :: stdin) acc)).
Proof.
  induction stdin as [|line2 stdin2 [IH1 IH2]].
  - split; [reflexivity|]. intros line acc. cbn [get_replacements_loop].
    destruct (strip line); [|reflexivity].
    exists []. rewrite app_nil_r. split; [reflexivity|]. split; [constructor|].
    split; [simpl; lia|]. now exists 1.
  - split; [apply IH2|]. intros line acc.
    now apply get_replacements_loop_step.
Qed.

Lemma rules_read_are_well_formed_aux stdin :
  match get_replacements_from_user stdin with
  | Ret (rules, rest) =>
      Forall (fun rule => fst rule <> [] /\ stripped (fst rule)
                          /\ stripped (snd rule)) rules
  | Raise e => e = EOFError
  | Diverge => False
  end.
Proof.
  unfold get_replacements_from_user.
  pose proof (proj1 (get_replacements_loop_spec stdin) []) as H.
  unfold loop_outcome in H.
  destruct (get_replacements_loop stdin []) as [[rules rest] | e |];
    [|exact H | exact H].
  destruct H as (more & -> & Hall & _). exact Hall.
Qed.

(** X1. Whatever is typed, [get_replacements_from_user] either returns
    rules whose old text is not empty and whose two texts are stripped of
    surrounding white space, leaving unread a tail of the input, or raises
    [EOFError] because the input ended before a blank old text. *)
Theorem rules_read_are_well_formed (stdin : list str) :
  match get_replacements_from_user stdin with
  | Ret (rules, rest) =>
      Forall (fun rule => fst rule <> [] /\ stripped (fst rule)
                          /\ stripped (snd rule)) rules /\
      length rest + 2 * length rules + 1 <= length stdin /\
      exists n, rest = skipn n stdin
  | Raise e => e = EOFError
  | Diverge => False
  end.
Proof.
  unfold get_replacements_from_user.
  pose proof (proj1 (get_replacements_loop_spec stdin) []) as H.
  unfold loop_outcome in H.
  destruct (get_replacements_loop stdin []) as [[rules rest] | e |];
    [|exact H | exact H].
  destruct H as (more & -> & Hall & Hlen & Hn). cbn [app]. auto.
Qed.

Lemma get_replacements_loop_typed pairs :
  Forall (fun pair => strip (fst pair) <> []) pairs ->
  forall tail acc,
    get_replacements_loop (typed pairs ++ tail) acc
    = get_replacements_loop
        tail (acc ++ map (fun pair => (strip (fst pair), strip (snd pair))) pairs).
Proof.
  induction 1 as [|[o n] pairs Ho _ IH]; intros tail acc.
  - cbn [typed flat_map map app]. now rewrite app_nil_r.
  - cbn [typed flat_map map app fst snd] in *. cbn [get_replacements_loop].
    destruct (strip o) as [|c old] eqn:Eo; [congruence|].
    fold (typed pairs). rewrite IH, <- app_assoc. reflexivity.
Qed.

(** X2. The rules are read back as they were typed, stripped: after
    the fields of the rules, one line each, a blank line ends the reading
    and what follows it stays unread; if the input ends before the blank
    line, at the end of a rule or in the middle of one, the call raises
    [EOFError]. *)
Theorem typed_rules_are_read_back (pairs : list (str * str)) :
  Forall (fun pair => strip (fst pair) <> []) pairs ->
  (forall blank rest,
      strip blank = [] ->
      get_replacements_from_user (typed pairs ++ blank :: rest)
      = Ret (map (fun pair => (strip (fst pair), strip (snd pair))) pairs, rest)) /\
  get_replacements_from_user (typed pairs) = Raise EOFError /\
  (forall old_line,
      strip old_line <> [] ->
      get_replacements_from_user (typed pairs ++ [old_line]) = Raise EOFError).
Proof.
  intros H. unfold get_replacements_from_user. split; [|split].
  - intros blank rest Hb. rewrite get_replacements_loop_typed by assumption.
    cbn [get_replacements_loop app]. now rewrite Hb.
  - rewrite <- (app_nil_r (typed pairs)).
    rewrite get_replacements_loop_typed by assumption. reflexivity.
  - intros old_line Ho. rewrite get_replacements_loop_typed by assumption.
    cbn [get_replacements_loop]. destruct (strip old_line); [congruence | reflexivity].
Qed.

Lemma typed_rules_are_read_back_witness :
  get_replacements_from_user
    [lit "  Draft "; lit "Final"; lit " 2024"; lit "2025  "; lit "   "; lit "next"]
  = Ret ([(lit "Draft", lit "Final"); (lit "2024", lit "2025")], [lit "next"]) /\
  get_replacements_from_user [lit "  Draft "; lit "Final"; lit " 2024"]
  = Raise EOFError.
Proof.
  destruct (@typed_rules_are_read_back
              [(lit "  Draft ", lit "Final"); (lit " 2024", lit "2025  ")])
    as (H1 & _ & H3).
  - repeat constructor; vm_compute; discriminate.
  - split.
    + apply (H1 (lit "   ") [lit "next"]). vm_compute. reflexivity.
    + apply (H3 (lit " 2024")). vm_compute. discriminate.
Defined.

(** ** The replacer of the GUI *)

Lemma paragraph_text_set p t : paragraph_text (set_paragraph_text p t) = t.
Proof.
  unfold set_paragraph_text, paragraph_text, run_list. cbn. apply app_nil_r.
Qed.

Lemma flat_rule_text p rule :
  paragraph_text (flat_rule p rule)
  = PyStr.replace (paragraph_text p) (fst rule) (snd rule).
Proof.
  destruct rule as [old new]. cbn [flat_rule fst snd].
  destruct (PyStr.contains (paragraph_text p) old) eqn:E.
  - apply paragraph_text_set.
  - symmetry. now apply replace_absent.
Qed.

(** X3. With the replacer of the GUI the text of a paragraph becomes the
    string-level substitution of the rules, one after the other in list
    order, done on the text it had, for every paragraph and every list of
    rules, rules with an empty old text included. *)
Theorem flat_rules_text (p : Paragraph) (rules : list (str * str)) :
  paragraph_text (flat_rules p rules) = substitute_all rules (paragraph_text p).
Proof.
  unfold flat_rules, substitute_all. revert p.
  induction rules as [|rule rules IH]; intros p; [reflexivity|].
  cbn [fold_left]. now rewrite IH, flat_rule_text.
Qed.

(** The rules that find their old text in the text as it is at their
    turn. *)
Lemma flat_rules_cases p rules :
  (flat_rules p rules = p /\
   substitute_all rules (paragraph_text p) = paragraph_text p)
  \/
  (flat_rules p rules
   = mkParagraph [mkElement (next_id (flat_rules p rules) - 1)
                            (fresh_run (substitute_all rules (paragraph_text p)))]
                 (next_id (flat_rules p rules)) /\
   next_id p < next_id (flat_rules p rules)).
Proof.
  unfold flat_rules. revert p.
  induction rules as [|[old new] rules IH]; intros p; [left; split; reflexivity|].
  cbn [fold_left]. fold (flat_rules (flat_rule p (old, new)) rules).
  pose proof (flat_rule_text p (old, new)) as Ht. cbn [fst snd] in Ht.
  unfold substitute_all in *. cbn [fold_left fst snd]. rewrite <- Ht.
  destruct (IH (flat_rule p (old, new))) as [[E1 E2] | [E1 E2]].
  - fold (flat_rules (flat_rule p (old, new)) rules) in E1. rewrite E1, E2.
    cbn [flat_rule]. destruct (PyStr.contains (paragraph_text p) old) eqn:Ec.
    + right. unfold set_paragraph_text. cbn. rewrite Nat.sub_0_r, app_nil_r.
      split; [reflexivity | lia].
    + left. split; reflexivity.
  - right. fold (flat_rules (flat_rule p (old, new)) rules) in E1, E2 |- *.
    split; [exact E1|]. eapply Nat.le_lt_trans; [|exact E2].
    cbn [flat_rule]. destruct (PyStr.contains (paragraph_text p) old);
      [unfold set_paragraph_text; cbn; lia | lia].
Qed.

(** X4. The replacer of the GUI either leaves a paragraph exactly as it
    was, and then no rule changes its text, or leaves it with exactly one
    run, a new one without run properties, that holds the substituted
    text: the formatting of the runs is lost as soon as one rule
    applies. *)
Theorem flat_rules_runs (p : Paragraph) (rules : list (str * str)) :
  (flat_rules p rules = p /\
   substitute_all rules (paragraph_text p) = paragraph_text p)
  \/
  run_list (flat_rules p rules)
  = [fresh_run (substitute_all rules (paragraph_text p))].
Proof.
  destruct (flat_rules_cases p rules) as [H | [H _]]; [now left|].
  right. rewrite H. reflexivity.
Qed.

Lemma deep_fallback_is_flat_aux fuel p old_text new_text :
  wf p ->
  existsb (fun r => PyStr.contains (text r) old_text) (run_list p) = false ->
  deep_replace_text_in_paragraph fuel p old_text new_text
  = Ret (flat_rule p (old_text, new_text), PyNone).
Proof.
  intros Hwf Hex. cbn [flat_rule].
  destruct (PyStr.contains (paragraph_text p) old_text) eqn:Ec.
  - rewrite deep_replace_fallback by assumption. reflexivity.
  - now apply deep_replace_noop.
Qed.

(** X5. When no single run contains the old text, the run-splitting
    replacer does to a well-formed paragraph exactly what the replacer of
    the GUI does: nothing if the old text is not in the paragraph, and
    otherwise one new plain run with the substituted text. *)
Theorem deep_fallback_is_flat (fuel : nat) (p : Paragraph) (old_text new_text : str) :
  wf p ->
  existsb (fun r => PyStr.contains (text r) old_text) (run_list p) = false ->
  deep_replace_text_in_paragraph fuel p old_text new_text
  = Ret (flat_rule p (old_text, new_text), PyNone).
Proof. apply deep_fallback_is_flat_aux. Qed.

Lemma deep_fallback_is_flat_witness :
  deep_replace_text_in_paragraph 0 para_foo_bar (lit "ooba") (lit "X")
  = Ret (flat_rule para_foo_bar (lit "ooba", lit "X"), PyNone) /\
  run_list (flat_rule para_foo_bar (lit "ooba", lit "X")) = [plain_run "fXr"].
Proof.
  split.
  - apply (@deep_fallback_is_flat 0 para_foo_bar (lit "ooba") (lit "X"));
      by_evaluation.
  - vm_compute. reflexivity.
Defined.

(** ** More about the run-splitting replacer *)











Lemma replace_same s old : old <> [] -> PyStr.replace s old old = s.
Proof.
  intros Hne. destruct (parts_of_spec s old Hne) as [lits [Hs _]].
  rewrite <- (splits_replace old Hne Hs). now apply splits_text.
Qed.

(** X7. A rule whose new text equals its non-empty old text leaves the
    text of a well-formed paragraph as it was, on the path that splits
    runs, on the fallback, and when nothing matches. *)
Theorem same_text_rule_keeps_text (fuel : nat) (p : Paragraph) (old_text : str) :
  old_text <> [] -> wf p -> enough_fuel fuel p ->
  exists p',
    deep_replace_text_in_paragraph fuel p old_text old_text = Ret (p', PyNone) /\
    paragraph_text p' = paragraph_text p.
Proof.
  intros Hne Hwf Hf.
  destruct (existsb (fun r => PyStr.contains (text r) old_text) (run_list p)) eqn:Ex.
  - eexists. split; [now apply deep_replace_split|].
    unfold paragraph_text, run_list at 1. cbn [children].
    rewrite run_list_split_all by assumption. fold (run_list p).
    rewrite flat_map_text by assumption. f_equal.
    rewrite <- (map_id (map text (run_list p))), map_map at 1.
    apply map_ext. intros r. now apply replace_same.
  - eexists. split; [now apply deep_fallback_is_flat_aux|].
    rewrite flat_rule_text. cbn [fst snd]. now apply replace_same.
Qed.

Lemma same_text_rule_keeps_text_witness :
  exists p',
    deep_replace_text_in_paragraph 12 para_hello (lit "o") (lit "o")
    = Ret (p', PyNone) /\
    paragraph_text p' = lit "Hello world!" /\
    length (run_list p') = 6.
Proof.
  destruct (@same_text_rule_keeps_text 12 para_hello (lit "o"))
    as [p' [H1 H2]]; [by_evaluation .. |].
  exists p'. split; [exact H1|]. split; [rewrite H2; by_evaluation|].
  assert (E : Ret (p', PyNone)
              = deep_replace_text_in_paragraph 12 para_hello (lit "o") (lit "o"))
    by (symmetry; exact H1).
  vm_compute in E. injection E as ->. reflexivity.
Defined.

(** The literal segments of a split do not contain [old]. *)
Lemma splits_literals_free old s lits :
  old <> [] -> splits old s lits ->
  Forall (fun l => PyStr.contains l old = false) lits.
Proof.
  intros Hne. induction 1 as [s H | l s lits Hl H IH].
  - constructor; [assumption | constructor].
  - constructor; [|exact IH]. apply contains_false_iff. intros k Hk.
    destruct (PyStr.startswith (skipn k l) old) eqn:E; [|reflexivity].
    destruct (Nat.eq_dec k (length l)) as [-> | Hneq].
    + rewrite skipn_all in E. destruct old; [congruence | discriminate].
    + specialize (Hl k ltac:(lia)).
      rewrite skipn_app in Hl.
      apply startswith_app with (t := skipn (k - length l) (old ++ s)) in E.
      congruence.
Qed.

Lemma interleave_free old new lits :
  PyStr.contains new old = false ->
  Forall (fun l => PyStr.contains l old = false) lits ->
  Forall (fun l => PyStr.contains l old = false) (interleave new lits).
Proof.
  intros Hn. induction 1 as [|l lits Hl Hall IH]; [constructor|].
  destruct lits as [|l' lits]; [constructor; [assumption | constructor]|].
  rewrite interleave_cons by discriminate.
  constructor; [assumption|]. constructor; assumption.
Qed.

Lemma pieces_free old new r :
  old <> [] -> PyStr.contains new old = false ->
  existsb (fun r' => PyStr.contains (text r') old) (pieces old new r) = false.
Proof.
  intros Hne Hn. unfold pieces. destruct (PyStr.contains (text r) old) eqn:Ec.
  - destruct (parts_of_spec (text r) new Hne) as [lits [Hs Ep]]. rewrite Ep.
    pose proof (@interleave_free old new lits Hn
                  (@splits_literals_free old (text r) lits Hne Hs)) as Hfree.
    revert Hfree. generalize (interleave new lits). intros segs Hfree.
    induction Hfree as [|l ls Hl _ IH]; [reflexivity|].
    cbn [map existsb text set_text]. now rewrite Hl, IH.
  - cbn [existsb]. now rewrite Ec.
Qed.

(** X8. After a rule whose new text does not contain its old text has
    split the runs of a well-formed paragraph, no run contains the old
    text any more; a second call with the same rule therefore never splits
    runs again: it does what the replacer of the GUI does, which is
    nothing, or, when pieces put side by side spell the old text, the
    flattening of the paragraph to one plain run. *)
Theorem second_pass_never_splits (fuel fuel' : nat) (p : Paragraph)
        (old_text new_text : str) :
  old_text <> [] -> wf p -> enough_fuel fuel p ->
  existsb (fun r => PyStr.contains (text r) old_text) (run_list p) = true ->
  PyStr.contains new_text old_text = false ->
  exists p',
    deep_replace_text_in_paragraph fuel p old_text new_text = Ret (p', PyNone) /\
    existsb (fun r => PyStr.contains (text r) old_text) (run_list p') = false /\
    deep_replace_text_in_paragraph fuel' p' old_text new_text
    = Ret (flat_rule p' (old_text, new_text), PyNone).
Proof.
  intros Hne Hwf Hf Hex Hn. eexists. split; [now apply deep_replace_split|].
  assert (Hfree : existsb (fun r => PyStr.contains (text r) old_text)
                          (run_list (mkParagraph
                                       (split_all old_text new_text (next_id p) (children p))
                                       (split_next old_text new_text (next_id p) (children p))))
                  = false).
  { unfold run_list at 1. cbn [children]. rewrite run_list_split_all by assumption.
    fold (run_list p). clear Hex Hf.
    induction (run_list p) as [|r rs IH]; [reflexivity|].
    cbn [flat_map]. rewrite existsb_app, pieces_free by assumption. exact IH. }
  split; [exact Hfree|]. apply deep_fallback_is_flat_aux; [|exact Hfree].
  destruct Hwf as [Hnd Hlt]. unfold wf, runs in *. cbn [children next_id].
  rewrite Forall_map in Hlt |- *.
  apply (@split_all_ids old_text new_text (children p) [] (next_id p)); assumption.
Qed.

(** ["aab"] with ["ab"] -> ["b"]: the pieces ["a"], ["b"] spell ["ab"]
    again, and the second call flattens the bold paragraph. *)
Lemma second_pass_never_splits_witness :
  exists p',
    deep_replace_text_in_paragraph 4 (paragraph_of_runs [bold_run "aab"])
                                   (lit "ab") (lit "b")
    = Ret (p', PyNone) /\
    run_list p' = [bold_run "a"; bold_run "b"; bold_run EmptyString] /\
    exists p'',
      deep_replace_text_in_paragraph 0 p' (lit "ab") (lit "b") = Ret (p'', PyNone) /\
      run_list p'' = [plain_run "b"].
Proof.
  destruct (@second_pass_never_splits 4 0 (paragraph_of_runs [bold_run "aab"])
                                      (lit "ab") (lit "b"))
    as [p' (H1 & _ & H3)]; [by_evaluation .. |].
  assert (E : Ret (p', PyNone)
              = deep_replace_text_in_paragraph 4 (paragraph_of_runs [bold_run "aab"])
                                               (lit "ab") (lit "b"))
    by (symmetry; exact H1).
  vm_compute in E. injection E as E. exists p'. split; [exact H1|].
  split; [rewrite E; reflexivity|].
  eexists. split; [exact H3|]. rewrite E. vm_compute. reflexivity.
Defined.

Lemma for_all_length {A B} (f : A -> result B) xs :
  forall ys, for_all f xs = Ret ys -> length ys = length xs.
Proof.
  induction xs as [|x xs IH]; intros ys H; cbn [for_all] in H.
  - injection H as <-. reflexivity.
  - destruct (f x) as [y | e |]; cbn [bind] in H; try discriminate.
    destruct (for_all f xs) as [ys' | e |]; cbn [bind] in H; try discriminate.
    injection H as <-. cbn [length]. f_equal. now apply IH.
Qed.

(** X9. When [process_word_file] gets to write a file, the document was
    loaded and the save succeeded, the file is written in the destination
    folder under the name the rules give it, and the document written has
    the tables and the section footers of the one loaded, untouched, and as
    many body paragraphs: text in tables and footers is never replaced. *)
Theorem replacement_touches_body_only
        (load_document : Path -> Document + exn)
        (save_error : Path -> option exn)
        (fuel : nat) (file : Path) (rules : list (str * str))
        (destination_folder : str) (w w' : World) :
  process_word_file_try load_document save_error fuel file rules
                        destination_folder w = Ret w' ->
  exists doc doc',
    load_document file = inl doc /\
    save_error (mkPath destination_folder (rename (name file) rules)) = None /\
    saved w' = saved w ++ [(mkPath destination_folder (rename (name file) rules), doc')] /\
    log w' = log w ++ [InfoCreated (mkPath destination_folder
                                           (rename (name file) rules))] /\
    tables doc' = tables doc /\
    sections doc' = sections doc /\
    length (paragraphs doc') = length (paragraphs doc).
Proof.
  unfold process_word_file_try, save, check.
  destruct (load_document file) as [doc | e]; cbn [call bind]; [|discriminate].
  destruct (for_all _ (paragraphs doc)) as [ps | e |] eqn:Ep; cbn [bind];
    try discriminate.
  destruct (save_error _) as [e|]; cbn [bind]; [discriminate|].
  intros H. injection H as <-.
  exists doc, (mkDocument ps (tables doc) (sections doc)).
  cbn [logging saved log tables sections paragraphs].
  repeat (split; [reflexivity|]). eapply for_all_length. exact Ep.
Qed.

Lemma replacement_touches_body_only_witness :
  exists w' doc',
    process_word_file_try sample_load no_error 20
                          (mkPath (lit "in") (lit "Draft - Jan.docx"))
                          sample_rules (lit "out") empty_world
    = Ret w' /\
    saved w' = [(mkPath (lit "out") (lit "Final - Jan.docx"), doc')] /\
    tables doc' = tables sample_document /\
    sections doc' = sections sample_document.
Proof.
  assert (E : exists w', process_word_file_try
                           sample_load no_error 20
                           (mkPath (lit "in") (lit "Draft - Jan.docx"))
                           sample_rules (lit "out") empty_world = Ret w')
    by (eexists; vm_compute; reflexivity).
  destruct E as [w' E]. exists w'.
  destruct (replacement_touches_body_only _ _ _ _ _ _ _ E)
    as (doc & doc' & Hl & _ & Hs & _ & Ht & Hsec & _).
  exists doc'. split; [exact E|]. split; [exact Hs|].
  assert (doc = sample_document) by (vm_compute in Hl; now injection Hl).
  subst doc. split; assumption.
Defined.

(** ** The tasks of the GUI *)

Section GuiProperties.

Variable load_document : Path -> Document + exn.
Variable save_error : Path -> option exn.
Variable path_exists : str -> bool.
Variable glob_docx : str -> list Path.
Variable percent : nat -> nat -> Z.
Variable dest_folder : str.
Variable pairs : list (str * str).
Variable total_files : nat.

Let outcome := word_result load_document save_error dest_folder pairs.
Let out_path (file : Path) : Path :=
  mkPath dest_folder (process_file_name (name file) pairs).

Let written (file : Path) : list (Path * Document) :=
  match outcome file with
  | inl doc => [(out_path file, doc)]
  | inr _ => []
  end.

Let message (file : Path) : gui_message :=
  match outcome file with
  | inl _ => ProcessedFile (name file) (process_file_name (name file) pairs)
  | inr e => ErrorProcessingFile (name file) e
  end.

Let tick (ifile : nat * Path) : list (str * Z) :=
  match outcome (snd ifile) with
  | inl _ => [(WP_PROGRESS, percent (fst ifile + 1) total_files)]
  | inr _ => []
  end.



End GuiProperties.



(** X11. [run_word_processing] does nothing but leave one message when
    it cannot start: when the origin folder is missing (the destination
    folder is then not even looked at), when the destination folder is
    missing, and when the origin folder holds no document. Nothing is
    loaded, written or ticked. *)
Theorem gui_batch_refuses_to_start
        (load_document : Path -> Document + exn)
        (save_error : Path -> option exn)
        (path_exists : str -> bool) (glob_docx : str -> list Path)
        (percent : nat -> nat -> Z)
        (origin_folder dest_folder : str) (pairs : list (str * str)) (w : Gui) :
  path_exists origin_folder = false \/ path_exists dest_folder = false
  \/ glob_docx origin_folder = [] ->
  run_word_processing load_document save_error path_exists glob_docx percent
                      origin_folder dest_folder pairs w
  = Ret (log_message
           w
           (if negb (path_exists origin_folder)
            then InvalidFolder (lit "origin") origin_folder
            else if negb (path_exists dest_folder)
                 then InvalidFolder (lit "destination") dest_folder
                 else NoWordDocuments)).
Proof.
  intros H. unfold run_word_processing, validate_folder.
  destruct (path_exists origin_folder); cbn [negb]; [|reflexivity].
  destruct (path_exists dest_folder); cbn [negb]; [|reflexivity].
  destruct H as [H | [H | H]]; try discriminate. now rewrite H.
Qed.

Lemma gui_batch_refuses_to_start_witness :
  run_word_processing sample_load sample_save_error (fun _ => false) sample_glob
                      sample_percent (lit "in") (lit "out") sample_rules empty_gui
  = Ret (mkGui [] [InvalidFolder (lit "origin") (lit "in")] []).
Proof.
  rewrite (@gui_batch_refuses_to_start sample_load sample_save_error
             (fun _ => false) sample_glob sample_percent (lit "in") (lit "out")
             sample_rules empty_gui); [reflexivity | now left].
Defined.

(** ** The font change of the GUI and the font batch *)

(** A loop that assigns to every run through its proxy. *)
Lemma fold_modify (g : Run -> Run) ids :
  (forall r, g (g r) = g r) ->
  forall p,
    fold_left (fun p run => modify p run g) ids p
    = mkParagraph
        (map (fun e => if existsb (Nat.eqb (el_id e)) ids
                       then mkElement (el_id e) (g (el_run e)) else e)
             (children p))
        (next_id p).
Proof.
  intros Hg. induction ids as [|id ids IH]; intros p.
  - cbn [fold_left existsb]. destruct p as [cs n]. cbn [children next_id].
    now rewrite map_id.
  - cbn [fold_left]. rewrite IH. unfold modify. cbn [children next_id].
    f_equal. rewrite map_map. apply map_ext. intros e.
    cbn [existsb]. unfold is_elem.
    destruct (el_id e =? id) eqn:E; cbn [orb el_id el_run].
    + destruct (existsb _ ids); [now rewrite Hg | reflexivity].
    + reflexivity.
Qed.

Lemma size_paragraph_spec size p :
  size_paragraph size p
  = mkParagraph (map (fun e => mkElement (el_id e)
                                         (set_font_size (Some size) (el_run e)))
                     (children p))
                (next_id p).
Proof.
  unfold size_paragraph. rewrite fold_modify by reflexivity. f_equal.
  apply map_ext_in. intros e He.
  assert (H : existsb (Nat.eqb (el_id e)) (runs p) = true).
  { apply existsb_exists. exists (el_id e). split.
    - unfold runs. now apply in_map.
    - apply Nat.eqb_refl. }
  now rewrite H.
Qed.

(** X12. The font change of the GUI sets the size of every run of every
    body paragraph to 12pt and nothing else: the font name, the text and
    the other attributes of those runs stay, and tables and section
    footers are not visited at all. Doing it twice is doing it once, and
    the font pass of [Change_Font.py] done after it gives what that pass
    gives alone. *)
Theorem gui_font_change_sets_size_only (doc : Document) :
  body_runs (font_size_pass doc)
  = map (map (set_font_size (Some (Pt 12)))) (body_runs doc) /\
  Forall (Forall (fun r => font_size r = Some 152400%Z))
         (body_runs (font_size_pass doc)) /\
  map (map font_name) (body_runs (font_size_pass doc))
  = map (map font_name) (body_runs doc) /\
  tables (font_size_pass doc) = tables doc /\
  sections (font_size_pass doc) = sections doc /\
  font_size_pass (font_size_pass doc) = font_size_pass doc /\
  change_font (font_size_pass doc) = change_font doc.
Proof.
  assert (B : body_runs (font_size_pass doc)
              = map (map (set_font_size (Some (Pt 12)))) (body_runs doc)).
  { unfold body_runs, font_size_pass. cbn [paragraphs]. rewrite !map_map.
    apply map_ext. intros p. rewrite size_paragraph_spec. unfold run_list.
    cbn [children]. now rewrite !map_map. }
  split; [exact B|]. split; [|split; [|split; [|split; [|split]]]].
  - rewrite B. apply Forall_map, Forall_forall. intros l _.
    apply Forall_map, Forall_forall. reflexivity.
  - rewrite B, map_map. apply map_ext. intros l. rewrite map_map. reflexivity.
  - reflexivity.
  - reflexivity.
  - unfold font_size_pass. cbn [paragraphs tables sections]. f_equal.
    rewrite map_map. apply map_ext. intros p.
    rewrite !size_paragraph_spec. cbn [children next_id]. f_equal.
    rewrite map_map. reflexivity.
  - unfold change_font, font_size_pass. cbn [paragraphs tables sections]. f_equal.
    rewrite map_map. apply map_ext. intros p.
    rewrite !font_paragraph_spec, size_paragraph_spec. cbn [children next_id].
    f_equal. rewrite map_map. reflexivity.
Qed.

(** The two font passes differ: the one of the GUI leaves Times in the
    body and the footer at 10pt. *)
Example gui_font_change_sample :
  body_runs (font_size_pass sample_document)
  = [[times_run "Body" 12]] /\
  footer_runs (font_size_pass sample_document) = [[[times_run "Footer" 10]]] /\
  font_size_pass sample_document <> change_font sample_document.
Proof.
  split; [vm_compute; reflexivity|]. split; [vm_compute; reflexivity|].
  vm_compute. discriminate.
Qed.

Section FontBatchProperties.

Variable load_document : Path -> Document + exn.
Variable save_error : Path -> option exn.
Variable mkdir_error : str -> option exn.
Variable dest_folder : str.

Let outcome := font_result load_document save_error mkdir_error dest_folder.

Let written (file : Path) : list (Path * Document) :=
  match outcome file with
  | inl doc => [(mkPath dest_folder (name file), doc)]
  | inr _ => []
  end.

Let records (file : Path) : list font_record :=
  [FontProcessing (name file);
   match outcome file with
   | inl _ => FontSaved (mkPath dest_folder (name file))
   | inr e => FontError file e
   end].

Lemma change_font_in_docx_spec w file :
  change_font_in_docx load_document save_error mkdir_error file dest_folder
                      (font_logging w (FontProcessing (name file)))
  = Ret (mkFontWorld (font_saved w ++ written file)
                     (font_log w ++ records file)).
Proof.
  unfold change_font_in_docx, written, records, outcome, font_result,
    font_logging.
  cbn [font_saved font_log].
  destruct (load_document file) as [doc | e]; cbn [call bind].
  - destruct (mkdir_error dest_folder) as [e|]; cbn [check bind].
    + now rewrite app_nil_r, <- app_assoc.
    + destruct (save_error _) as [e|]; cbn [check bind].
      * now rewrite app_nil_r, <- app_assoc.
      * cbn [font_saved font_log]. now rewrite <- app_assoc.
  - now rewrite app_nil_r, <- app_assoc.
Qed.

Lemma font_loop_spec files :
  forall w,
    for_each (fun w file =>
                change_font_in_docx load_document save_error mkdir_error file
                                    dest_folder
                                    (font_logging w (FontProcessing (name file))))
             w files
    = Ret (mkFontWorld (font_saved w ++ flat_map written files)
                       (font_log w ++ flat_map records files)).
Proof.
  induction files as [|file files IH]; intros w.
  - cbn. rewrite !app_nil_r. now destruct w.
  - cbn [for_each flat_map]. rewrite change_font_in_docx_spec. cbn [bind].
    rewrite IH. cbn [font_saved font_log]. now rewrite <- !app_assoc.
Qed.

End FontBatchProperties.

(** X13. The font batch over a non-empty folder always returns and takes
    the files in order. For each file it logs that it is processing it and
    then either that the file was saved, the document written to the
    destination folder under its own name being the loaded one after the
    font pass, or the error of that file: an error raised by the loader,
    by the creation of the destination folder or by the save is caught in
    [change_font_in_docx]. A destination folder that cannot be created
    thus fails every file, one by one, and never the batch. *)
Theorem font_batch_isolates_failures
        (load_document : Path -> Document + exn)
        (save_error : Path -> option exn)
        (mkdir_error : str -> option exn)
        (docx_files : list Path) (dest_folder : str) (w : FontWorld) :
  docx_files <> [] ->
  process_folder load_document save_error mkdir_error docx_files dest_folder w
  = Ret (mkFontWorld
           (font_saved w
            ++ flat_map
                 (fun file =>
                    match font_result load_document save_error mkdir_error
                                      dest_folder file with
                    | inl doc => [(mkPath dest_folder (name file), doc)]
                    | inr _ => []
                    end)
                 docx_files)
           (font_log w
            ++ FontFound (length docx_files)
            :: flat_map
                 (fun file =>
                    [FontProcessing (name file);
                     match font_result load_document save_error mkdir_error
                                       dest_folder file with
                     | inl _ => FontSaved (mkPath dest_folder (name file))
                     | inr e => FontError file e
                     end])
                 docx_files
            ++ [FontAllProcessed])).
Proof.
  intros Hfiles. unfold process_folder.
  destruct docx_files as [|file files]; [congruence|].
  rewrite font_loop_spec. cbn [bind]. unfold font_logging.
  cbn [font_saved font_log]. f_equal. f_equal.
  rewrite <- !app_assoc. reflexivity.
Qed.

Lemma font_batch_isolates_failures_witness :
  process_folder sample_load no_error no_error sample_files (lit "out")
                 (mkFontWorld [] [])
  = Ret (mkFontWorld
           [(mkPath (lit "out") (lit "Draft - Jan.docx"), change_font sample_document);
            (mkPath (lit "out") (lit "Draft - Feb.docx"), change_font sample_document)]
           [FontFound 3;
            FontProcessing (lit "Draft - Jan.docx");
            FontSaved (mkPath (lit "out") (lit "Draft - Jan.docx"));
            FontProcessing (lit "bad.docx");
            FontError (mkPath (lit "in") (lit "bad.docx"))
                      (Exception (lit "Package not found"));
            FontProcessing (lit "Draft - Feb.docx");
            FontSaved (mkPath (lit "out") (lit "Draft - Feb.docx"));
            FontAllProcessed]).
Proof.
  rewrite (@font_batch_isolates_failures sample_load no_error no_error
             sample_files (lit "out") (mkFontWorld [] []));
    [vm_compute; reflexivity | discriminate].
Defined.

Section GuiFontProperties.

Variable load_document : Path -> Document + exn.
Variable save_error : Path -> option exn.
Variable percent : nat -> nat -> Z.
Variable dest_folder : str.
Variable total_files : nat.

Let outcome := gui_font_result load_document save_error dest_folder.

Let written (file : Path) : list (Path * Document) :=
  match outcome file with
  | inl doc => [(mkPath dest_folder (name file), doc)]
  | inr _ => []
  end.

Let message (file : Path) : gui_message :=
  match outcome file with
  | inl _ => UpdatedFont (name file)
  | inr e => ErrorUpdatingFont (name file) e
  end.

Let tick (ifile : nat * Path) : list (str * Z) :=
  match outcome (snd ifile) with
  | inl _ => [(CF_PROGRESS, percent (fst ifile + 1) total_files)]
  | inr _ => []
  end.

Lemma font_file_step_spec w i file :
  font_file_step load_document save_error percent dest_folder total_files
                 w (i, file)
  = Ret (mkGui (gui_saved w ++ written file)
               (log_queue w ++ [message file])
               (progress_queue w ++ tick (i, file))).
Proof.
  unfold font_file_step, written, message, tick, outcome, gui_font_result.
  cbn [fst snd].
  destruct (load_document file) as [doc | e]; cbn [call bind].
  - destruct (save_error _) as [e|]; cbn [check bind].
    + unfold log_message. now rewrite !app_nil_r.
    + reflexivity.
  - unfold log_message. now rewrite !app_nil_r.
Qed.

Lemma gui_font_loop_spec files :
  forall i w,
    for_each (font_file_step load_document save_error percent dest_folder
                             total_files)
             w (combine (seq i (length files)) files)
    = Ret (mkGui (gui_saved w ++ flat_map written files)
                 (log_queue w ++ map message files)
                 (progress_queue w
                  ++ flat_map tick (combine (seq i (length files)) files))).
Proof.
  induction files as [|file files IH]; intros i w.
  - cbn. rewrite !app_nil_r. now destruct w.
  - cbn [length seq combine for_each flat_map map].
    rewrite font_file_step_spec. cbn [bind]. rewrite IH.
    cbn [gui_saved log_queue progress_queue]. now rewrite <- !app_assoc.
Qed.

End GuiFontProperties.

(** X14. With both folders present and at least one document,
    [run_font_change] always returns and leaves one message a file, in
    order: a file that loads and saves is written to the destination
    folder under its own name, its body runs at 12pt and the rest as
    loaded, and ticks the progress bar; a file that fails leaves an error
    message, writes nothing and does not stop the files after it. *)
Theorem gui_font_batch_isolates_failures
        (load_document : Path -> Document + exn)
        (save_error : Path -> option exn)
        (path_exists : str -> bool) (glob_docx : str -> list Path)
        (percent : nat -> nat -> Z)
        (origin_folder dest_folder : str) (w : Gui) :
  path_exists origin_folder = true ->
  path_exists dest_folder = true ->
  glob_docx origin_folder <> [] ->
  run_font_change load_document save_error path_exists glob_docx percent
                  origin_folder dest_folder w
  = Ret (mkGui
           (gui_saved w
            ++ flat_map
                 (fun file =>
                    match gui_font_result load_document save_error dest_folder file with
                    | inl doc => [(mkPath dest_folder (name file), doc)]
                    | inr _ => []
                    end)
                 (glob_docx origin_folder))
           (log_queue w
            ++ map
                 (fun file =>
                    match gui_font_result load_document save_error dest_folder file with
                    | inl _ => UpdatedFont (name file)
                    | inr e => ErrorUpdatingFont (name file) e
                    end)
                 (glob_docx origin_folder)
            ++ [FontChangeCompleted])
           (progress_queue w
            ++ flat_map
                 (fun ifile =>
                    match gui_font_result load_document save_error dest_folder
                                          (snd ifile) with
                    | inl _ =>
                        [(CF_PROGRESS,
                          percent (fst ifile + 1) (length (glob_docx origin_folder)))]
                    | inr _ => []
                    end)
                 (enumerate (glob_docx origin_folder)))).
Proof.
  intros Ho Hd Hfiles. unfold run_font_change, validate_folder.
  rewrite Ho, Hd. cbn [negb].
  replace (length (glob_docx origin_folder) =? 0) with false
    by (symmetry; apply Nat.eqb_neq;
        destruct (glob_docx origin_folder); [congruence | discriminate]).
  unfold enumerate. rewrite gui_font_loop_spec. cbn [bind].
  unfold log_message. cbn [gui_saved log_queue progress_queue].
  now rewrite <- app_assoc.
Qed.

Lemma gui_font_batch_isolates_failures_witness :
  run_font_change sample_load no_error every_folder sample_glob sample_percent
                  (lit "in") (lit "out") empty_gui
  = Ret (mkGui
           [(mkPath (lit "out") (lit "Draft - Jan.docx"), font_size_pass sample_document);
            (mkPath (lit "out") (lit "Draft - Feb.docx"), font_size_pass sample_document)]
           [UpdatedFont (lit "Draft - Jan.docx");
            ErrorUpdatingFont (lit "bad.docx") (Exception (lit "Package not found"));
            UpdatedFont (lit "Draft - Feb.docx");
            FontChangeCompleted]
           [(CF_PROGRESS, 33%Z); (CF_PROGRESS, 100%Z)]).
Proof.
  rewrite (@gui_font_batch_isolates_failures sample_load no_error every_folder
             sample_glob sample_percent (lit "in") (lit "out") empty_gui);
    [vm_compute; reflexivity | reflexivity | reflexivity | discriminate].
Defined.

(** ** The table of rules of the GUI *)

Lemma pair_eqb_true a b : pair_eqb a b = true <-> a = b.
Proof.
  unfold pair_eqb, str_eqb. destruct a as [a1 a2], b as [b1 b2]. cbn [fst snd].
  destruct (list_eq_dec ascii_dec a1 b1), (list_eq_dec ascii_dec a2 b2);
    cbn [andb]; split; intros H; try discriminate; try congruence;
    injection H; congruence.
Qed.

Lemma nth_error_cut {A} (l : list A) n x :
  nth_error l n = Some x -> l = firstn n l ++ x :: skipn (S n) l.
Proof.
  revert n; induction l as [|a l IH]; intros [|n] H; try discriminate.
  - injection H as ->. reflexivity.
  - cbn [nth_error] in H. cbn [firstn skipn app]. f_equal. now apply IH.
Qed.

Lemma delete_row_ok pairs msgs row pairs' msgs' :
  table_ok pairs -> delete_row (pairs, msgs) row = Ret (pairs', msgs') ->
  table_ok pairs'.
Proof.
  intros [Hnd Hall]. unfold delete_row.
  destruct (nth_error pairs row) as [x|] eqn:E; [|discriminate].
  intros H. injection H as <- _. apply nth_error_cut in E.
  rewrite E in Hnd, Hall. split.
  - eapply NoDup_remove_1. exact Hnd.
  - apply Forall_app in Hall as [H1 H2]. apply Forall_app. split; [exact H1|].
    now inversion H2.
Qed.

Lemma delete_rows_ok rows :
  forall pairs msgs pairs' msgs',
    table_ok pairs -> for_each delete_row (pairs, msgs) rows = Ret (pairs', msgs') ->
    table_ok pairs'.
Proof.
  induction rows as [|row rows IH]; intros pairs msgs pairs' msgs' Hok H.
  - cbn in H. now injection H as <- _.
  - cbn [for_each] in H.
    destruct (delete_row (pairs, msgs) row) as [[p1 m1] | e |] eqn:E;
      cbn [bind] in H; try discriminate.
    eapply IH; [|exact H]. eapply delete_row_ok; eassumption.
Qed.

Lemma handle_event_ok pairs ev pairs' msgs :
  table_ok pairs -> handle_event pairs ev = Ret (pairs', msgs) -> table_ok pairs'.
Proof.
  intros Hok. destruct ev as [old_field new_field | rows |]; cbn [handle_event].
  - destruct (strip old_field) as [|c o] eqn:Eo; cbn [truthy andb].
    + intros H. now injection H as <- _.
    + destruct (strip new_field) as [|d n] eqn:En; cbn [truthy].
      * intros H. now injection H as <- _.
      * destruct (existsb _ pairs) eqn:Ex; cbn [negb];
          intros H; injection H as <- _; [assumption|].
        destruct Hok as [Hnd Hall]. split.
        -- apply NoDup_rev in Hnd. rewrite <- (rev_involutive (pairs ++ _)).
           apply NoDup_rev. rewrite rev_app_distr. cbn [rev app].
           constructor; [|exact Hnd]. intros Hin. apply in_rev in Hin.
           assert (Ht : existsb (pair_eqb (c :: o, d :: n)) pairs = true).
           { apply existsb_exists. exists (c :: o, d :: n). split; [assumption|].
             now apply pair_eqb_true. }
           exact (eq_true_false_abs _ Ht Ex).
        -- apply Forall_app. split; [assumption|]. constructor; [|constructor].
           cbn [fst snd]. split; [discriminate|]. split; [discriminate|].
           unfold stripped. rewrite <- Eo, <- En. split; apply strip_idem.
  - destruct rows as [|row rows]; [intros H; now injection H as <- _|].
    apply delete_rows_ok. exact Hok.
  - intros H. injection H as <- _. split; constructor.
Qed.

(** X15. Whatever is clicked, the table of rules of the GUI only ever
    holds rows that are pairwise different and whose old and new text are
    both non-empty and stripped: adding refuses blank fields and rows
    that are there already, and removing and clearing only take rows
    away. So a rule handed to [run_word_processing] never has an empty old
    text. *)
Theorem gui_table_stays_ok (events : list gui_event) (pairs : list (str * str)) :
  table_after events = Ret pairs -> table_ok pairs.
Proof.
  unfold table_after.
  assert (G : forall start, table_ok start ->
                for_each (fun replacement_pairs ev =>
                            r <- handle_event replacement_pairs ev ;; Ret (fst r))
                         start events = Ret pairs ->
                table_ok pairs).
  { induction events as [|ev events IH]; intros start Hok H.
    - cbn in H. now injection H as <-.
    - cbn [for_each] in H.
      destruct (handle_event start ev) as [[p1 m1] | e |] eqn:E;
        cbn [bind fst] in H; try discriminate.
      eapply IH; [|exact H]. eapply handle_event_ok; eassumption. }
  apply G. split; constructor.
Qed.

Lemma gui_table_stays_ok_witness :
  table_after [AddClicked (lit " Draft ") (lit "Final");
               AddClicked (lit "Draft") (lit " Final");
               AddClicked (lit "   ") (lit "x");
               AddClicked (lit "2024") (lit "2025");
               RemoveClicked [0]]
  = Ret [(lit "2024", lit "2025")] /\
  table_ok [(lit "2024", lit "2025")].
Proof.
  assert (E : table_after [AddClicked (lit " Draft ") (lit "Final");
                           AddClicked (lit "Draft") (lit " Final");
                           AddClicked (lit "   ") (lit "x");
                           AddClicked (lit "2024") (lit "2025");
                           RemoveClicked [0]]
              = Ret [(lit "2024", lit "2025")])
    by (vm_compute; reflexivity).
  split; [exact E|]. exact (gui_table_stays_ok _ E).
Defined.

Lemma insert_desc_perm x l : Permutation (insert_desc x l) (x :: l).
Proof.
  induction l as [|y l IH]; cbn [insert_desc]; [reflexivity|].
  destruct (y <? x); [reflexivity|].
  rewrite IH. apply perm_swap.
Qed.

Lemma sorted_reverse_perm rows : Permutation (sorted_reverse rows) rows.
Proof.
  induction rows as [|x rows IH]; cbn [sorted_reverse fold_right]; [reflexivity|].
  fold (sorted_reverse rows). rewrite insert_desc_perm. now constructor.
Qed.

Lemma insert_desc_descending x l : descending l -> descending (insert_desc x l).
Proof.
  induction l as [|y l IH]; cbn [insert_desc descending]; [intros; split; constructor|].
  intros [Hy Hl]. destruct (Nat.ltb_spec y x).
  - cbn [descending]. split; [|split; assumption].
    constructor; [lia|]. eapply Forall_impl; [|exact Hy]. simpl. intros; lia.
  - cbn [descending]. split; [|now apply IH].
    apply (Permutation_Forall (Permutation_sym (insert_desc_perm x l))).
    constructor; [lia | assumption].
Qed.

Lemma sorted_reverse_descending rows : descending (sorted_reverse rows).
Proof.
  induction rows as [|x rows IH]; cbn [sorted_reverse fold_right]; [exact I|].
  now apply insert_desc_descending.
Qed.

Lemma drop_rows_none {A} rows (l : list A) :
  forall i, (forall j, i <= j -> existsb (Nat.eqb j) rows = false) ->
            drop_rows rows i l = l.
Proof.
  induction l as [|a l IH]; intros i H; [reflexivity|]. cbn [drop_rows].
  rewrite (H i) by lia. f_equal. apply IH. intros j Hj. apply H. lia.
Qed.

Lemma existsb_eqb_false j rows :
  Forall (fun y => y <> j) rows -> existsb (Nat.eqb j) rows = false.
Proof.
  induction 1 as [|y rows Hy _ IH]; [reflexivity|]. cbn [existsb].
  rewrite IH, orb_false_r. apply Nat.eqb_neq. congruence.
Qed.

(** Deleting the row [x] first and the smaller rows then is dropping them
    all at once. *)
Lemma drop_rows_delete {A} x d (l : list A) :
  Forall (fun y => y < x) d ->
  forall i, i <= x -> x < i + length l ->
            drop_rows (x :: d) i l
            = drop_rows d i (firstn (x - i) l ++ skipn (S (x - i)) l).
Proof.
  intros Hd. induction l as [|a l IH]; intros i Hi Hx; [simpl in Hx; lia|].
  cbn [drop_rows existsb]. destruct (Nat.eq_dec i x) as [-> | Hne].
  - rewrite Nat.eqb_refl, Nat.sub_diag. cbn [orb firstn skipn app].
    rewrite !drop_rows_none; [reflexivity | |].
    + intros j Hj. apply existsb_eqb_false.
      eapply Forall_impl; [|exact Hd]. simpl. intros; lia.
    + intros j Hj. cbn [existsb].
      replace (j =? x) with false by (symmetry; apply Nat.eqb_neq; lia).
      apply existsb_eqb_false. eapply Forall_impl; [|exact Hd]. simpl. intros; lia.
  - replace (i =? x) with false by (symmetry; now apply Nat.eqb_neq).
    cbn [orb]. replace (x - i) with (S (x - S i)) by lia.
    cbn [firstn skipn app drop_rows].
    rewrite IH by (simpl in Hx; lia). reflexivity.
Qed.

Lemma drop_rows_ext {A} rows rows' (l : list A) :
  (forall j, existsb (Nat.eqb j) rows = existsb (Nat.eqb j) rows') ->
  forall i, drop_rows rows i l = drop_rows rows' i l.
Proof.
  intros H. induction l as [|a l IH]; intros i; [reflexivity|].
  cbn [drop_rows]. now rewrite H, !IH.
Qed.

Lemma existsb_perm j rows rows' :
  Permutation rows rows' ->
  existsb (Nat.eqb j) rows = existsb (Nat.eqb j) rows'.
Proof.
  intros P. destruct (existsb (Nat.eqb j) rows') eqn:E.
  - apply existsb_exists in E as [y [Hy E]]. apply existsb_exists. exists y.
    split; [|exact E]. eapply Permutation_in; [|exact Hy]. now symmetry.
  - destruct (existsb (Nat.eqb j) rows) eqn:E'; [|reflexivity].
    apply existsb_exists in E' as [y [Hy E']].
    assert (existsb (Nat.eqb j) rows' = true)
      by (apply existsb_exists; exists y; split;
          [eapply Permutation_in; eassumption | exact E']).
    congruence.
Qed.

Lemma length_drop_rows_delete {A} (l : list A) x v :
  nth_error l x = Some v -> S (length (firstn x l ++ skipn (S x) l)) = length l.
Proof.
  intros H. rewrite (nth_error_cut l x H) at 3. rewrite !length_app. simpl. lia.
Qed.

(** Deleting rows from the largest down. *)
Lemma delete_descending d :
  forall (l : list (str * str)) msgs,
    descending d -> NoDup d -> Forall (fun y => y < length l) d ->
    exists msgs',
      for_each delete_row (l, msgs) d = Ret (drop_rows d 0 l, msgs') /\
      length msgs' = length msgs + length d /\
      length (drop_rows d 0 l) + length d = length l.
Proof.
  induction d as [|x d IH]; intros l msgs Hdesc Hnd Hlt.
  - exists msgs. cbn [for_each]. rewrite drop_rows_none by reflexivity.
    split; [reflexivity|]. simpl. lia.
  - destruct Hdesc as [Hle Hdesc]. inversion Hnd as [|? ? Hnin Hnd']; subst.
    inversion Hlt as [|? ? Hx Hlt']; subst.
    assert (Hsmall : Forall (fun y => y < x) d).
    { rewrite Forall_forall in *. intros y Hy. specialize (Hle y Hy).
      assert (y <> x) by (intros ->; contradiction). lia. }
    cbn [for_each]. unfold delete_row at 1.
    destruct (nth_error l x) as [v|] eqn:E;
      [|apply nth_error_None in E; lia].
    cbn [bind]. pose proof (length_drop_rows_delete l x E) as Hlen.
    destruct (IH (firstn x l ++ skipn (S x) l)
                 (msgs ++ [RemovedPair (fst v) (snd v)]) Hdesc Hnd')
      as (msgs' & Hr & Hm & Hc).
    + rewrite Forall_forall in *. intros y Hy. specialize (Hsmall y Hy). lia.
    + assert (Ed : drop_rows (x :: d) 0 l
                   = drop_rows d 0 (firstn x l ++ skipn (S x) l)).
      { rewrite (@drop_rows_delete _ x d l Hsmall 0) by lia.
        now rewrite Nat.sub_0_r. }
      exists msgs'. rewrite Ed. split; [exact Hr|]. split.
      * rewrite Hm, length_app. simpl. lia.
      * cbn [length]. lia.
Qed.

(** X16. Removing deletes exactly the selected rows: with rows that are
    pairwise different and all within the table, given in any order, the
    table afterwards holds the rows at the positions that were not
    selected, in their order, and one message is logged for each row
    removed. The rows are deleted from the largest down, so that a
    deletion does not shift a row that is still to be deleted. *)
Theorem remove_deletes_selected_rows (pairs : list (str * str)) (rows : list nat) :
  NoDup rows -> Forall (fun row => row < length pairs) rows ->
  exists messages,
    handle_event pairs (RemoveClicked rows) = Ret (drop_rows rows 0 pairs, messages) /\
    length messages = length rows /\
    length (drop_rows rows 0 pairs) + length rows = length pairs.
Proof.
  intros Hnd Hlt.
  assert (P := sorted_reverse_perm rows).
  destruct (@delete_descending (sorted_reverse rows) pairs [])
    as (msgs & Hr & Hm & Hc).
  - apply sorted_reverse_descending.
  - eapply Permutation_NoDup; [symmetry; exact P | exact Hnd].
  - eapply Permutation_Forall; [symmetry; exact P | exact Hlt].
  - assert (E : drop_rows (sorted_reverse rows) 0 pairs = drop_rows rows 0 pairs)
      by (apply drop_rows_ext; intros j; now apply existsb_perm).
    rewrite E in Hr, Hc. rewrite (Permutation_length P) in Hm, Hc.
    cbn [length Nat.add] in Hm.
    destruct rows as [|row rows'].
    + exists []. cbn [handle_event]. rewrite drop_rows_none by reflexivity.
      split; [reflexivity|]. split; [reflexivity|].
      rewrite drop_rows_none in Hc by reflexivity. exact Hc.
    + exists msgs. cbn [handle_event]. split; [exact Hr|]. split; assumption.
Qed.

Lemma remove_deletes_selected_rows_witness :
  exists messages,
    handle_event [(lit "a", lit "1"); (lit "b", lit "2"); (lit "c", lit "3");
                  (lit "d", lit "4")]
                 (RemoveClicked [1; 3; 0])
    = Ret ([(lit "c", lit "3")], messages) /\
    length messages = 3.
Proof.
  destruct (@remove_deletes_selected_rows
              [(lit "a", lit "1"); (lit "b", lit "2"); (lit "c", lit "3");
               (lit "d", lit "4")] [1; 3; 0])
    as (messages & H1 & H2 & _).
  - repeat (constructor; [simpl; lia|]). constructor.
  - repeat (constructor; [simpl; lia|]). constructor.
  - exists messages. split; [exact H1 | exact H2].
Defined.

Lemma sorted_reverse_head rows r :
  In r rows -> exists m rest, sorted_reverse rows = m :: rest /\ r <= m.
Proof.
  intros Hin.
  pose proof (sorted_reverse_descending rows) as Hd.
  pose proof (sorted_reverse_perm rows) as P.
  apply (Permutation_in _ (Permutation_sym P)) in Hin.
  destruct (sorted_reverse rows) as [|m rest]; [contradiction|].
  exists m, rest. split; [reflexivity|]. destruct Hd as [Hle _].
  destruct Hin as [-> | Hin]; [lia|]. rewrite Forall_forall in Hle. now apply Hle.
Qed.

(** X17. If one of the selected rows is not a row of the table, removing
    raises [IndexError], and it does so at the first deletion, the rows
    being taken from the largest down: no row has been deleted then. *)
Theorem remove_outside_the_table_raises (pairs : list (str * str))
        (rows : list nat) (row : nat) :
  In row rows -> length pairs <= row ->
  handle_event pairs (RemoveClicked rows) = Raise IndexError /\
  exists m rest,
    sorted_reverse rows = m :: rest /\
    delete_row (pairs, []) m = Raise IndexError.
Proof.
  intros Hin Hlen.
  destruct (sorted_reverse_head rows row Hin) as (m & rest & Es & Hm).
  assert (Ed : forall msgs, delete_row (pairs, msgs) m = Raise IndexError).
  { intros msgs. unfold delete_row.
    destruct (nth_error pairs m) as [v|] eqn:E; [|reflexivity].
    assert (m < length pairs) by (apply nth_error_Some; congruence). lia. }
  split.
  - destruct rows as [|r0 rows']; [contradiction|]. cbn [handle_event].
    rewrite Es. cbn [for_each]. now rewrite Ed.
  - exists m, rest. split; [exact Es | apply Ed].
Qed.

Lemma remove_outside_the_table_raises_witness :
  handle_event [(lit "a", lit "1"); (lit "b", lit "2")] (RemoveClicked [0; 2])
  = Raise IndexError.
Proof.
  apply (@remove_outside_the_table_raises
           [(lit "a", lit "1"); (lit "b", lit "2")] [0; 2] 2).
  - simpl. auto.
  - simpl. lia.
Defined.

(** ** The command-line program *)

Section MainProperties.

Variable load_document : Path -> Document + exn.
Variable save_error : Path -> option exn.
Variable mkdir_error : str -> option exn.
Variable as_completed : list Path -> list Path.

(** The batch ends for every folder, whether or not the destination can
    be made; the only error it lets out is that of [mkdir]. *)
Lemma process_directory_settles files destination_folder rules w :
  Forall (fun rule => fst rule <> []) rules ->
  exists r,
    settles (fun fuel => process_directory load_document save_error mkdir_error
                                           as_completed fuel files
                                           destination_folder rules w) r /\
    match r with
    | Ret w' =>
        exists recs, log w' = log w ++ recs /\ recs <> []
    | Raise e => mkdir_error destination_folder = Some e /\ files <> []
    | Diverge => False
    end.
Proof.
  intros Hrules. unfold process_directory.
  destruct (length files =? 0) eqn:En.
  - exists (Ret (logging w InfoNoFiles)). split.
    + apply (@settles_const _ (Ret (logging w InfoNoFiles))). discriminate.
    + exists [InfoNoFiles]. split; [reflexivity | discriminate].
  - assert (Hf : files <> [])
      by (intros ->; discriminate).
    destruct (mkdir_error destination_folder) as [e|] eqn:Em; cbn [check bind].
    + exists (Raise e). split; [|split; [reflexivity | assumption]].
      apply (@settles_const _ (Raise e)). discriminate.
    + destruct (@futures_loop load_document save_error destination_folder rules
                              (length files) Hrules (as_completed files)
                              (logging w (InfoFound (length files))) 0 0)
        as (w1 & recs & s & Hs & Hl & _ & _).
      exists (Ret (logging w1 (InfoComplete (0 + length (as_completed files))
                                            (length files)))).
      split.
      * apply (@settles_bind_ret _ _
                 (fun f => for_each (on_future load_document save_error f rules
                                               destination_folder (length files))
                                    (logging w (InfoFound (length files)), 0, 0)
                                    (as_completed files))
                 (fun _ st => let '(w0, _, files_processed) := st in
                              Ret (logging w0 (InfoComplete files_processed
                                                            (length files))))
                 (w1, 0 + length (as_completed files),
                  0 + length (as_completed files))); [exact Hs|].
        apply (@settles_const
                 _ (Ret (logging w1 (InfoComplete (0 + length (as_completed files))
                                                  (length files))))).
        discriminate.
      * eexists. cbn [logging log]. rewrite Hl. cbn [logging log].
        rewrite <- !app_assoc. split; [reflexivity|].
        intros E. apply (f_equal (@length _)) in E. simpl in E. lia.
Qed.

End MainProperties.

(** X18. The command-line program comes to an end on every input and in
    every state of the folders: it never hangs in the scan of a run,
    because the rules it reads have a non-empty old text. It ends with the
    message that the origin folder is missing, with the notice that no
    rule was given, with the batch done, or with an exception, which is
    then [EOFError] (the input ended early) or the error of creating the
    destination folder. *)
Theorem main_always_ends
        (load_document : Path -> Document + exn)
        (save_error : Path -> option exn)
        (mkdir_error : str -> option exn)
        (as_completed : list Path -> list Path)
        (is_dir : str -> bool) (glob_docx : str -> list Path)
        (stdin : list str) (w : World) :
  exists r,
    settles (fun fuel => main load_document save_error mkdir_error as_completed
                              is_dir glob_docx fuel stdin w) r /\
    match r with
    | Ret (OriginMissing origin_folder) => is_dir origin_folder = false
    | Ret NoReplacements => True
    | Ret (BatchRun w') => exists recs, log w' = log w ++ recs /\ recs <> []
    | Raise e => e = EOFError \/ exists folder, mkdir_error folder = Some e
    | Diverge => False
    end.
Proof.
  unfold main.
  destruct stdin as [|line1 stdin]; cbn [input bind].
  { exists (Raise EOFError). split; [|now left].
    apply (@settles_const _ (Raise EOFError)). discriminate. }
  destruct stdin as [|line2 stdin]; cbn [input bind].
  { exists (Raise EOFError). split; [|now left].
    apply (@settles_const _ (Raise EOFError)). discriminate. }
  destruct (is_dir (strip line1)) eqn:Ed; cbn [negb].
  2:{ exists (Ret (OriginMissing (strip line1))). split; [|exact Ed].
      apply (@settles_const _ (Ret (OriginMissing (strip line1)))). discriminate. }
  pose proof (rules_read_are_well_formed_aux stdin) as Hr.
  destruct (get_replacements_from_user stdin) as [[rules rest] | e |];
    cbn [bind]; [| |contradiction].
  - destruct rules as [|rule rules].
    + exists (Ret NoReplacements). split; [|exact I].
      apply (@settles_const _ (Ret NoReplacements)). discriminate.
    + assert (Hne : Forall (fun rule => fst rule <> []) (rule :: rules)).
      { eapply Forall_impl; [|exact Hr]. cbv beta. tauto. }
      destruct (@process_directory_settles
                  load_document save_error mkdir_error as_completed
                  (glob_docx (strip line1)) (strip line2) (rule :: rules) w Hne)
        as [r [Hs Hprop]].
      destruct r as [w' | e |]; [| |contradiction].
      * exists (Ret (BatchRun w')). split; [|exact Hprop].
        apply (@settles_bind_ret _ _
                 (fun fuel => process_directory load_document save_error mkdir_error
                                                as_completed fuel
                                                (glob_docx (strip line1))
                                                (strip line2) (rule :: rules) w)
                 (fun _ w' => Ret (BatchRun w')) w'); [exact Hs|].
        apply (@settles_const _ (Ret (BatchRun w'))). discriminate.
      * exists (Raise e). split; [|right; exists (strip line2); apply Hprop].
        apply (@settles_bind_raise _ _
                 (fun fuel => process_directory load_document save_error mkdir_error
                                                as_completed fuel
                                                (glob_docx (strip line1))
                                                (strip line2) (rule :: rules) w)
                 (fun _ w' => Ret (BatchRun w')) e). exact Hs.
  - exists (Raise e). split; [|left; exact Hr].
    apply (@settles_const _ (Raise e)). discriminate.
Qed.

(** ** The PDF task of the GUI *)

Section PdfProperties.

Variable stem : str -> str.
Variable percent : nat -> nat -> Z.
Variable convert_error : Path -> Path -> option exn.
Variable merge_error : Path -> Path -> Path -> option exn.
Variable unlink_error : Path -> option exn.
Variable dest_folder : str.
Variable total_files : nat.

Let step := pdf_pair_step stem percent convert_error merge_error unlink_error
                          dest_folder total_files.
Let message := pdf_pair_message stem convert_error merge_error unlink_error
                                dest_folder.
Let written := pdf_pair_written stem convert_error merge_error dest_folder.
Let leaves := pdf_pair_leaves_temp stem convert_error merge_error unlink_error
                                   dest_folder.

Lemma path_eqb_refl p : path_eqb p p = true.
Proof.
  unfold path_eqb, str_eqb.
  destruct (list_eq_dec ascii_dec (folder p) (folder p)); [|congruence].
  destruct (list_eq_dec ascii_dec (name p) (name p)); [reflexivity | congruence].
Qed.

Lemma pdf_pair_step_spec w i pair :
  pdf_log (step w (i, pair)) = pdf_log w ++ [message pair] /\
  merged (step w (i, pair)) = merged w ++ written pair /\
  (leaves pair = true ->
   In (temp_of stem dest_folder (fst pair)) (temp_files (step w (i, pair)))) /\
  (leaves pair = false ->
   forall p, In p (temp_files (step w (i, pair))) -> In p (temp_files w)).
Proof.
  destruct pair as [word_file pdf_file].
  unfold step, message, written, leaves, pdf_pair_step, pdf_pair_message,
    pdf_pair_written, pdf_pair_leaves_temp, io_try, io_bind, io_check, io_do.
  fold (temp_of stem dest_folder word_file). fold (output_of dest_folder pdf_file).
  cbn [fst].
  destruct (convert_error word_file _) as [e|].
  - cbn. rewrite app_nil_r. repeat split; [discriminate | auto].
  - destruct (merge_error _ pdf_file _) as [e|].
    + cbn. rewrite app_nil_r. repeat split.
      * intros _. apply in_or_app. right. now left.
      * discriminate.
    + destruct (unlink_error _) as [e|].
      * cbn. repeat split.
        -- intros _. apply in_or_app. right. now left.
        -- discriminate.
      * cbn. repeat split; [discriminate|].
        intros _ p Hp. apply filter_In in Hp as [Hp Hneq].
        apply in_app_or in Hp as [Hp | [<- | []]]; [assumption|].
        rewrite path_eqb_refl in Hneq. discriminate.
Qed.

Lemma pdf_loop_spec pairs :
  forall i w,
    pdf_log (fold_left step (combine (seq i (length pairs)) pairs) w)
    = pdf_log w ++ map message pairs /\
    merged (fold_left step (combine (seq i (length pairs)) pairs) w)
    = merged w ++ flat_map written pairs.
Proof.
  induction pairs as [|pair pairs IH]; intros i w.
  - cbn. now rewrite !app_nil_r.
  - cbn [length seq combine fold_left map flat_map].
    destruct (IH (S i) (step w (i, pair))) as [H1 H2].
    destruct (pdf_pair_step_spec w i pair) as (S1 & S2 & _).
    rewrite H1, H2, S1, S2, <- !app_assoc. split; reflexivity.
Qed.

End PdfProperties.

Lemma pdf_task_runs_the_loop
      (path_exists : str -> bool)
      (glob_docx glob_pdf : str -> list Path) (stem : str -> str)
      (percent : nat -> nat -> Z)
      (convert_error : Path -> Path -> option exn)
      (merge_error : Path -> Path -> Path -> option exn)
      (unlink_error : Path -> option exn)
      (word_folder pdf_folder dest_folder : str) (w : PdfGui) :
  path_exists word_folder = true ->
  path_exists pdf_folder = true ->
  path_exists dest_folder = true ->
  glob_docx word_folder <> [] ->
  glob_pdf pdf_folder <> [] ->
  run_pdf_combine path_exists glob_docx glob_pdf stem percent
                  convert_error merge_error unlink_error
                  word_folder pdf_folder dest_folder w
  = pdf_log_message PdfCombineCompleted
      (fold_left (pdf_pair_step stem percent convert_error merge_error unlink_error
                                dest_folder (length (glob_docx word_folder)))
                 (enumerate (combine (glob_docx word_folder) (glob_pdf pdf_folder)))
                 w).
Proof.
  intros Hw Hp Hd Hwords Hpdfs.
  unfold run_pdf_combine, pdf_validate_folder. rewrite Hw, Hp, Hd. cbn [negb].
  replace (length (glob_docx word_folder) =? 0) with false
    by (symmetry; apply Nat.eqb_neq;
        destruct (glob_docx word_folder); [congruence | discriminate]).
  replace (length (glob_pdf pdf_folder) =? 0) with false
    by (symmetry; apply Nat.eqb_neq;
        destruct (glob_pdf pdf_folder); [congruence | discriminate]).
  reflexivity.
Qed.

(** X19. With the three folders present and at least one document and
    one invoice, [run_pdf_combine] pairs the documents with the invoices
    by their position in the two listings, not by name, and leaves one
    message a pair: what is left over of the longer listing is passed
    over without a message. A failing pair does not stop the pairs after
    it, the task always ends with the message that it is completed, and
    every pair whose conversion and merge succeed has its merged file in
    the destination folder under the name of the invoice, even when its
    message is an error because the temporary file could not be
    deleted. *)
Theorem pdf_task_pairs_by_position
        (path_exists : str -> bool)
        (glob_docx glob_pdf : str -> list Path) (stem : str -> str)
        (percent : nat -> nat -> Z)
        (convert_error : Path -> Path -> option exn)
        (merge_error : Path -> Path -> Path -> option exn)
        (unlink_error : Path -> option exn)
        (word_folder pdf_folder dest_folder : str) (w : PdfGui) :
  path_exists word_folder = true ->
  path_exists pdf_folder = true ->
  path_exists dest_folder = true ->
  glob_docx word_folder <> [] ->
  glob_pdf pdf_folder <> [] ->
  let pairs := combine (glob_docx word_folder) (glob_pdf pdf_folder) in
  let w' := run_pdf_combine path_exists glob_docx glob_pdf stem percent
                            convert_error merge_error unlink_error
                            word_folder pdf_folder dest_folder w in
  length pairs = Nat.min (length (glob_docx word_folder))
                         (length (glob_pdf pdf_folder)) /\
  pdf_log w'
  = pdf_log w
    ++ map (pdf_pair_message stem convert_error merge_error unlink_error dest_folder)
           pairs
    ++ [PdfCombineCompleted] /\
  (forall word_file pdf_file,
      In (word_file, pdf_file) pairs ->
      convert_error word_file (temp_of stem dest_folder word_file) = None ->
      merge_error (temp_of stem dest_folder word_file) pdf_file
                  (mkPath dest_folder (name pdf_file)) = None ->
      In (mkPath dest_folder (name pdf_file), (word_file, pdf_file)) (merged w')).
Proof.
  intros Hw Hp Hd Hwords Hpdfs pairs w'. subst pairs w'.
  split; [apply length_combine|].
  rewrite pdf_task_runs_the_loop by assumption.
  unfold enumerate.
  destruct (@pdf_loop_spec stem percent convert_error merge_error unlink_error
              dest_folder (length (glob_docx word_folder))
              (combine (glob_docx word_folder) (glob_pdf pdf_folder)) 0 w)
    as [H1 H2].
  unfold pdf_log_message. cbn [pdf_log merged]. rewrite H1, H2, <- app_assoc.
  split; [reflexivity|].
  intros word_file pdf_file Hin Hc Hm.
  apply in_or_app. right. apply in_flat_map.
  exists (word_file, pdf_file). split; [assumption|].
  unfold pdf_pair_written, output_of. rewrite Hc, Hm. now left.
Qed.

Lemma pdf_task_pairs_by_position_witness :
  let w' := run_pdf_combine every_folder sample_glob sample_invoice_glob sample_stem
                            sample_percent sample_convert_error sample_merge_error
                            no_error (lit "in") (lit "pdf") (lit "out")
                            empty_pdf_gui in
  pdf_log w'
  = [ErrorCombining (lit "Draft - Jan.docx") (Exception (lit "EOF marker not found"));
     ErrorCombining (lit "bad.docx") (Exception (lit "Package not found"));
     PdfCombineCompleted].
Proof.
  intro w'. subst w'.
  destruct (@pdf_task_pairs_by_position every_folder sample_glob sample_invoice_glob
              sample_stem sample_percent sample_convert_error sample_merge_error
              no_error (lit "in") (lit "pdf") (lit "out") empty_pdf_gui)
    as (_ & Hlog & _);
    [reflexivity | reflexivity | reflexivity | discriminate | discriminate |].
  rewrite Hlog. vm_compute. reflexivity.
Defined.

Section PdfTemporaryFiles.

Variable stem : str -> str.
Variable percent : nat -> nat -> Z.
Variable convert_error : Path -> Path -> option exn.
Variable merge_error : Path -> Path -> Path -> option exn.
Variable unlink_error : Path -> option exn.
Variable dest_folder : str.
Variable total_files : nat.

Let step := pdf_pair_step stem percent convert_error merge_error unlink_error
                          dest_folder total_files.
Let leaves := pdf_pair_leaves_temp stem convert_error merge_error unlink_error
                                   dest_folder.
Let temp (pair : Path * Path) : Path := temp_of stem dest_folder (fst pair).

Lemma path_eqb_eq a b : path_eqb a b = true -> a = b.
Proof.
  unfold path_eqb, str_eqb. destruct a as [fa na], b as [fb nb].
  cbn [folder name].
  destruct (list_eq_dec ascii_dec fa fb), (list_eq_dec ascii_dec na nb);
    cbn [andb]; intros H; try discriminate; congruence.
Qed.

Lemma pdf_pair_step_keeps w i pair p :
  In p (temp_files w) -> p <> temp pair -> In p (temp_files (step w (i, pair))).
Proof.
  intros Hin Hneq. destruct pair as [word_file pdf_file].
  unfold temp in Hneq. cbn [fst] in Hneq.
  unfold step, pdf_pair_step, io_try, io_bind, io_check, io_do.
  fold (temp_of stem dest_folder word_file).
  destruct (convert_error word_file _) as [e|]; [exact Hin|].
  destruct (merge_error _ pdf_file _) as [e|].
  - cbn. apply in_or_app. now left.
  - destruct (unlink_error _) as [e|].
    + cbn. apply in_or_app. now left.
    + cbn. apply filter_In. split; [apply in_or_app; now left|].
      destruct (path_eqb (temp_of stem dest_folder word_file) p) eqn:E;
        [|reflexivity].
      apply path_eqb_eq in E. congruence.
Qed.

Lemma pdf_step_temp_cases w i pair p :
  In p (temp_files (step w (i, pair))) -> In p (temp_files w) \/ p = temp pair.
Proof.
  destruct pair as [word_file pdf_file]. unfold temp. cbn [fst].
  unfold step, pdf_pair_step, io_try, io_bind, io_check, io_do.
  fold (temp_of stem dest_folder word_file).
  destruct (convert_error word_file _) as [e|]; [now left|].
  destruct (merge_error _ pdf_file _) as [e|].
  - cbn. intros H. apply in_app_or in H as [H | [<- | []]]; [now left | now right].
  - destruct (unlink_error _) as [e|].
    + cbn. intros H. apply in_app_or in H as [H | [<- | []]]; [now left | now right].
    + cbn. intros H. apply filter_In in H as [H _].
      apply in_app_or in H as [H | [<- | []]]; [now left | now right].
Qed.

Lemma pdf_loop_keeps pairs :
  forall i w p,
    In p (temp_files w) -> ~ In p (map temp pairs) ->
    In p (temp_files (fold_left step (combine (seq i (length pairs)) pairs) w)).
Proof.
  induction pairs as [|pair pairs IH]; intros i w p Hin Hnot; [exact Hin|].
  cbn [length seq combine fold_left]. apply IH.
  - apply pdf_pair_step_keeps; [assumption|].
    intro E. apply Hnot. left. now symmetry.
  - intro H. apply Hnot. now right.
Qed.

Lemma pdf_loop_leaves pairs :
  forall i w pair,
    NoDup (map temp pairs) -> In pair pairs -> leaves pair = true ->
    In (temp pair)
       (temp_files (fold_left step (combine (seq i (length pairs)) pairs) w)).
Proof.
  induction pairs as [|q pairs IH]; intros i w pair Hnd Hin Hl; [destruct Hin|].
  cbn [map] in Hnd. inversion Hnd as [|? ? Hq Hnd']; subst.
  cbn [length seq combine fold_left].
  destruct Hin as [-> | Hin].
  - apply pdf_loop_keeps; [|assumption].
    destruct (@pdf_pair_step_spec stem percent convert_error merge_error
                unlink_error dest_folder total_files w i pair) as (_ & _ & Hk & _).
    apply Hk. exact Hl.
  - apply IH; assumption.
Qed.

Lemma pdf_loop_cleans pairs :
  forall i w p,
    In p (temp_files (fold_left step (combine (seq i (length pairs)) pairs) w)) ->
    In p (temp_files w) \/
    exists pair, In pair pairs /\ leaves pair = true /\ p = temp pair.
Proof.
  induction pairs as [|q pairs IH]; intros i w p Hin; [now left|].
  cbn [length seq combine fold_left] in Hin.
  apply IH in Hin as [Hin | (pair & Hp & Hl & ->)].
  - destruct (leaves q) eqn:Hq.
    + destruct (pdf_step_temp_cases w i q p Hin) as [H | ->]; [now left|].
      right. exists q. repeat split; [now left | assumption].
    + destruct (@pdf_pair_step_spec stem percent convert_error merge_error
                  unlink_error dest_folder total_files w i q) as (_ & _ & _ & Hk).
      left. apply (Hk Hq). exact Hin.
  - right. exists pair. repeat split; [now right | assumption].
Qed.

End PdfTemporaryFiles.

(** X20. [run_pdf_combine] has no clean-up on the error path: when the
    documents have different temporary names, the temporary file of
    every pair whose conversion succeeds and whose merge, or whose
    deletion of the temporary file, fails is still in the destination
    folder when the task ends; and the task leaves no other temporary
    file that was not there before. *)
Theorem pdf_task_leaves_temporary_files
        (path_exists : str -> bool)
        (glob_docx glob_pdf : str -> list Path) (stem : str -> str)
        (percent : nat -> nat -> Z)
        (convert_error : Path -> Path -> option exn)
        (merge_error : Path -> Path -> Path -> option exn)
        (unlink_error : Path -> option exn)
        (word_folder pdf_folder dest_folder : str) (w : PdfGui) :
  path_exists word_folder = true ->
  path_exists pdf_folder = true ->
  path_exists dest_folder = true ->
  glob_docx word_folder <> [] ->
  glob_pdf pdf_folder <> [] ->
  let pairs := combine (glob_docx word_folder) (glob_pdf pdf_folder) in
  let leaves := pdf_pair_leaves_temp stem convert_error merge_error unlink_error
                                     dest_folder in
  let temp := fun pair : Path * Path => temp_of stem dest_folder (fst pair) in
  let w' := run_pdf_combine path_exists glob_docx glob_pdf stem percent
                            convert_error merge_error unlink_error
                            word_folder pdf_folder dest_folder w in
  NoDup (map temp pairs) ->
  (forall pair, In pair pairs -> leaves pair = true ->
                In (temp pair) (temp_files w')) /\
  (forall p, In p (temp_files w') ->
             In p (temp_files w) \/
             exists pair, In pair pairs /\ leaves pair = true /\ p = temp pair).
Proof.
  intros Hw Hp Hd Hwords Hpdfs pairs leaves temp w' Hnd. subst w'.
  rewrite pdf_task_runs_the_loop by assumption.
  unfold pdf_log_message, enumerate. cbn [temp_files]. fold pairs. split.
  - intros pair Hin Hl. apply pdf_loop_leaves; assumption.
  - intros p Hin. apply pdf_loop_cleans in Hin. exact Hin.
Qed.

Lemma pdf_task_leaves_temporary_files_witness :
  In (mkPath (lit "out") (lit "Draft - Jan_temp.pdf"))
     (temp_files
        (run_pdf_combine every_folder sample_glob sample_invoice_glob sample_stem
                         sample_percent sample_convert_error sample_merge_error
                         no_error (lit "in") (lit "pdf") (lit "out")
                         empty_pdf_gui)).
Proof.
  destruct (@pdf_task_leaves_temporary_files every_folder sample_glob
              sample_invoice_glob sample_stem sample_percent sample_convert_error
              sample_merge_error no_error (lit "in") (lit "pdf") (lit "out")
              empty_pdf_gui)
    as [Hleft _];
    [reflexivity | reflexivity | reflexivity | discriminate | discriminate | |].
  - vm_compute. repeat constructor; cbn; intuition discriminate.
  - apply (Hleft (mkPath (lit "in") (lit "Draft - Jan.docx"),
                  mkPath (lit "pdf") (lit "inv-7.pdf"))).
    + vm_compute. left. reflexivity.
    + vm_compute. reflexivity.
Defined.
